(** * DevSkim analysis worker: a shallow embedding of [devskimWorker.ts]

    The development follows [src/server/src/devskimWorker.ts] (class
    [DevSkimWorker]) and [src/server/src/utility_classes/sourceContext.ts]
    (the comment oracle).  JavaScript numbers that may hold the sentinel
    [-1] are integers of [Z]; strings are [string]; values that may be
    [undefined] are options; the [codeActions] object is a finite map
    keyed by strings.  A call that may raise a JavaScript exception
    returns an [Outcome], and the [while] loops whose progress depends on
    the regular-expression engine take a fuel argument. *)

From Stdlib Require Import ZArith Ascii String List Bool Lia.
From stdpp Require Import base option list gmap strings pretty.

Import ListNotations.
Local Open Scope string_scope.
Local Open Scope Z_scope.

Set Default Proof Using "Type".

(* ===================================================================== *)
(** ** JavaScript strings *)
(* ===================================================================== *)

Module JsString.

Definition LF : string := String "010"%char EmptyString.
Definition CR : string := String "013"%char EmptyString.

Definition len (s : string) : Z := Z.of_nat (String.length s).

(** [s.substr(start)] : a negative [start] counts from the end. *)
Definition substr_from (s : string) (start : Z) : string :=
  let b := if start <? 0 then Z.max (len s + start) 0 else start in
  String.substring (Z.to_nat b) (String.length s) s.

(** [s.substr(start, length)]. *)
Definition substr (s : string) (start length : Z) : string :=
  let b := if start <? 0 then Z.max (len s + start) 0 else start in
  String.substring (Z.to_nat b) (Z.to_nat length) s.

Fixpoint indexOf_at (s sub : string) (off : Z) : Z :=
  if String.prefix sub s then off
  else match s with
       | EmptyString => -1
       | String _ s' => indexOf_at s' sub (off + 1)
       end.

(** [s.indexOf(sub)] : first occurrence, [-1] when there is none. *)
Definition indexOf (s sub : string) : Z := indexOf_at s sub 0.

Fixpoint lastIndexOf_at (s sub : string) (off : Z) : Z :=
  match s with
  | EmptyString => if String.prefix sub EmptyString then off else -1
  | String _ s' =>
      let later := lastIndexOf_at s' sub (off + 1) in
      if 0 <=? later then later
      else if String.prefix sub s then off else -1
  end.

(** [s.lastIndexOf(sub)] : last occurrence, [-1] when there is none. *)
Definition lastIndexOf (s sub : string) : Z := lastIndexOf_at s sub 0.

Definition lower_ascii (c : ascii) : ascii :=
  let n := nat_of_ascii c in
  if (65 <=? n)%nat && (n <=? 90)%nat then ascii_of_nat (n + 32) else c.

(** [s.toLowerCase()] on the ASCII letters, which is all the constants
    it is compared with below contain. *)
Fixpoint toLowerCase (s : string) : string :=
  match s with
  | EmptyString => EmptyString
  | String c s' => String (lower_ascii c) (toLowerCase s')
  end.

(** JavaScript truthiness of a string: only the empty string is falsy. *)
Definition truthy (s : string) : bool := negb (String.eqb s EmptyString).

(** [n.toString(10)] for a non-negative integer. *)
Definition toString10 (n : nat) : string := pretty n.

(** The white space [s.trim()] removes, on ASCII text: tab, line feed,
    vertical tab, form feed, carriage return and space. *)
Definition is_space (c : ascii) : bool :=
  let n := nat_of_ascii c in
  ((9 <=? n) && (n <=? 13) || (n =? 32))%nat.

Fixpoint trimStart (s : string) : string :=
  match s with
  | EmptyString => EmptyString
  | String c s' => if is_space c then trimStart s' else s
  end.

Fixpoint trimEnd (s : string) : string :=
  match s with
  | EmptyString => EmptyString
  | String c s' =>
      match trimEnd s' with
      | EmptyString => if is_space c then EmptyString else String c EmptyString
      | t => String c t
      end
  end.

(** [s.trim()] *)
Definition trim (s : string) : string := trimEnd (trimStart s).

End JsString.

Import JsString.

(* ===================================================================== *)
(** ** Outcomes of calls that may throw or spin *)
(* ===================================================================== *)

Inductive Outcome (A : Type) : Type :=
| Returns (a : A)      (* the call returns normally *)
| Throws               (* a JavaScript exception leaves the call *)
| OutOfFuel.           (* the loop was still running when the fuel ended *)

Arguments Returns {A} a.
Arguments Throws {A}.
Arguments OutOfFuel {A}.

#[global] Instance Outcome_bind : MBind Outcome := fun A B k m =>
  match m with
  | Returns a => k a
  | Throws => Throws
  | OutOfFuel => OutOfFuel
  end.

#[global] Instance Outcome_ret : MRet Outcome := fun A a => Returns a.

(** [arr.push(x)] and [arr.concat(other)] on arrays held as lists. *)
Definition push {A : Type} (arr : list A) (x : A) : list A := (arr ++ [x])%list.
Definition concat {A : Type} (arr other : list A) : list A := (arr ++ other)%list.

(** A constructor call that may raise: [None] is the exception. *)
Definition orThrow {A : Type} (o : option A) : Outcome A :=
  match o with Some a => Returns a | None => Throws end.

(* ===================================================================== *)
(** ** Data model ([devskimObjects.ts], as used by the worker) *)
(* ===================================================================== *)

Inductive DevskimRuleSeverity : Type :=
| Critical | Important | Moderate | BestPractice | WarningInfo | ManualReview.

Definition severity_eqb (a b : DevskimRuleSeverity) : bool :=
  match a, b with
  | Critical, Critical | Important, Important | Moderate, Moderate
  | BestPractice, BestPractice | WarningInfo, WarningInfo
  | ManualReview, ManualReview => true
  | _, _ => false
  end.

Record Position : Type := mkPosition { line : Z; character : Z }.

Record Range : Type := mkRange { start : Position; end_ : Position }.

(** [Range.create(startLine, startCharacter, endLine, endCharacter)] *)
Definition Range_create (l1 c1 l2 c2 : Z) : Range :=
  mkRange (mkPosition l1 c1) (mkPosition l2 c2).

Record Pattern : Type := mkPattern {
  pat_pattern : string;
  pat_type : string;
  pat_modifiers : option (list string);
  pat_scopes : list string
}.

Record Condition : Type := mkCondition {
  cond_pattern : Pattern;
  search_in : option string;
  negateFinding : option bool
}.

Record FixIt : Type := mkFixIt {
  fix_name : string;
  fix_pattern : Pattern;
  fix_replacement : string
}.

Record Rule : Type := mkRule {
  id : string;
  name : string;
  description : string;
  recommendation : string;
  ruleInfo : string;
  severity : string;
  appliesTo : option (list string);
  overrides : option (list string);
  patterns : list Pattern;
  conditions : option (list Condition);
  fixIts : option (list FixIt)
}.

Record DevSkimAutoFixEdit : Type := mkEdit {
  edit_range : Range;
  fixName : option string;
  text : string
}.

Record AutoFix : Type := mkAutoFix {
  label : string;
  documentVersion : Z;
  af_ruleId : string;
  edit : DevSkimAutoFixEdit
}.

(** Modelled from the spec: the class [DevSkimProblem]
    ([devskimObjects.ts] is not among the sources), with the fields of
    section 3.  Its constructor stores its arguments and starts [fixes]
    and [overrides] as empty arrays, which the worker relies on when it
    calls [problem.fixes.concat] and reads [problem.overrides.length] on
    a problem it has just made. *)
Record DevSkimProblem : Type := mkProblem {
  message : string;
  source : string;
  ruleId : string;
  prob_severity : DevskimRuleSeverity;
  replacement : string;
  issueURL : string;
  range : Range;
  fixes : list DevSkimAutoFixEdit;
  prob_overrides : list string;
  suppressedFindingRange : option Range
}.

Record DevSkimSuppressionFinding : Type := mkSuppressionFinding {
  showFinding : bool;
  ruleColumn : option Z
}.

Record IDevSkimSettings : Type := mkSettings {
  ignoreFilesList : option (list string);
  ignoreRulesList : list string;
  enableBestPracticeRules : bool;
  enableManualReviewRules : bool
}.

(** A diagnostic code is a [string | number]. *)
Inductive DiagnosticCode : Type := CodeString (s : string) | CodeNumber (n : Z).

(** The result of [XRegExp.exec]: [match.index] and [match[0]]. *)
Record RegExpMatch : Type := mkMatch { index : Z; matched : string }.

(* ===================================================================== *)
(** ** What the worker imports *)
(* ===================================================================== *)

(** The regular-expression engines: the [xregexp] package and the
    built-in [String.prototype.replace] and [String.prototype.match].
    A [None] from a constructor or from [replace] is the exception it
    raises. *)
Class RegexEngine : Type := {
  RegExp : Type;
  (** [XRegExp(source, flags)] *)
  XRegExp : string -> string -> option RegExp;
  (** [XRegExp.escape(str)] *)
  XRegExp_escape : string -> string;
  (** [XRegExp.exec(str, regex, pos)]: the first match at or after [pos] *)
  XRegExp_exec : string -> RegExp -> Z -> option RegExpMatch;
  (** [str.replace(regex, replacement)] *)
  String_replace : string -> RegExp -> string -> option string;
  (** [str.match(source)] with a string argument, which compiles
      [new RegExp(source)]: [Some true] is a non-null result *)
  String_match : string -> string -> option bool
}.

(** The modules of the repository the worker calls into:
    [suppressions.ts], [pathOperations.ts] and [devskimObjects.ts]. *)
Class Collaborators : Type := {
  (** [DevSkimSuppression.isFindingCommented(startPosition, documentContents, ruleID, ruleSeverity)] *)
  isFindingCommented : Z -> string -> string -> DevskimRuleSeverity -> DevSkimSuppressionFinding;
  (** [dsSuppressions.createActions(ruleID, documentContents, startCharacter, lineStart, langID, ruleSeverity)] *)
  createActions : string -> string -> Z -> Z -> string -> DevskimRuleSeverity -> list DevSkimAutoFixEdit;
  (** [PathOperations.ignoreFile(documentURI, ignoreList)] *)
  ignoreFile : string -> list string -> bool;
  (** [computeKey(range, diagnosticCode)] *)
  computeKey : Range -> DiagnosticCode -> string
}.

(* ===================================================================== *)
(** ** The comment oracle ([sourceContext.ts]) *)
(* ===================================================================== *)

(** The worker calls [SourceComments.IsFindingInComment]; the function
    of that name is the one of [sourceContext.ts], whose documentation
    files it under [SourceComments]. *)
Module SourceContext.

Definition one_of (s : string) (l : list string) : bool :=
  existsb (String.eqb s) l.

Definition c_family : list string :=
  ["c"; "cpp"; "csharp"; "groovy"; "php"; "javascript"; "javascriptreact";
   "typescript"; "typescriptreact"; "java"; "objective-c"; "swift"; "go";
   "rust"].

Definition GetLineComment (langID : string) : string :=
  if String.eqb langID "vb" then "'"
  else if one_of langID ["lua"; "sql"; "tsql"] then "--"
  else if String.eqb langID "clojure" then ";;"
  else if one_of langID ["yaml"; "shellscript"; "ruby"; "powershell";
                         "coffeescript"; "python"; "r"; "perl6"; "perl"]
       then "#"
  else if String.eqb langID "jade" then "//-"
  else if one_of langID ("fsharp" :: c_family) then "//"
  else EmptyString.

Definition GetBlockCommentStart (langID : string) : string :=
  if one_of langID c_family then "/*"
  else if String.eqb langID "fsharp" then "(*"
  else if one_of langID ["html"; "xml"] then "<!--"
  else EmptyString.

Definition GetBlockCommentEnd (langID : string) : string :=
  if one_of langID c_family then "*/"
  else if String.eqb langID "fsharp" then "*)"
  else if one_of langID ["html"; "xml"] then "-->"
  else EmptyString.

Definition IsFindingInComment (langID documentContents : string)
    (newlineIndex : Z) (onlyBlock : bool) : bool :=
  if len documentContents <? 1 then false
  else
    let startComment := GetLineComment langID in
    let commentText :=
      if -1 <? newlineIndex then substr_from documentContents newlineIndex
      else documentContents in
    if negb onlyBlock && (0 <? len startComment)
       && (-1 <? indexOf commentText startComment)
    then true
    else
      let startComment := GetBlockCommentStart langID in
      let endComment := GetBlockCommentEnd langID in
      (0 <? len startComment) && (0 <? len endComment)
      && (lastIndexOf documentContents endComment
            <? lastIndexOf documentContents startComment).

(** [ExtractVariablesFromString]: the placeholder the source has. *)
Definition ExtractVariablesFromString (langID sourceString : string)
    : list string :=
  push [] "test".

Definition IsLineCommented (langID documentContents : string)
    (newlineIndex : Z) : bool :=
  if len documentContents <? 1 then false
  else
    let startComment := GetLineComment langID in
    let commentText :=
      if -1 <? newlineIndex then substr_from documentContents newlineIndex
      else documentContents in
    if (0 <? len startComment)
       && (indexOf (trim commentText) startComment =? 0)
    then true
    else false.

Definition IsLineBlockCommented (langID documentContents : string) : bool :=
  if len documentContents <? 1 then false
  else
    let tempDoc := trim documentContents in
    let startComment := GetBlockCommentStart langID in
    let endComment := GetBlockCommentEnd langID in
    (0 <? len startComment) && (0 <? len endComment)
    && (lastIndexOf tempDoc startComment <? lastIndexOf tempDoc endComment)
    && (lastIndexOf tempDoc endComment =? len tempDoc - len endComment).

Definition GetStartOfLastBlockComment (langID documentContents : string) : Z :=
  let startComment := GetBlockCommentStart langID in
  if len startComment <? 1 then -1
  else lastIndexOf documentContents startComment.

Definition GetEndOfLastBlockComment (langID documentContents : string) : Z :=
  let endComment := GetBlockCommentEnd langID in
  if len endComment <? 1 then -1
  else lastIndexOf documentContents endComment.

End SourceContext.

(* ===================================================================== *)
(** ** Line breaks: the pattern [/(\r\n|\n|\r)/gm] *)
(* ===================================================================== *)

Definition is_CR (c : ascii) : bool := Ascii.eqb c "013"%char.
Definition is_LF (c : ascii) : bool := Ascii.eqb c "010"%char.

(** [s.match(newlinePattern)] : the number of matches, [0] for [null]. *)
Fixpoint count_linebreaks (s : string) : Z :=
  match s with
  | EmptyString => 0
  | String c s' =>
      if is_CR c then
        match s' with
        | String c' s'' =>
            if is_LF c' then 1 + count_linebreaks s''
            else 1 + count_linebreaks s'
        | EmptyString => 1
        end
      else if is_LF c then 1 + count_linebreaks s'
      else count_linebreaks s'
  end.

(** [XRegExp.exec(doc, newlinePattern, pos)], where [s] is the part of
    the document from offset [off] on. *)
Fixpoint linebreak_exec_at (s : string) (off pos : Z) : option RegExpMatch :=
  match s with
  | EmptyString => None
  | String c s' =>
      if off <? pos then linebreak_exec_at s' (off + 1) pos
      else if is_CR c then
        match s' with
        | String c' _ =>
            if is_LF c' then Some (mkMatch off (CR ++ LF))
            else Some (mkMatch off CR)
        | EmptyString => Some (mkMatch off CR)
        end
      else if is_LF c then Some (mkMatch off LF)
      else linebreak_exec_at s' (off + 1) pos
  end.

Definition linebreak_exec (doc : string) (pos : Z) : option RegExpMatch :=
  linebreak_exec_at doc 0 pos.

(* ===================================================================== *)
(** ** JavaScript numbers met by [GetDocumentPosition] *)
(* ===================================================================== *)

Inductive number : Type := Num (z : Z) | NaN.

Definition number_lt (a : number) (b : Z) : bool :=
  match a with Num z => z <? b | NaN => false end.

Definition number_incr (a : number) : number :=
  match a with Num z => Num (z + 1) | NaN => NaN end.

Definition number_eq (a : Z) (b : number) : bool :=
  match b with Num z => a =? z | NaN => false end.

Definition is_digit (c : ascii) : bool :=
  let n := nat_of_ascii c in (48 <=? n)%nat && (n <=? 57)%nat.

Definition is_dash (c : ascii) : bool := Ascii.eqb c "-"%char.

Fixpoint digits_value (s : string) (acc : Z) : option Z :=
  match s with
  | EmptyString => Some acc
  | String c s' =>
      if is_digit c
      then digits_value s' (10 * acc + Z.of_nat (nat_of_ascii c - 48))
      else None
  end.

(** The conversion of a string to a number, on the strings made of an
    optional sign and decimal digits; any other text over digits and
    dashes converts to [NaN]. *)
Definition ToNumber (s : string) : number :=
  match s with
  | EmptyString => Num 0
  | String c s' =>
      if is_dash c then
        match s' with
        | EmptyString => NaN
        | _ => match digits_value s' 0 with Some v => Num (- v) | None => NaN end
        end
      else match digits_value s 0 with Some v => Num v | None => NaN end
  end.

(** [n + str] for a number [n] and a string [str]: concatenation. *)
Definition number_plus_string (n : Z) (s : string) : string :=
  pretty n ++ s.

(* ===================================================================== *)
(** ** The pattern [/finding-region\((-*\d+),(-*\d+)\)/] *)
(* ===================================================================== *)

Fixpoint span (p : ascii -> bool) (s : string) : string * string :=
  match s with
  | EmptyString => (EmptyString, EmptyString)
  | String c s' =>
      if p c then let '(a, b) := span p s' in (String c a, b)
      else (EmptyString, s)
  end.

Definition strip_prefix (p s : string) : option string :=
  if String.prefix p s
  then Some (String.substring (String.length p) (String.length s) s)
  else None.

(** One group [(-*\d+)] at the head of [s], and what follows it. *)
Definition region_group (s : string) : option (string * string) :=
  let '(dashes, r1) := span is_dash s in
  let '(digits, r2) := span is_digit r1 in
  if String.eqb digits EmptyString then None else Some (dashes ++ digits, r2).

Definition regionRegex_at (s : string) : option (string * string) :=
  r0 ← strip_prefix "finding-region(" s;
  '(g1, r1) ← region_group r0;
  r2 ← strip_prefix "," r1;
  '(g2, r3) ← region_group r2;
  _ ← strip_prefix ")" r3;
  Some (g1, g2).

(** [XRegExp.exec(str, regionRegex)] : the two groups of the first match. *)
Fixpoint regionRegex_exec (s : string) : option (string * string) :=
  match regionRegex_at s with
  | Some g => Some g
  | None =>
      match s with
      | EmptyString => None
      | String _ s' => regionRegex_exec s'
      end
  end.

(* ===================================================================== *)
(** ** The worker ([devskimWorker.ts]) *)
(* ===================================================================== *)

(** The fields of [DevSkimWorker] the analysis reads. *)
Record DevSkimWorker : Type := mkWorker {
  analysisRules : option (list Rule);
  dswSettings : IDevSkimSettings
}.

Section Worker.

Context {engine : RegexEngine} {collab : Collaborators}.

Definition MapRuleSeverity (severity : string) : DevskimRuleSeverity :=
  let s := toLowerCase severity in
  if String.eqb s "critical" then Critical
  else if String.eqb s "important" then Important
  else if String.eqb s "moderate" then Moderate
  else if String.eqb s "best-practice" then BestPractice
  else if String.eqb s "manual-review" then ManualReview
  else BestPractice.

Definition RuleSeverityEnabled (this : DevSkimWorker)
    (ruleSeverity : DevskimRuleSeverity) : bool :=
  severity_eqb ruleSeverity Critical
  || severity_eqb ruleSeverity Important
  || severity_eqb ruleSeverity Moderate
  || (severity_eqb ruleSeverity BestPractice
      && enableBestPracticeRules (dswSettings this))
  || (severity_eqb ruleSeverity ManualReview
      && enableManualReviewRules (dswSettings this)).

(** The loop of [MakeRegex] over the modifiers. *)
Definition regexModifer_step (forXregExp : bool) (regexModifer modifier : string)
    : string :=
  if String.eqb modifier "d" then
    if forXregExp then regexModifer ++ "s" else regexModifer
  else regexModifer ++ modifier.

Definition MakeRegex (regexType pattern : string)
    (modifiers : option (list string)) (forXregExp : bool) : option RegExp :=
  let regexModifer :=
    match modifiers with
    | Some mods => fold_left (regexModifer_step forXregExp) mods EmptyString
    | None => EmptyString
    end in
  let kind := toLowerCase regexType in
  if String.eqb kind "regex-word"
  then XRegExp ("\b" ++ pattern ++ "\b") regexModifer
  else if String.eqb kind "string"
  then XRegExp ("\b" ++ XRegExp_escape pattern ++ "\b") regexModifer
  else if String.eqb kind "substring"
  then XRegExp (XRegExp_escape pattern) regexModifer
  else XRegExp pattern regexModifer.

Definition GetLineNumber (documentContents : string) (currentPosition : Z) : Z :=
  let subDocument := substr documentContents 0 currentPosition in
  count_linebreaks subDocument.

Fixpoint GetDocumentPosition_loop (fuel : nat) (documentContents : string)
    (lineNumber : number) (line : Z) (m : option RegExpMatch) : Outcome Z :=
  match fuel with
  | O => OutOfFuel
  | S fuel' =>
      match m with
      | None => Returns (len documentContents)
      | Some mt =>
          let line := line + 1 in
          let matchPosition := index mt + len (matched mt) in
          if number_eq line lineNumber then Returns matchPosition
          else GetDocumentPosition_loop fuel' documentContents lineNumber line
                 (linebreak_exec documentContents matchPosition)
      end
  end.

Definition GetDocumentPosition (documentContents : string)
    (lineNumber : number) : Outcome Z :=
  if number_lt lineNumber 1 then Returns 0
  else
    let lineNumber := number_incr lineNumber in
    GetDocumentPosition_loop (S (String.length documentContents))
      documentContents lineNumber 1 (linebreak_exec documentContents 0).

Definition MatchIsInScope (langID docContentsToFinding : string)
    (newlineIndex : Z) (scopes : list string) : bool :=
  if existsb (String.eqb "all") scopes then true
  else
    let findingInComment :=
      SourceContext.IsFindingInComment langID docContentsToFinding
        newlineIndex false in
    existsb (fun scope =>
               (String.eqb scope "code" && negb findingInComment)
               || (String.eqb scope "comment" && findingInComment))
            scopes.

Definition MakeProblem (rule : Rule) (warningLevel : DevskimRuleSeverity)
    (problemRange : Range) (suppressedFindingRange : option Range)
    : DevSkimProblem :=
  {| message := description rule;
     source := name rule;
     ruleId := id rule;
     prob_severity := warningLevel;
     replacement := recommendation rule;
     issueURL := ruleInfo rule;
     range := problemRange;
     fixes := [];
     prob_overrides :=
       match overrides rule with
       | Some o => if (0 <? length o)%nat then o else []
       | None => []
       end;
     suppressedFindingRange := suppressedFindingRange |}.

(** The line a match starts on and the index of the newline before it. *)
Definition newlineIndex_of (documentContents : string) (lineStart idx : Z) : Z :=
  if lineStart =? 0 then -1
  else lastIndexOf (substr documentContents 0 idx) LF.

(** [modifiers.concat(["g"])], or [["g"]] without modifiers. *)
Definition with_global (modifiers : option (list string)) : list string :=
  match modifiers with
  | Some mods => if (0 <? length mods)%nat then mods ++ ["g"] else ["g"]
  | None => ["g"]
  end.

(** How the inner [while] of [MatchesConditions] is left. *)
Inductive ConditionExit : Type :=
| ReturnFalse
| LeaveLoop (foundPattern : bool).

Fixpoint MatchesConditions_scan (fuel : nat) (documentContents langID : string)
    (scopes : list string) (conditionRegex : RegExp) (endPos : Z)
    (negate : bool) (m : option RegExpMatch) : Outcome ConditionExit :=
  match fuel with
  | O => OutOfFuel
  | S fuel' =>
      match m with
      | None => Returns (LeaveLoop false)
      | Some mt =>
          if endPos <? index mt then
            if negb negate then Returns ReturnFalse
            else Returns (LeaveLoop false)
          else
            let lineStart := GetLineNumber documentContents (index mt) in
            let newlineIndex :=
              newlineIndex_of documentContents lineStart (index mt) in
            if MatchIsInScope langID (substr documentContents 0 (index mt))
                 newlineIndex scopes
            then
              if negate then Returns ReturnFalse
              else Returns (LeaveLoop true)
            else
              let startPos := index mt + len (matched mt) in
              MatchesConditions_scan fuel' documentContents langID scopes
                conditionRegex endPos negate
                (XRegExp_exec documentContents conditionRegex startPos)
      end
  end.

(** Where a condition is looked for: [startPos] and [endPos]. *)
Definition condition_region (condition : Condition)
    (documentContents : string) (findingRange : Range) : Outcome (Z * Z) :=
  let startPos := line (start findingRange) in
  let endPos := line (end_ findingRange) in
  match search_in condition with
  | None =>
      startPos ← GetDocumentPosition documentContents
                   (Num (line (start findingRange)));
      endPos ← GetDocumentPosition documentContents
                 (Num (line (end_ findingRange) + 1));
      Returns (startPos, endPos)
  | Some s =>
      if truthy s then
        startPos ← GetDocumentPosition documentContents
                     (Num (line (start findingRange)));
        endPos ← GetDocumentPosition documentContents
                   (Num (line (end_ findingRange) + 1));
        Returns (startPos, endPos)
      else if String.eqb s "finding-only" then
        startPos ← GetDocumentPosition documentContents
                     (Num (line (start findingRange)));
        endPos ← GetDocumentPosition documentContents
                   (Num (line (end_ findingRange)));
        Returns (startPos + character (start findingRange),
                 endPos + character (end_ findingRange))
      else
        match regionRegex_exec s with
        | Some (g1, g2) =>
            startPos ← GetDocumentPosition documentContents
              (ToNumber (number_plus_string (line (start findingRange)) g1));
            endPos ← GetDocumentPosition documentContents
              (ToNumber
                 (number_plus_string (line (end_ findingRange)) g2 ++ "1"));
            Returns (startPos, endPos)
        | None => Returns (startPos, endPos)
        end
  end.

Fixpoint MatchesConditions_each (fuel : nat) (conditions : list Condition)
    (documentContents : string) (findingRange : Range) (langID : string)
    : Outcome bool :=
  match conditions with
  | [] => Returns true
  | condition :: rest =>
      let negate := default false (negateFinding condition) in
      let modifiers := with_global (pat_modifiers (cond_pattern condition)) in
      conditionRegex ←
        orThrow (MakeRegex (pat_type (cond_pattern condition))
                   (pat_pattern (cond_pattern condition))
                   (Some modifiers) true);
      '(startPos, endPos) ←
        condition_region condition documentContents findingRange;
      exit ← MatchesConditions_scan fuel documentContents langID
                (pat_scopes (cond_pattern condition)) conditionRegex endPos
                negate (XRegExp_exec documentContents conditionRegex startPos);
      match exit with
      | ReturnFalse => Returns false
      | LeaveLoop foundPattern =>
          if negb negate && negb foundPattern then Returns false
          else MatchesConditions_each fuel rest documentContents
                 findingRange langID
      end
  end.

Definition MatchesConditions (fuel : nat) (conditions : option (list Condition))
    (documentContents : string) (findingRange : Range) (langID : string)
    : Outcome bool :=
  match conditions with
  | Some conds =>
      MatchesConditions_each fuel conds documentContents findingRange langID
  | None => Returns true
  end.

(** The body of the loop of [MakeFixes] for [fixIndex = count - 1]
    down to [0]; the regex is built before the [try]. *)
Fixpoint MakeFixes_from (count : nat) (fixIts : list FixIt)
    (replacementSource : string) (range : Range)
    (fixes : list DevSkimAutoFixEdit) : Outcome (list DevSkimAutoFixEdit) :=
  match count with
  | O => Returns fixes
  | S fixIndex =>
      match fixIts !! fixIndex with
      | None => Throws
      | Some fixIt =>
          replacePattern ←
            orThrow (MakeRegex (pat_type (fix_pattern fixIt))
                       (pat_pattern (fix_pattern fixIt))
                       (pat_modifiers (fix_pattern fixIt)) false);
          let fixes :=
            match String_replace replacementSource replacePattern
                    (fix_replacement fixIt) with
            | Some text =>
                push fixes {| edit_range := range;
                              fixName := Some ("DevSkim: " ++ fix_name fixIt);
                              text := text |}
            | None => fixes
            end in
          MakeFixes_from fixIndex fixIts replacementSource range fixes
      end
  end.

Definition MakeFixes (rule : Rule) (replacementSource : string)
    (range : Range) : Outcome (list DevSkimAutoFixEdit) :=
  match fixIts rule with
  | Some fs =>
      if (0 <? length fs)%nat
      then MakeFixes_from (length fs) fs replacementSource range []
      else Returns []
  | None => Returns []
  end.

Definition AppliesToLangOrFile (languageID : string)
    (appliesTo : option (list string)) (documentURI : string) : bool :=
  match appliesTo with
  | Some l =>
      if (0 <? length l)%nat then
        existsb (fun applies =>
                   String.eqb (toLowerCase languageID) (toLowerCase applies)
                   || (negb (indexOf applies "." =? -1)
                       && negb (indexOf (toLowerCase documentURI)
                                  (toLowerCase applies) =? -1)))
                l
      else true
  | None => true
  end.

Definition with_fixes (problem : DevSkimProblem)
    (fs : list DevSkimAutoFixEdit) : DevSkimProblem :=
  {| message := message problem; source := source problem;
     ruleId := ruleId problem; prob_severity := prob_severity problem;
     replacement := replacement problem; issueURL := issueURL problem;
     range := range problem; fixes := fs;
     prob_overrides := prob_overrides problem;
     suppressedFindingRange := suppressedFindingRange problem |}.

Definition with_overrides (problem : DevSkimProblem)
    (os : list string) : DevSkimProblem :=
  {| message := message problem; source := source problem;
     ruleId := ruleId problem; prob_severity := prob_severity problem;
     replacement := replacement problem; issueURL := issueURL problem;
     range := range problem; fixes := fixes problem;
     prob_overrides := os;
     suppressedFindingRange := suppressedFindingRange problem |}.

(** The range of a match: [lineStart], [columnStart], [lineEnd] and
    [columnEnd] as [runAnalysis] computes them. *)
Definition match_range (documentContents : string) (m : RegExpMatch) : Range :=
  let lineStart := GetLineNumber documentContents (index m) in
  let newlineIndex := newlineIndex_of documentContents lineStart (index m) in
  let columnStart := index m - newlineIndex - 1 in
  let replacementSource :=
    substr documentContents (index m) (len (matched m)) in
  let lineEnd :=
    GetLineNumber replacementSource (len replacementSource) + lineStart in
  let columnEnd :=
    if lineStart =? lineEnd then columnStart + len (matched m)
    else len (matched m)
         - indexOf (substr_from documentContents (index m)) LF - 1 in
  Range_create lineStart columnStart lineEnd columnEnd.

(** One turn of the [while (match)] loop of [runAnalysis]: the
    problems it pushes. *)
Definition analyzeMatch (fuel : nat) (documentContents langID : string)
    (rule : Rule) (ruleSeverity : DevskimRuleSeverity) (pat : Pattern)
    (m : RegExpMatch) : Outcome (list DevSkimProblem) :=
  let conditions := Some (default [] (conditions rule)) in
  let suppressionFinding :=
    isFindingCommented (index m) documentContents (id rule) ruleSeverity in
  let lineStart := GetLineNumber documentContents (index m) in
  let newlineIndex := newlineIndex_of documentContents lineStart (index m) in
  let columnStart := index m - newlineIndex - 1 in
  let replacementSource :=
    substr documentContents (index m) (len (matched m)) in
  let range := match_range documentContents m in
  live ←
    (if negb (showFinding suppressionFinding)
        && MatchIsInScope langID (substr documentContents 0 (index m))
             newlineIndex (pat_scopes pat)
     then MatchesConditions fuel conditions documentContents range langID
     else Returns false);
  if live : bool then
    let problem :=
      MakeProblem rule (MapRuleSeverity (severity rule)) range None in
    made ← MakeFixes rule replacementSource range;
    let problem := with_fixes problem (concat (fixes problem) made) in
    let problem :=
      with_fixes problem
        (concat (fixes problem)
           (createActions (id rule) documentContents (index m) lineStart
              langID ruleSeverity)) in
    Returns [problem]
  else
    match ruleColumn suppressionFinding with
    | Some col =>
        if 0 <? col then
          let suppressionRange :=
            Range_create lineStart (columnStart + col) lineStart
              (columnStart + col + len (id rule)) in
          Returns [MakeProblem rule WarningInfo suppressionRange (Some range)]
        else Returns []
    | None => Returns []
    end.

(** The [while (match)] loop of [runAnalysis] for one pattern. *)
Fixpoint runAnalysis_scan (fuel bound : nat) (documentContents langID : string)
    (rule : Rule) (ruleSeverity : DevskimRuleSeverity) (pat : Pattern)
    (matchPattern : RegExp) (problems : list DevSkimProblem)
    (m : option RegExpMatch) {struct fuel} : Outcome (list DevSkimProblem) :=
  match fuel with
  | O => OutOfFuel
  | S fuel' =>
      match m with
      | None => Returns problems
      | Some mt =>
          pushed ← analyzeMatch bound documentContents langID rule
                     ruleSeverity pat mt;
          let matchPosition := index mt + len (matched mt) in
          runAnalysis_scan fuel' bound documentContents langID rule
            ruleSeverity pat matchPattern (concat problems pushed)
            (XRegExp_exec documentContents matchPattern matchPosition)
      end
  end.

(** The loop over the patterns of one rule; [fuel] bounds the turns of
    each [while] loop separately. *)
Fixpoint runAnalysis_patterns (fuel : nat) (documentContents langID : string)
    (rule : Rule) (ruleSeverity : DevskimRuleSeverity) (pats : list Pattern)
    (problems : list DevSkimProblem) : Outcome (list DevSkimProblem) :=
  match pats with
  | [] => Returns problems
  | pat :: rest =>
      let modifiers := with_global (pat_modifiers pat) in
      matchPattern ←
        orThrow (MakeRegex (pat_type pat) (pat_pattern pat)
                   (Some modifiers) true);
      problems ← runAnalysis_scan fuel fuel documentContents langID rule
                    ruleSeverity pat matchPattern problems
                    (XRegExp_exec documentContents matchPattern 0);
      runAnalysis_patterns fuel documentContents langID rule ruleSeverity
        rest problems
  end.

Definition rule_enabled (this : DevSkimWorker) (langID documentURI : string)
    (rule : Rule) : bool :=
  negb (existsb (String.eqb (id rule)) (ignoreRulesList (dswSettings this)))
  && AppliesToLangOrFile langID (appliesTo rule) documentURI
  && RuleSeverityEnabled this (MapRuleSeverity (severity rule)).

(** The loop over the rules. *)
Fixpoint runAnalysis_rules (fuel : nat) (this : DevSkimWorker)
    (documentContents langID documentURI : string) (rules : list Rule)
    (problems : list DevSkimProblem) : Outcome (list DevSkimProblem) :=
  match rules with
  | [] => Returns problems
  | rule :: rest =>
      let ruleSeverity := MapRuleSeverity (severity rule) in
      problems ←
        (if rule_enabled this langID documentURI rule
         then runAnalysis_patterns fuel documentContents langID rule
                ruleSeverity (patterns rule) problems
         else Returns problems);
      runAnalysis_rules fuel this documentContents langID documentURI rest
        problems
  end.

Definition runAnalysis (fuel : nat) (this : DevSkimWorker)
    (documentContents langID documentURI : string)
    : Outcome (list DevSkimProblem) :=
  runAnalysis_rules fuel this documentContents langID documentURI
    (default [] (analysisRules this)) [].

(** The range overriding is anchored at. *)
Definition anchor (problem : DevSkimProblem) : Range :=
  match suppressedFindingRange problem with
  | Some r => r
  | None => range problem
  end.

(** Where the object [problem] sits after [problems.splice(x, 1)]. *)
Definition after_splice (x : nat) (self : option nat) : option nat :=
  match self with
  | Some j =>
      if (x <? j)%nat then Some (j - 1)%nat
      else if (x =? j)%nat then None
      else Some j
  | None => None
  end.

(** The loop [for (let x = 0; x < problems.length; x++)] of
    [processOverrides]; [self] is the index at which the object
    [problem] currently sits in the array, if it is still there. *)
Fixpoint processOverrides_inner (fuel : nat) (problems : list DevSkimProblem)
    (problem : DevSkimProblem) (regexString : string) (x : nat)
    (self : option nat) (overrideRemoved : bool)
    : Outcome (list DevSkimProblem * option nat * bool) :=
  match fuel with
  | O => OutOfFuel
  | S fuel' =>
      match problems !! x with
      | None => Returns (problems, self, overrideRemoved)
      | Some px =>
          matches ← orThrow (String_match (ruleId px) regexString);
          let range_ := anchor problem in
          if (matches : bool)
             && (line (start (range px)) =? line (start range_))
             && (character (start (range px)) =? character (start range_))
          then processOverrides_inner fuel' (delete x problems) problem
                 regexString (S x) (after_splice x self) true
          else processOverrides_inner fuel' problems problem regexString
                 (S x) self overrideRemoved
      end
  end.

(** The loop [for (let problem of problems)]: the array iterator
    reads [problems[i]] against the current length at each turn. *)
Fixpoint processOverrides_outer (fuel : nat) (problems : list DevSkimProblem)
    (i : nat) (overrideRemoved : bool)
    : Outcome (list DevSkimProblem * bool) :=
  match fuel with
  | O => OutOfFuel
  | S fuel' =>
      match problems !! i with
      | None => Returns (problems, overrideRemoved)
      | Some problem =>
          match prob_overrides problem with
          | [] => processOverrides_outer fuel' problems (S i) overrideRemoved
          | first :: others =>
              let regexString :=
                fold_left (fun acc o => acc ++ "|" ++ o) others first in
              '(problems, self, overrideRemoved) ←
                processOverrides_inner (S (length problems)) problems problem
                  regexString 0 (Some i) overrideRemoved;
              let problems :=
                match self with
                | Some j => alter (fun p => with_overrides p []) j problems
                | None => problems
                end in
              processOverrides_outer fuel' problems (S i) overrideRemoved
          end
      end
  end.

Fixpoint processOverrides_rec (fuel : nat) (problems : list DevSkimProblem)
    : Outcome (list DevSkimProblem) :=
  match fuel with
  | O => OutOfFuel
  | S fuel' =>
      '(problems, overrideRemoved) ←
        processOverrides_outer (S (length problems)) problems 0 false;
      if (overrideRemoved : bool) then processOverrides_rec fuel' problems
      else Returns problems
  end.

Definition processOverrides (problems : list DevSkimProblem)
    : Outcome (list DevSkimProblem) :=
  processOverrides_rec (S (length problems)) problems.

Definition analyzeText (fuel : nat) (this : DevSkimWorker)
    (documentContents langID documentURI : string)
    : Outcome (list DevSkimProblem) :=
  match analysisRules this, ignoreFilesList (dswSettings this) with
  | Some rules, Some ignoreList =>
      if (0 <? length rules)%nat && negb (ignoreFile documentURI ignoreList)
      then
        problems ← runAnalysis fuel this documentContents langID documentURI;
        processOverrides problems
      else Returns []
  | _, _ => Returns []
  end.

(** The loop [while (edits[computeKey(range, diagnosticCode) + x.toString(10)]) x++]. *)
Fixpoint recordCodeAction_ordinal (fuel : nat) (edits : gmap string AutoFix)
    (key : string) (x : nat) : Outcome nat :=
  match fuel with
  | O => OutOfFuel
  | S fuel' =>
      match edits !! (key ++ toString10 x) with
      | Some _ => recordCodeAction_ordinal fuel' edits key (S x)
      | None => Returns x
      end
  end.

(** [recordCodeAction], with the [codeActions] object passed in and
    returned. *)
Definition recordCodeAction (codeActions : gmap string (gmap string AutoFix))
    (documentURI : string) (documentVersion : Z) (range : Range)
    (diagnosticCode : DiagnosticCode) (fix_ : option DevSkimAutoFixEdit)
    (ruleID : option string)
    : Outcome (gmap string (gmap string AutoFix)) :=
  match fix_, ruleID with
  | Some fix_, Some ruleID =>
      if truthy ruleID then
        let fixName :=
          match fixName fix_ with
          | Some n => if 0 <? len n then n
                      else "Fix this " ++ ruleID ++ " problem"
          | None => "Fix this " ++ ruleID ++ " problem"
          end in
        let '(edits, codeActions) :=
          match codeActions !! documentURI with
          | Some edits => (edits, codeActions)
          | None => (∅, <[documentURI := ∅]> codeActions)
          end in
        x ← recordCodeAction_ordinal (S (size edits)) edits
              (computeKey range diagnosticCode) 0%nat;
        let edits :=
          <[computeKey range diagnosticCode ++ toString10 x :=
              {| label := fixName; documentVersion := documentVersion;
                 af_ruleId := ruleID; edit := fix_ |}]> edits in
        Returns (<[documentURI := edits]> codeActions)
      else Returns codeActions
  | _, _ => Returns codeActions
  end.

End Worker.

(* ===================================================================== *)
(** ** A concrete engine: the operator-free fragment of the regex syntax *)
(* ===================================================================== *)

(** The concrete runs below use an engine for the sources that use no
    regex operator: a source is a sequence of
    ordinary characters and backslash-escaped punctuation, which is what
    [XRegExp.escape] produces, and it matches its own text.  A source
    with an operator ([(], [[], [*], ...) or an escape of a letter or a
    digit ([\b], [\d], ...) is outside the fragment and gets no regex;
    for the unbalanced source [(] that is also what [XRegExp] does, which
    raises a [SyntaxError].  The flags supported are none and [g]. *)
Module Literal.

Definition is_operator (c : ascii) : bool :=
  existsb (Ascii.eqb c)
    ["["; "]"; "{"; "}"; "("; ")"; "*"; "+"; "?"; "."; "^"; "$"; "|"]%char.

Definition is_alnum (c : ascii) : bool :=
  let n := nat_of_ascii c in
  ((48 <=? n) && (n <=? 57) || (65 <=? n) && (n <=? 90)
   || (97 <=? n) && (n <=? 122))%nat.

Definition is_backslash (c : ascii) : bool := Ascii.eqb c "\"%char.

(** The text an operator-free source matches. *)
Fixpoint literal_of_source (s : string) : option string :=
  match s with
  | EmptyString => Some EmptyString
  | String c s' =>
      if is_backslash c then
        match s' with
        | EmptyString => None
        | String c' s'' =>
            if is_alnum c' then None
            else String c' <$> literal_of_source s''
        end
      else if is_operator c then None
      else String c <$> literal_of_source s'
  end.

Definition compile (source flags : string) : option string :=
  if String.eqb flags EmptyString || String.eqb flags "g"
  then literal_of_source source
  else None.

(** The characters [XRegExp.escape] puts a backslash before:
    [-[]{}()*+?.,\^$|#] and white space. *)
Definition needs_escape (c : ascii) : bool :=
  is_operator c
  || existsb (Ascii.eqb c) ["-"; ","; "\"; "#"; " "]%char
  || (let n := nat_of_ascii c in (9 <=? n)%nat && (n <=? 13)%nat).

Fixpoint escape (s : string) : string :=
  match s with
  | EmptyString => EmptyString
  | String c s' =>
      if needs_escape c then String "\"%char (String c (escape s'))
      else String c (escape s')
  end.

(** The first occurrence of [lit] at or after [pos] in the document,
    of which [s] is the part from offset [off] on. *)
Fixpoint find_at (s lit : string) (off pos : Z) : option Z :=
  if (pos <=? off) && String.prefix lit s then Some off
  else match s with
       | EmptyString => None
       | String _ s' => find_at s' lit (off + 1) pos
       end.

Definition exec (str lit : string) (pos : Z) : option RegExpMatch :=
  (fun i => mkMatch i lit) <$> find_at str lit 0 pos.

(** [str.replace(regex, replacement)] without the [g] flag: the first
    occurrence, for a replacement text without [$]. *)
Definition replace (str lit replacement : string) : option string :=
  match find_at str lit 0 0 with
  | Some i =>
      Some (substr str 0 i ++ replacement
            ++ substr_from str (i + len lit))
  | None => Some str
  end.

(** The alternatives of [a|b|c]. *)
Fixpoint alternatives (s current : string) : list string :=
  match s with
  | EmptyString => [current]
  | String c s' =>
      if Ascii.eqb c "|"%char then current :: alternatives s' EmptyString
      else alternatives s' (current ++ String c EmptyString)
  end.

(** [str.match(source)] for an alternation of operator-free sources. *)
Definition match_ (str source : string) : option bool :=
  lits ← mapM literal_of_source (alternatives source EmptyString);
  Some (existsb (fun lit => bool_decide (is_Some (find_at str lit 0 0))) lits).

#[global] Instance engine : RegexEngine := {|
  RegExp := string;
  XRegExp := compile;
  XRegExp_escape := escape;
  XRegExp_exec := exec;
  String_replace := replace;
  String_match := match_
|}.

End Literal.

(* ===================================================================== *)
(** ** A concrete host *)
(* ===================================================================== *)

Module Host.

(** The text of the line from [startPosition] up to the next line
    break. *)
Definition rest_of_line (documentContents : string) (startPosition : Z)
    : string :=
  match linebreak_exec documentContents startPosition with
  | Some m => substr documentContents startPosition (index m - startPosition)
  | None => substr_from documentContents startPosition
  end.

(** Modelled from the spec: [DevSkimSuppression.isFindingCommented]
    ([suppressions.ts] is not among the sources).  Of the directive
    surface of sections 4.C and 6 this keeps the form
    [DevSkim: ignore <id-list>] ([reviewed] for a manual-review rule)
    in the comment on the finding's line: a directive naming the rule
    suppresses the finding and [ruleColumn] is the column of the rule
    id counted from the finding. *)
Definition isFindingCommented (startPosition : Z)
    (documentContents ruleID : string) (ruleSeverity : DevskimRuleSeverity)
    : DevSkimSuppressionFinding :=
  let lineText := rest_of_line documentContents startPosition in
  let keyword :=
    if severity_eqb ruleSeverity ManualReview then "DevSkim: reviewed "
    else "DevSkim: ignore " in
  let at_ := indexOf lineText keyword in
  if at_ <? 0 then mkSuppressionFinding false None
  else
    let ids := substr_from lineText (at_ + len keyword) in
    let idAt := indexOf ids ruleID in
    if idAt <? 0 then mkSuppressionFinding false None
    else mkSuppressionFinding true (Some (at_ + len keyword + idAt)).

(** Modelled from the spec: [dsSuppressions.createActions]
    ([suppressions.ts] is not among the sources).  Section 4.E only
    says that the suppression-authoring fixes follow the fixes of the
    rule; this host offers none. *)
Definition createActions (ruleID documentContents : string)
    (startCharacter lineStart : Z) (langID : string)
    (ruleSeverity : DevskimRuleSeverity) : list DevSkimAutoFixEdit := [].

(** Modelled from the spec: [PathOperations.ignoreFile]
    ([pathOperations.ts] is not among the sources): the URI matches an
    entry of the ignore list, here by containing it. *)
Definition ignoreFile (documentURI : string) (ignoreList : list string)
    : bool :=
  existsb (fun entry => 0 <=? indexOf documentURI entry) ignoreList.

(** Modelled from the spec: [computeKey] ([devskimObjects.ts] is not
    among the sources): a key made of the range and the diagnostic
    code. *)
Definition computeKey (range : Range) (diagnosticCode : DiagnosticCode)
    : string :=
  "[" ++ pretty (line (start range)) ++ ","
  ++ pretty (character (start range)) ++ ","
  ++ pretty (line (end_ range)) ++ ","
  ++ pretty (character (end_ range)) ++ "]-"
  ++ match diagnosticCode with
     | CodeString s => s
     | CodeNumber n => pretty n
     end.

#[global] Instance collab : Collaborators :=
  Build_Collaborators isFindingCommented createActions ignoreFile computeKey.

End Host.

(* ===================================================================== *)
(** ** The regex builder as section 4.B words it *)
(* ===================================================================== *)

(** Two strings that differ at most in the case of their letters. *)
Fixpoint same_ignoring_case (a b : string) : bool :=
  match a, b with
  | EmptyString, EmptyString => true
  | String x a', String y b' =>
      Ascii.eqb (lower_ascii x) (lower_ascii y) && same_ignoring_case a' b'
  | _, _ => false
  end.

Section BuilderSpec.

Context {engine : RegexEngine}.

(** What one modifier contributes to the flags. *)
Definition builder_flag (forEngineWithDotAll : bool) (modifier : string)
    : string :=
  if String.eqb modifier "d"
  then (if forEngineWithDotAll then "s" else EmptyString)
  else modifier.

Definition builder_flags (modifiers : option (list string))
    (forEngineWithDotAll : bool) : string :=
  String.concat EmptyString (map (builder_flag forEngineWithDotAll)
                        (default [] modifiers)).

Definition builder_source (kind pattern : string) : string :=
  if same_ignoring_case kind "regex-word" then "\b" ++ pattern ++ "\b"
  else if same_ignoring_case kind "string"
  then "\b" ++ XRegExp_escape pattern ++ "\b"
  else if same_ignoring_case kind "substring" then XRegExp_escape pattern
  else pattern.

End BuilderSpec.

(* ===================================================================== *)
(** ** Inputs the results below are run on *)
(* ===================================================================== *)

Module Inputs.

Definition substring_pattern (text : string) (scopes : list string) : Pattern :=
  {| pat_pattern := text; pat_type := "substring";
     pat_modifiers := None; pat_scopes := scopes |}.

Definition settings : IDevSkimSettings :=
  {| ignoreFilesList := Some []; ignoreRulesList := [];
     enableBestPracticeRules := false; enableManualReviewRules := false |}.

(** Three rules that fire on [MD5]; the Java rule overrides the two
    generic ones. *)
Definition md5_rule (ruleId : string) (overrides : option (list string)) : Rule :=
  {| id := ruleId; name := ruleId; description := "Do not use MD5";
     recommendation := "Use SHA-256"; ruleInfo := EmptyString; severity := "critical";
     appliesTo := None; overrides := overrides;
     patterns := [substring_pattern "MD5" ["all"]];
     conditions := None; fixIts := None |}.

Definition java_md5 : Rule :=
  md5_rule "DS-java-md5" (Some ["DS-generic-md5"; "DS-weak-hash"]).
Definition generic_md5 : Rule := md5_rule "DS-generic-md5" None.
Definition weak_hash : Rule := md5_rule "DS-weak-hash" None.

Definition md5_worker : DevSkimWorker :=
  {| analysisRules := Some [java_md5; generic_md5; weak_hash];
     dswSettings := settings |}.

Definition md5_document : string := "MD5" ++ LF.

Definition md5_range : Range := Range_create 0 0 0 3.

Definition md5_problem (rule : Rule) : DevSkimProblem :=
  MakeProblem rule Critical md5_range None.

End Inputs.

(* ===================================================================== *)
(** ** Where a reported problem comes from *)
(* ===================================================================== *)

Section Provenance.

Context {engine : RegexEngine} {collab : Collaborators}.

(** The fix edit [MakeFixes] pushes for one template, if any. *)
Definition fix_edit (replacementSource : string) (range : Range)
    (fixIt : FixIt) : option DevSkimAutoFixEdit :=
  replacePattern ← MakeRegex (pat_type (fix_pattern fixIt))
                     (pat_pattern (fix_pattern fixIt))
                     (pat_modifiers (fix_pattern fixIt)) false;
  text ← String_replace replacementSource replacePattern
            (fix_replacement fixIt);
  Some {| edit_range := range;
          fixName := Some ("DevSkim: " ++ fix_name fixIt);
          text := text |}.

(** The regex [runAnalysis] scans the document with for a pattern. *)
Definition scan_regex (pat : Pattern) : option RegExp :=
  MakeRegex (pat_type pat) (pat_pattern pat)
    (Some (with_global (pat_modifiers pat))) true.

(** [found this doc langID documentURI rule pat m]: [m] is a match
    that the scan of an enabled rule's pattern meets in the document. *)
Definition found (this : DevSkimWorker)
    (documentContents langID documentURI : string)
    (rule : Rule) (pat : Pattern) (m : RegExpMatch) : Prop :=
  rule ∈ default [] (analysisRules this)
  ∧ rule_enabled this langID documentURI rule = true
  ∧ pat ∈ patterns rule
  ∧ ∃ matchPattern pos,
      scan_regex pat = Some matchPattern
      ∧ XRegExp_exec documentContents matchPattern pos = Some m.

(** The prefix of the document before a match and the index of the
    last newline in it, as [runAnalysis] passes them to
    [MatchIsInScope]. *)
Definition match_prefix (documentContents : string) (m : RegExpMatch) : string :=
  substr documentContents 0 (index m).

Definition match_newlineIndex (documentContents : string) (m : RegExpMatch) : Z :=
  newlineIndex_of documentContents
    (GetLineNumber documentContents (index m)) (index m).

(** The live problem [runAnalysis] pushes for a match. *)
Definition live_problem (documentContents langID : string) (rule : Rule)
    (m : RegExpMatch) (made : list DevSkimAutoFixEdit) : DevSkimProblem :=
  with_fixes
    (MakeProblem rule (MapRuleSeverity (severity rule))
       (match_range documentContents m) None)
    (concat made
       (createActions (id rule) documentContents (index m)
          (GetLineNumber documentContents (index m)) langID
          (MapRuleSeverity (severity rule)))).

(** The marker [runAnalysis] pushes on the rule id of a directive. *)
Definition marker_problem (documentContents : string) (rule : Rule)
    (m : RegExpMatch) (col : Z) : DevSkimProblem :=
  let lineStart := GetLineNumber documentContents (index m) in
  let columnStart := index m - match_newlineIndex documentContents m - 1 in
  MakeProblem rule WarningInfo
    (Range_create lineStart (columnStart + col) lineStart
       (columnStart + col + len (id rule)))
    (Some (match_range documentContents m)).

(** The regex of a fix template can be constructed. *)
Definition fix_builds (f : FixIt) : Prop :=
  is_Some (MakeRegex (pat_type (fix_pattern f)) (pat_pattern (fix_pattern f))
             (pat_modifiers (fix_pattern f)) false).

(** Every regex the analysis of a rule constructs can be constructed. *)
Definition rule_builds (rule : Rule) : Prop :=
  Forall (fun pat => is_Some (scan_regex pat)) (patterns rule)
  ∧ Forall (fun c => is_Some (scan_regex (cond_pattern c)))
      (default [] (conditions rule))
  ∧ Forall fix_builds (default [] (fixIts rule))
  ∧ ∀ first others subject,
      overrides rule = Some (first :: others) →
      is_Some (String_match subject
                 (fold_left (fun acc o => acc ++ "|" ++ o) others first)).

(** A problem as [processOverrides] may leave it: as it came, or with
    its [overrides] emptied. *)
Definition resolved (before after : DevSkimProblem) : Prop :=
  after = before ∨ after = with_overrides before [].

Definition no_overrides (p : DevSkimProblem) : Prop := prob_overrides p = [].

(** The lines of the finding, from the start of its first line to the
    start of the line after its last. *)
Definition finding_lines (documentContents : string) (findingRange : Range)
    : Outcome (Z * Z) :=
  startPos ← GetDocumentPosition documentContents
               (Num (line (start findingRange)));
  endPos ← GetDocumentPosition documentContents
             (Num (line (end_ findingRange) + 1));
  Returns (startPos, endPos).

End Provenance.

Module Inputs2.

Import Inputs.

(** The rule of the scenarios of section 8: [strcpy] in code, with two
    fix templates. *)
Definition to_strlcpy : FixIt :=
  {| fix_name := "Change to strlcpy";
     fix_pattern := substring_pattern "strcpy" [];
     fix_replacement := "strlcpy" |}.

Definition to_strcpy_s : FixIt :=
  {| fix_name := "Change to strcpy_s";
     fix_pattern := substring_pattern "strcpy" [];
     fix_replacement := "strcpy_s" |}.

Definition strcpy_rule : Rule :=
  {| id := "DS001"; name := "Banned C function";
     description := "strcpy is banned"; recommendation := "Use strlcpy";
     ruleInfo := EmptyString; severity := "critical";
     appliesTo := None; overrides := None;
     patterns := [substring_pattern "strcpy" ["code"]];
     conditions := None; fixIts := Some [to_strlcpy; to_strcpy_s] |}.

Definition strcpy_worker : DevSkimWorker :=
  {| analysisRules := Some [strcpy_rule]; dswSettings := settings |}.

Definition strcpy_document : string := "strcpy(a,b);" ++ LF.

(** A commented-out call with a directive in the same comment. *)
Definition commented_document : string :=
  "// strcpy(a,b); DevSkim: ignore DS001" ++ LF.

Definition strcpy_edit (fixName text : string) : DevSkimAutoFixEdit :=
  {| edit_range := Range_create 0 0 0 6; fixName := Some fixName;
     text := text |}.

End Inputs2.

Module Inputs3.

Import Inputs Inputs2.

Definition strcpy_pattern : Pattern := substring_pattern "strcpy" ["code"].

(** The finding of [strcpy_rule] in [strcpy_document]. *)
Definition strcpy_finding : DevSkimProblem :=
  live_problem strcpy_document "c" strcpy_rule (mkMatch 0 "strcpy")
    [strcpy_edit "DevSkim: Change to strcpy_s" "strcpy_s";
     strcpy_edit "DevSkim: Change to strlcpy" "strlcpy"].

(** The marker on [DS001] in [commented_document], whose [strcpy] is
    at offset 3 and whose rule id is 29 columns further. *)
Definition commented_match : RegExpMatch := mkMatch 3 "strcpy".

Definition commented_marker : DevSkimProblem :=
  marker_problem commented_document strcpy_rule commented_match 29.

End Inputs3.

Module Inputs4.

Import Inputs.

(** A condition that asks for [unsafe] within the finding only, and a
    line on which [unsafe] stands after the finding. *)
Definition unsafe_condition : Condition :=
  {| cond_pattern := substring_pattern "unsafe" ["all"];
     search_in := Some "finding-only";
     negateFinding := Some false |}.

Definition unsafe_document : string := "strcpy(buf, src); // unsafe".

Definition unsafe_finding_range : Range := Range_create 0 0 0 6.

(** Scenario 6 of section 8: [open(] is reported unless [close(] comes
    within three lines after it. *)
Definition close_condition : Condition :=
  {| cond_pattern := substring_pattern "close(" ["all"];
     search_in := Some "finding-region(0,3)";
     negateFinding := Some true |}.

Definition open_rule : Rule :=
  {| id := "DS002"; name := "Unclosed file"; description := "open without close";
     recommendation := "Close the file"; ruleInfo := EmptyString; severity := "important";
     appliesTo := None; overrides := None;
     patterns := [substring_pattern "open(" ["all"]];
     conditions := Some [close_condition]; fixIts := None |}.

Definition open_worker : DevSkimWorker :=
  {| analysisRules := Some [open_rule]; dswSettings := settings |}.

Definition open_document : string :=
  "open(f)" ++ LF ++ "read(f)" ++ LF ++ "close(f)" ++ LF ++ "use(f)" ++ LF.

Definition open_finding_range : Range := Range_create 0 0 0 5.

(** A call broken over three lines, and a rule whose pattern is the
    whole call. *)
Definition memcpy_call : string :=
  "memcpy(d," ++ LF ++ "  s," ++ LF ++ "  n)".

Definition memcpy_rule : Rule :=
  {| id := "DS003"; name := "Unchecked copy"; description := "memcpy";
     recommendation := "Check the length"; ruleInfo := EmptyString; severity := "moderate";
     appliesTo := None; overrides := None;
     patterns := [substring_pattern memcpy_call ["all"]];
     conditions := None; fixIts := None |}.

Definition memcpy_worker : DevSkimWorker :=
  {| analysisRules := Some [memcpy_rule]; dswSettings := settings |}.

Definition memcpy_document : string := memcpy_call ++ ";" ++ LF.

Definition memcpy_match : RegExpMatch := mkMatch 0 memcpy_call.

(** A rule whose pattern matches the empty string. *)
Definition empty_rule : Rule :=
  {| id := "DS004"; name := "Empty"; description := "empty pattern";
     recommendation := EmptyString; ruleInfo := EmptyString; severity := "critical";
     appliesTo := None; overrides := None;
     patterns := [substring_pattern EmptyString ["all"]];
     conditions := None; fixIts := None |}.

Definition empty_worker : DevSkimWorker :=
  {| analysisRules := Some [empty_rule]; dswSettings := settings |}.

(** A rule whose pattern is the unbalanced regex [(]. *)
Definition unbalanced_rule : Rule :=
  {| id := "DS005"; name := "Unbalanced"; description := "malformed pattern";
     recommendation := EmptyString; ruleInfo := EmptyString; severity := "critical";
     appliesTo := None; overrides := None;
     patterns := [{| pat_pattern := "("; pat_type := "regex";
                     pat_modifiers := None; pat_scopes := ["all"] |}];
     conditions := None; fixIts := None |}.

Definition unbalanced_worker : DevSkimWorker :=
  {| analysisRules := Some [unbalanced_rule; Inputs2.strcpy_rule];
     dswSettings := settings |}.

End Inputs4.

Section Progress.

Context {engine : RegexEngine}.

(** Every match of [re] in [doc] lies inside the document, at or after
    the position the search started from, and is not empty. *)
Definition regex_advances (doc : string) (re : RegExp) : Prop :=
  ∀ pos m, XRegExp_exec doc re pos = Some m →
    0 ≤ index m ∧ pos ≤ index m ∧ 0 < len (matched m)
    ∧ index m + len (matched m) ≤ len doc.

(** The scan regexes of the patterns and conditions of a rule advance. *)
Definition rule_advances (doc : string) (rule : Rule) : Prop :=
  (∀ pat re, pat ∈ patterns rule → scan_regex pat = Some re →
     regex_advances doc re)
  ∧ (∀ c re, c ∈ default [] (conditions rule) →
       scan_regex (cond_pattern c) = Some re → regex_advances doc re).

(** Fuel that lets every loop over [doc] run to its end. *)
Definition enough_fuel (doc : string) : nat := S (S (String.length doc)).

End Progress.

Section FurtherDefinitions.

(** A problem with its [overrides] emptied, as [processOverrides] leaves
    the problems it has processed. *)
Definition emptied (p : DevSkimProblem) : DevSkimProblem := with_overrides p [].

End FurtherDefinitions.

Module Inputs5.

Import Inputs.

(** A finding of the generic MD5 rule on another line. *)
Definition generic_elsewhere : DevSkimProblem :=
  MakeProblem generic_md5 Critical (Range_create 1 0 1 3) None.

End Inputs5.

Section FurtherDefinitions2.

(** The label [recordCodeAction] gives a fix. *)
Definition fix_label (fix_ : DevSkimAutoFixEdit) (ruleID : string) : string :=
  match fixName fix_ with
  | Some n => if 0 <? len n then n else "Fix this " ++ ruleID ++ " problem"
  | None => "Fix this " ++ ruleID ++ " problem"
  end.

(** The worker with another rule set and the same settings. *)
Definition with_rules (this : DevSkimWorker) (rules : list Rule) : DevSkimWorker :=
  {| analysisRules := Some rules; dswSettings := dswSettings this |}.

(** The number of line breaks of [/(\r\n|\n|\r)/] in [s] when the
    character before [s] is a carriage return ([prevCR]) or not: a line
    feed right after a carriage return belongs to the same line break. *)
Fixpoint linebreaks_after (prevCR : bool) (s : string) : Z :=
  match s with
  | EmptyString => 0
  | String c s' =>
      if is_CR c then 1 + linebreaks_after true s'
      else if is_LF c then (if prevCR then 0 else 1) + linebreaks_after false s'
      else linebreaks_after false s'
  end.

(** Whether the text ends with a carriage return, [prevCR] telling it
    for the empty text. *)
Fixpoint ends_with_CR (prevCR : bool) (s : string) : bool :=
  match s with
  | EmptyString => prevCR
  | String c s' => ends_with_CR (is_CR c) s'
  end.

End FurtherDefinitions2.

Section LineBreakDefinitions.

(** Whether the text starts with a line feed. *)
Definition starts_with_LF (s : string) : bool :=
  match s with
  | String c _ => is_LF c
  | EmptyString => false
  end.

(** Whether the text holds neither a carriage return nor a line feed. *)
Fixpoint no_linebreak (s : string) : bool :=
  match s with
  | EmptyString => true
  | String c s' => negb (is_CR c) && negb (is_LF c) && no_linebreak s'
  end.

End LineBreakDefinitions.

Section CutDefinitions.

(** Whether the offset is between a carriage return and the line feed
    that follows it. *)
Definition inside_CRLF (documentContents : string) (offset : Z) : bool :=
  ends_with_CR false (substr documentContents 0 offset)
  && starts_with_LF (substr_from documentContents offset).

End CutDefinitions.

Module Inputs6.

Import Inputs.

(** A condition with no [search_in], and a finding on the second of
    three lines. *)
Definition plain_condition : Condition :=
  {| cond_pattern := substring_pattern "unsafe" ["all"];
     search_in := None;
     negateFinding := None |}.

Definition three_lines : string := "ab" ++ LF ++ "cd ef" ++ LF ++ "gh".

Definition cd_match : RegExpMatch := mkMatch 3 "cd".

End Inputs6.

Section NegationDefinitions.

(** The condition with the opposite [negateFinding], an absent one
    counting as [false] as in [MatchesConditions]. *)
Definition negated (condition : Condition) : Condition :=
  {| cond_pattern := cond_pattern condition;
     search_in := search_in condition;
     negateFinding := Some (negb (default false (negateFinding condition))) |}.

End NegationDefinitions.

Section OverrideDefinitions.

Context {engine : RegexEngine}.

(** The test of the inner loop of [processOverrides]: the rule id of
    [px] matches the alternation and [px] starts where [problem] is
    anchored. *)
Definition overridden_by (problem : DevSkimProblem) (regexString : string)
    (px : DevSkimProblem) : bool :=
  match String_match (ruleId px) regexString with
  | Some true =>
      (line (start (range px)) =? line (start (anchor problem)))
      && (character (start (range px)) =? character (start (anchor problem)))
  | _ => false
  end.

(** No two neighbours of the list both satisfy [f]. *)
Fixpoint no_two_adjacent {A : Type} (f : A → bool) (l : list A) : bool :=
  match l with
  | a :: t =>
      match t with
      | b :: _ => negb (f a && f b)
      | [] => true
      end && no_two_adjacent f t
  | [] => true
  end.

(** The alternation [override1|override2|...] the loop builds. *)
Definition alternation (first : string) (others : list string) : string :=
  fold_left (fun acc o => acc ++ "|" ++ o) others first.

End OverrideDefinitions.

(* ===================================================================== *)
(** * Properties *)
(* ===================================================================== *)

Section JsStringFacts.

Lemma lower_ascii_idem c : lower_ascii (lower_ascii c) = lower_ascii c.
Proof.
  unfold lower_ascii.
  destruct ((65 <=? nat_of_ascii c)%nat && (nat_of_ascii c <=? 90)%nat) eqn:E.
  - apply andb_prop in E as [E1 E2].
    apply Nat.leb_le in E1, E2.
    rewrite nat_ascii_embedding by lia.
    replace ((65 <=? nat_of_ascii c + 32)%nat
             && (nat_of_ascii c + 32 <=? 90)%nat) with false; [done|].
    symmetry. apply andb_false_iff. right. apply Nat.leb_gt. lia.
  - by rewrite E.
Qed.

(** Comparing the lower-cased kind with a lower-case constant is the
    comparison up to case. *)
Lemma eqb_toLowerCase a b :
  toLowerCase b = b →
  String.eqb (toLowerCase a) b = same_ignoring_case a b.
Proof.
  revert b. induction a as [|x a IH]; intros [|y b] Hb; simpl in *; try done.
  injection Hb as Hy Hb'.
  rewrite IH by done. by rewrite Hy.
Qed.

Lemma append_cons c (a b : string) : String c a ++ b = String c (a ++ b).
Proof. reflexivity. Qed.

Lemma append_empty_r (s : string) : s ++ EmptyString = s.
Proof.
  induction s as [|c s IH]; [reflexivity|].
  by rewrite append_cons, IH.
Qed.

Lemma append_assoc (a b c : string) : (a ++ b) ++ c = a ++ (b ++ c).
Proof.
  induction a as [|x a IH]; [reflexivity|].
  by rewrite !append_cons, IH.
Qed.

End JsStringFacts.

Section RegexBuilder.

Context {engine : RegexEngine}.

Lemma regexModifer_step_flag forXregExp acc modifier :
  regexModifer_step forXregExp acc modifier
  = acc ++ builder_flag forXregExp modifier.
Proof.
  unfold regexModifer_step, builder_flag.
  destruct (String.eqb modifier "d"), forXregExp; simpl;
    by rewrite ?append_empty_r.
Qed.

Lemma regexModifer_loop forXregExp mods acc :
  fold_left (regexModifer_step forXregExp) mods acc
  = acc ++ String.concat EmptyString (map (builder_flag forXregExp) mods).
Proof.
  revert acc. induction mods as [|m mods IH]; intros acc; simpl.
  - by rewrite append_empty_r.
  - rewrite IH, regexModifer_step_flag, append_assoc. f_equal.
    destruct mods as [|m' mods]; simpl; by rewrite ?append_empty_r.
Qed.

(** C9. [MakeRegex] hands [XRegExp] the source and the flags of the
    mapping of section 4.B: every modifier is copied as it is, except
    [d], which becomes [s] for XRegExp and is dropped otherwise; the
    source is the pattern for [regex] and any unknown kind, the pattern
    between two [\b] for [regex-word], the escaped pattern between two
    [\b] for [string], and the escaped pattern for [substring], the
    kind being compared up to case. *)
Theorem MakeRegex_builds_mapping
    (regexType pattern : string) (modifiers : option (list string))
    (forXregExp : bool) :
  MakeRegex regexType pattern modifiers forXregExp
  = XRegExp (builder_source regexType pattern)
            (builder_flags modifiers forXregExp).
Proof.
  unfold MakeRegex, builder_source, builder_flags.
  rewrite !eqb_toLowerCase by reflexivity.
  assert (match modifiers with
          | Some mods => fold_left (regexModifer_step forXregExp) mods EmptyString
          | None => EmptyString
          end
          = String.concat EmptyString (map (builder_flag forXregExp)
                                  (default [] modifiers))) as ->.
  { destruct modifiers as [mods|]; simpl; [|done].
    by rewrite regexModifer_loop. }
  by repeat case_match.
Qed.

End RegexBuilder.

Section CodeActions.

Context {collab : Collaborators}.

Lemma ordinal_key_inj (key : string) (x y : nat) :
  key ++ toString10 x = key ++ toString10 y → x = y.
Proof.
  intros H. apply (inj (String.app key)) in H.
  unfold toString10 in H. by apply (inj pretty) in H.
Qed.

(** The ordinal loop only reads the keys from its counter upwards. *)
Lemma recordCodeAction_ordinal_ext fuel (m1 m2 : gmap string AutoFix) key x :
  (∀ y, (x ≤ y)%nat → m1 !! (key ++ toString10 y) = m2 !! (key ++ toString10 y)) →
  recordCodeAction_ordinal fuel m1 key x = recordCodeAction_ordinal fuel m2 key x.
Proof.
  revert x. induction fuel as [|fuel IH]; intros x Hagree; simpl; [done|].
  rewrite <- (Hagree x) by lia.
  destruct (m1 !! (key ++ toString10 x)); [|done].
  apply IH. intros y Hy. apply Hagree. lia.
Qed.

(** With more fuel than the object has keys the loop stops, at the
    first ordinal from [x] on whose key is unused. *)
Lemma recordCodeAction_ordinal_finds fuel (edits : gmap string AutoFix) key x :
  (size edits < fuel)%nat →
  ∃ n, recordCodeAction_ordinal fuel edits key x = Returns n
       ∧ (x ≤ n)%nat
       ∧ edits !! (key ++ toString10 n) = None
       ∧ ∀ y, (x ≤ y < n)%nat → is_Some (edits !! (key ++ toString10 y)).
Proof.
  revert edits x. induction fuel as [|fuel IH]; intros edits x Hsize; [lia|].
  simpl. destruct (edits !! (key ++ toString10 x)) as [a|] eqn:Hx.
  - destruct (IH (delete (key ++ toString10 x) edits) (S x)) as (n & Hn & Hle & Hfree & Hused).
    { assert (size edits = S (size (delete (key ++ toString10 x) edits))) as Hs.
      { rewrite <- (insert_id edits _ _ Hx) at 1.
        rewrite <- insert_delete_eq.
        apply map_size_insert_None, lookup_delete_eq. }
      lia. }
    assert (Hother : ∀ y, (S x ≤ y)%nat →
              delete (key ++ toString10 x) edits !! (key ++ toString10 y)
              = edits !! (key ++ toString10 y)).
    { intros y Hy. apply lookup_delete_ne.
      intros Heq. apply ordinal_key_inj in Heq. lia. }
    exists n. split; [|split; [lia|split]].
    + rewrite <- Hn. symmetry. by apply recordCodeAction_ordinal_ext.
    + rewrite <- Hother by lia. done.
    + intros y Hy. destruct (decide (y = x)) as [->|Hne]; [eauto|].
      rewrite <- Hother by lia. apply Hused. lia.
  - exists x. split; [done|]. split; [lia|]. split; [done|]. intros y Hy. lia.
Qed.

(** C10. A call of [recordCodeAction] with no fix, or with no rule id
    or an empty one, returns the [codeActions] object as it was.  Any
    other call returns, and stores the fix under the given document at
    the key of [computeKey(range, diagnosticCode)] followed by the
    smallest ordinal whose key was unused; that is the only entry
    added, and every entry that was there is still there, unchanged. *)
Theorem recordCodeAction_frame
    (codeActions : gmap string (gmap string AutoFix))
    (documentURI : string) (documentVersion : Z) (range : Range)
    (diagnosticCode : DiagnosticCode) (fix_ : option DevSkimAutoFixEdit)
    (ruleID : option string) :
  let edits := default ∅ (codeActions !! documentURI) in
  let key := computeKey range diagnosticCode in
  match fix_, ruleID with
  | Some f, Some r =>
      if truthy r then
        ∃ (x : nat) (entry : AutoFix) (after : gmap string (gmap string AutoFix)),
          recordCodeAction codeActions documentURI documentVersion range
            diagnosticCode fix_ ruleID = Returns after
          ∧ after = <[documentURI := <[key ++ toString10 x := entry]> edits]> codeActions
          ∧ edit entry = f ∧ af_ruleId entry = r
          ∧ edits !! (key ++ toString10 x) = None
          ∧ (∀ y, (y < x)%nat → is_Some (edits !! (key ++ toString10 y)))
          ∧ (∀ uri m k a, codeActions !! uri = Some m → m !! k = Some a →
               ∃ m', after !! uri = Some m' ∧ m' !! k = Some a)
          ∧ (∀ uri m' k a, after !! uri = Some m' → m' !! k = Some a →
               (uri = documentURI ∧ k = key ++ toString10 x ∧ a = entry)
               ∨ (∃ m, codeActions !! uri = Some m ∧ m !! k = Some a))
      else recordCodeAction codeActions documentURI documentVersion range
             diagnosticCode fix_ ruleID = Returns codeActions
  | _, _ => recordCodeAction codeActions documentURI documentVersion range
              diagnosticCode fix_ ruleID = Returns codeActions
  end.
Proof.
  intros edits key. unfold recordCodeAction.
  destruct fix_ as [f|], ruleID as [r|]; try done.
  destruct (truthy r) eqn:Htruthy; [|done].
  destruct (recordCodeAction_ordinal_finds (S (size edits)) edits key 0)
    as (x & Hx & _ & Hfree & Hused); [lia|].
  set (entry := {| label := _; documentVersion := documentVersion;
                   af_ruleId := r; edit := f |}).
  exists x, entry,
    (<[documentURI := <[key ++ toString10 x := entry]> edits]> codeActions).
  assert (Hafter :
    ∀ uri m' k a,
      (<[documentURI := <[key ++ toString10 x := entry]> edits]> codeActions)
        !! uri = Some m' → m' !! k = Some a →
      (uri = documentURI ∧ k = key ++ toString10 x ∧ a = entry)
      ∨ (∃ m, codeActions !! uri = Some m ∧ m !! k = Some a)).
  { intros uri m' k a Hm' Hk.
    destruct (decide (uri = documentURI)) as [->|Hne].
    - rewrite lookup_insert_eq in Hm'. injection Hm' as <-.
      destruct (decide (k = key ++ toString10 x)) as [->|Hk'].
      + rewrite lookup_insert_eq in Hk. injection Hk as <-. by left.
      + rewrite lookup_insert_ne in Hk by done. right.
        subst edits. destruct (codeActions !! documentURI) as [m|]; simpl in *.
        * by exists m.
        * by rewrite lookup_empty in Hk.
    - rewrite lookup_insert_ne in Hm' by done. right. by exists m'. }
  assert (Hbefore :
    ∀ uri m k a, codeActions !! uri = Some m → m !! k = Some a →
      ∃ m', (<[documentURI := <[key ++ toString10 x := entry]> edits]>
               codeActions) !! uri = Some m' ∧ m' !! k = Some a).
  { intros uri m k a Hm Hk.
    destruct (decide (uri = documentURI)) as [->|Hne].
    - exists (<[key ++ toString10 x := entry]> edits).
      rewrite lookup_insert_eq. split; [done|].
      subst edits. rewrite Hm in *. simpl in *.
      rewrite lookup_insert_ne; [done|]. intros <-. congruence.
    - exists m. by rewrite lookup_insert_ne. }
  split; [|by repeat split; eauto using Nat.le_0_l with lia].
  subst edits key. destruct (codeActions !! documentURI) as [m|] eqn:Huri;
    simpl in *; rewrite Hx; simpl.
  - done.
  - by rewrite insert_insert_eq.
Qed.

End CodeActions.

Section OverrideResolution.

Import Inputs.

(** C1. On the three findings the rules [DS-java-md5], [DS-generic-md5]
    and [DS-weak-hash] leave at the same start, of which the first
    overrides the other two, [processOverrides] removes the second
    finding only: the finding of [DS-weak-hash] survives next to the
    finding that overrides it.  The same list is what [analyzeText]
    returns for the document [MD5]. *)
Theorem processOverrides_keeps_overridden_peer :
  processOverrides
    [md5_problem java_md5; md5_problem generic_md5; md5_problem weak_hash]
  = Returns [with_overrides (md5_problem java_md5) []; md5_problem weak_hash]
  ∧ overrides java_md5 = Some ["DS-generic-md5"; "DS-weak-hash"]
  ∧ ruleId (md5_problem weak_hash) = "DS-weak-hash"
  ∧ start (range (md5_problem weak_hash))
    = start (anchor (md5_problem java_md5))
  ∧ analyzeText 10 md5_worker md5_document "java" "A.java"
    = Returns [with_overrides (md5_problem java_md5) []; md5_problem weak_hash].
Proof. repeat split; vm_compute; reflexivity. Qed.

End OverrideResolution.

Section OutcomeFacts.

Context {A B : Type}.

Lemma bind_Returns (m : Outcome A) (k : A → Outcome B) (b : B) :
  (m ≫= k) = Returns b → ∃ a, m = Returns a ∧ k a = Returns b.
Proof. destruct m as [a| |]; simpl; intros H; try done. by exists a. Qed.

Lemma orThrow_Returns (o : option A) (a : A) :
  orThrow o = Returns a → o = Some a.
Proof. destruct o; simpl; congruence. Qed.

End OutcomeFacts.

Section RunAnalysisFacts.

Context {engine : RegexEngine} {collab : Collaborators}.

(** What one turn of the scan may push: nothing, the live problem of
    the match, or the marker of the directive that names the rule. *)
Lemma analyzeMatch_pushes bound doc langID rule pat m ps p :
  analyzeMatch bound doc langID rule (MapRuleSeverity (severity rule)) pat m
    = Returns ps →
  p ∈ ps →
  (showFinding (isFindingCommented (index m) doc (id rule)
                  (MapRuleSeverity (severity rule))) = false
   ∧ MatchIsInScope langID (match_prefix doc m) (match_newlineIndex doc m)
       (pat_scopes pat) = true
   ∧ ∃ made,
       MakeFixes rule (substr doc (index m) (len (matched m)))
         (match_range doc m) = Returns made
       ∧ p = live_problem doc langID rule m made)
  ∨ (∃ col, 0 < col ∧ p = marker_problem doc rule m col).
Proof.
  unfold analyzeMatch. intros H Hp.
  apply bind_Returns in H as (live & Hlive & H).
  destruct live.
  - left.
    destruct (negb (showFinding _) && MatchIsInScope _ _ _ _) eqn:Hgate;
      [|discriminate].
    apply andb_prop in Hgate as [Hshow Hscope].
    apply negb_true_iff in Hshow.
    apply bind_Returns in H as (made & Hmade & H).
    injection H as <-. apply list_elem_of_singleton in Hp as ->.
    split; [done|]. split; [done|]. exists made. split; [done|].
    reflexivity.
  - right.
    destruct (ruleColumn _) as [col|]; [|injection H as <-; by apply elem_of_nil in Hp].
    destruct (0 <? col) eqn:Hcol;
      [|injection H as <-; by apply elem_of_nil in Hp].
    injection H as <-. apply list_elem_of_singleton in Hp as ->.
    exists col. split; [by apply Z.ltb_lt|]. reflexivity.
Qed.

Lemma runAnalysis_scan_origin fuel bound doc langID rule pat re problems m0 out :
  runAnalysis_scan fuel bound doc langID rule
    (MapRuleSeverity (severity rule)) pat re problems m0 = Returns out →
  (∀ m, m0 = Some m → ∃ pos, XRegExp_exec doc re pos = Some m) →
  ∀ p, p ∈ out →
    p ∈ problems
    ∨ ∃ pos m ps,
        XRegExp_exec doc re pos = Some m
        ∧ analyzeMatch bound doc langID rule
            (MapRuleSeverity (severity rule)) pat m = Returns ps
        ∧ p ∈ ps.
Proof.
  revert problems m0.
  induction fuel as [|fuel IH]; intros problems m0 H Hm0 p Hp; [done|].
  simpl in H. destruct m0 as [mt|]; [|injection H as <-; by left].
  apply bind_Returns in H as (pushed & Hpushed & H).
  destruct (Hm0 mt eq_refl) as [pos Hpos].
  destruct (IH _ _ H) with (p := p) as [Hin|Hlater]; [|done| |].
  - intros m Hm. eauto.
  - unfold concat in Hin. apply elem_of_app in Hin as [Hin|Hin]; [by left|].
    right. by exists pos, mt, pushed.
  - by right.
Qed.

Lemma runAnalysis_patterns_origin fuel doc langID rule pats problems out :
  runAnalysis_patterns fuel doc langID rule (MapRuleSeverity (severity rule))
    pats problems = Returns out →
  ∀ p, p ∈ out →
    p ∈ problems
    ∨ ∃ pat re pos m ps,
        pat ∈ pats ∧ scan_regex pat = Some re
        ∧ XRegExp_exec doc re pos = Some m
        ∧ analyzeMatch fuel doc langID rule
            (MapRuleSeverity (severity rule)) pat m = Returns ps
        ∧ p ∈ ps.
Proof.
  revert problems.
  induction pats as [|pat pats IH]; intros problems H p Hp; simpl in H.
  - injection H as <-. by left.
  - apply bind_Returns in H as (re & Hre & H).
    apply orThrow_Returns in Hre.
    apply bind_Returns in H as (mid & Hmid & H).
    destruct (IH _ H p Hp) as [Hin|(pat' & re' & pos & m & ps & ? & ? & ? & ? & ?)].
    + destruct (runAnalysis_scan_origin _ _ _ _ _ _ _ _ _ _ Hmid) with (p := p)
        as [?|(pos & m & ps & ? & ? & ?)]; [eauto|done|by left|].
      right. exists pat, re, pos, m, ps. repeat split; try done. by left.
    + right. exists pat', re', pos, m, ps. repeat split; try done. by right.
Qed.

Lemma runAnalysis_rules_origin fuel this doc langID uri rules problems out :
  runAnalysis_rules fuel this doc langID uri rules problems = Returns out →
  ∀ p, p ∈ out →
    p ∈ problems
    ∨ ∃ rule pat re pos m ps,
        rule ∈ rules ∧ rule_enabled this langID uri rule = true
        ∧ pat ∈ patterns rule ∧ scan_regex pat = Some re
        ∧ XRegExp_exec doc re pos = Some m
        ∧ analyzeMatch fuel doc langID rule
            (MapRuleSeverity (severity rule)) pat m = Returns ps
        ∧ p ∈ ps.
Proof.
  revert problems.
  induction rules as [|rule rules IH]; intros problems H p Hp; simpl in H.
  - injection H as <-. by left.
  - apply bind_Returns in H as (mid & Hmid & H).
    destruct (IH _ H p Hp)
      as [Hin|(rule' & pat & re & pos & m & ps & ? & ? & ? & ? & ? & ? & ?)].
    + destruct (rule_enabled this langID uri rule) eqn:Hon.
      * destruct (runAnalysis_patterns_origin _ _ _ _ _ _ _ Hmid p Hin)
          as [?|(pat & re & pos & m & ps & ? & ? & ? & ? & ?)]; [by left|].
        right. exists rule, pat, re, pos, m, ps. repeat split; try done. by left.
      * injection Hmid as <-. by left.
    + right. exists rule', pat, re, pos, m, ps. repeat split; try done. by right.
Qed.

(** Every problem [runAnalysis] returns was pushed at a match of a
    pattern of an enabled rule. *)
Lemma runAnalysis_origin fuel this doc langID uri out p :
  runAnalysis fuel this doc langID uri = Returns out →
  p ∈ out →
  ∃ rule pat m ps,
    found this doc langID uri rule pat m
    ∧ analyzeMatch fuel doc langID rule (MapRuleSeverity (severity rule))
        pat m = Returns ps
    ∧ p ∈ ps.
Proof.
  unfold runAnalysis. intros H Hp.
  destruct (runAnalysis_rules_origin _ _ _ _ _ _ _ _ H p Hp)
    as [Hin|(rule & pat & re & pos & m & ps & ? & ? & ? & ? & ? & ? & ?)].
  - by apply elem_of_nil in Hin.
  - exists rule, pat, m, ps. split; [|done].
    repeat split; try done. by exists re, pos.
Qed.

End RunAnalysisFacts.

Section ProcessOverridesFacts.

Context {engine : RegexEngine}.

#[local] Instance resolved_refl : Reflexive resolved.
Proof. intros p. by left. Qed.

Lemma resolved_trans p q r : resolved p q → resolved q r → resolved p r.
Proof.
  intros [->| ->] [->| ->]; [by left|by right|by right|].
  right. reflexivity.
Qed.

(** A problem that still has overrides has them as it came. *)
Lemma resolved_overrides p q first others :
  resolved p q → prob_overrides q = first :: others →
  prob_overrides p = first :: others.
Proof. intros [->| ->]; simpl; [done|discriminate]. Qed.

(** The inner loop ends; what it returns is what is left of the array
    after its removals, and it raises only if a rule id cannot be
    matched against the alternation. *)
Lemma processOverrides_inner_spec fuel ps problem regexString x self flag :
  (length ps - x < fuel)%nat →
  match processOverrides_inner fuel ps problem regexString x self flag with
  | Returns (ps', self', flag') =>
      ps' `sublist_of` ps
      ∧ ((ps' = ps ∧ self' = self ∧ flag' = flag)
         ∨ (flag' = true ∧ (length ps' < length ps)%nat))
  | Throws => ∃ px, px ∈ ps ∧ String_match (ruleId px) regexString = None
  | OutOfFuel => False
  end.
Proof.
  revert ps x self flag.
  induction fuel as [|fuel IH]; intros ps x self flag Hfuel; [lia|].
  simpl. destruct (ps !! x) as [px|] eqn:Hx.
  - assert (x < length ps)%nat as Hlt by (by eapply lookup_lt_Some).
    destruct (String_match (ruleId px) regexString) as [matches|] eqn:Hm;
      simpl; [|by eauto using list_elem_of_lookup_2].
    destruct (matches && _ && _).
    + specialize (IH (delete x ps) (S x) (after_splice x self) true).
      assert (length (delete x ps) = length ps - 1)%nat as Hlen.
      { rewrite length_delete by eauto. done. }
      destruct (processOverrides_inner fuel (delete x ps) problem regexString
                  (S x) (after_splice x self) true)
        as [[[ps' self'] flag']| |]; [| |apply IH; lia].
      * destruct IH as [Hsub Hcase]; [lia|]. split.
        { etrans; [done|]. apply sublist_delete. }
        right. destruct Hcase as [(-> & _ & ->)|[-> Hless]]; split; try done; lia.
      * destruct IH as (py & Hpy & Hnone); [lia|].
        exists py. split; [|done]. by eapply list_elem_of_delete_inv.
    + apply IH. lia.
  - split; [done|]. by left.
Qed.

Lemma same_start (a b : Position) :
  (line a =? line b) && (character a =? character b) = true → a = b.
Proof.
  destruct a, b. simpl. intros H. apply andb_prop in H as [Hl Hc].
  apply Z.eqb_eq in Hl, Hc. by subst.
Qed.

Lemma elem_of_delete_other (l : list DevSkimProblem) x px q :
  l !! x = Some px → q ∈ l → q ≠ px → q ∈ delete x l.
Proof.
  intros Hx Hq Hne. apply list_elem_of_lookup in Hq as [k Hk].
  apply list_elem_of_lookup.
  destruct (decide (k < x)%nat) as [Hlt|Hge].
  - exists k. by rewrite list_lookup_delete_lt.
  - assert (k ≠ x) by (intros ->; congruence).
    exists (k - 1)%nat. rewrite list_lookup_delete_ge by lia.
    by replace (S (k - 1)) with k by lia.
Qed.

Lemma elem_of_alter_kept (ps : list DevSkimProblem) j q :
  q ∈ ps →
  ∃ q', q' ∈ alter (fun p => with_overrides p []) j ps ∧ resolved q q'.
Proof.
  intros Hq. apply list_elem_of_lookup in Hq as [k Hk].
  destruct (decide (j = k)) as [->|Hne].
  - exists (with_overrides q []). split; [|by right].
    apply list_elem_of_lookup. exists k.
    by rewrite list_lookup_alter_eq, Hk.
  - exists q. split; [|by left].
    apply list_elem_of_lookup. exists k. by rewrite list_lookup_alter_ne.
Qed.

Lemma resolved_anchor p q : resolved p q → anchor q = anchor p ∧ range q = range p.
Proof. by intros [->| ->]. Qed.

(** The inner loop keeps every problem that does not start where the
    overriding problem is anchored. *)
Lemma processOverrides_inner_keeps fuel ps problem regexString x self flag
    ps' self' flag' q :
  processOverrides_inner fuel ps problem regexString x self flag
    = Returns (ps', self', flag') →
  q ∈ ps →
  start (range q) ≠ start (anchor problem) →
  q ∈ ps'.
Proof.
  revert ps x self flag.
  induction fuel as [|fuel IH]; intros ps x self flag H Hq Hstart; [done|].
  cbn [processOverrides_inner] in H.
  destruct (ps !! x) as [px|] eqn:Hx; [|by simplify_eq].
  destruct (String_match (ruleId px) regexString) as [matches|]; [|done].
  cbn [orThrow mbind Outcome_bind] in H.
  destruct (matches && (line (start (range px)) =? line (start (anchor problem)))
            && (character (start (range px))
                =? character (start (anchor problem)))) eqn:Hsame.
  - eapply IH; [done| |done].
    eapply elem_of_delete_other; [done|done|].
    intros ->. apply Hstart.
    rewrite <- andb_assoc in Hsame. apply andb_prop in Hsame as [_ Hsame].
    by apply same_start.
  - by eapply IH.
Qed.

#[local] Arguments processOverrides_inner : simpl never.

Lemma elem_of_alter_clear (ps : list DevSkimProblem) j q :
  q ∈ alter (fun p => with_overrides p []) j ps →
  ∃ q0, q0 ∈ ps ∧ resolved q0 q.
Proof.
  intros Hq. apply list_elem_of_lookup in Hq as [k Hk].
  destruct (decide (j = k)) as [->|Hne].
  - rewrite list_lookup_alter_eq in Hk.
    destruct (ps !! k) as [q0|] eqn:Hq0; simplify_eq/=.
    exists q0. split; [by eapply list_elem_of_lookup_2|by right].
  - rewrite list_lookup_alter_ne in Hk by done.
    exists q. split; [by eapply list_elem_of_lookup_2|done].
Qed.

(** The outer loop ends.  What it returns are problems of the array it
    was given, some with their overrides emptied; when it removed
    nothing, it visited every problem and none has overrides left. *)
Lemma processOverrides_outer_spec fuel ps i flag :
  (length ps - i < fuel)%nat →
  match processOverrides_outer fuel ps i flag with
  | Returns (ps', flag') =>
      (∀ q, q ∈ ps' → ∃ q0, q0 ∈ ps ∧ resolved q0 q)
      ∧ ((flag' = flag ∧ length ps' = length ps)
         ∨ (flag' = true ∧ (length ps' < length ps)%nat))
      ∧ (flag' = false →
         (∀ j q, (j < i)%nat → ps !! j = Some q → no_overrides q) →
         ∀ q, q ∈ ps' → no_overrides q)
  | Throws =>
      ∃ q0 first others subject,
        q0 ∈ ps ∧ prob_overrides q0 = first :: others
        ∧ String_match subject
            (fold_left (fun acc o => acc ++ "|" ++ o) others first) = None
  | OutOfFuel => False
  end.
Proof.
  revert ps i flag.
  induction fuel as [|fuel IH]; intros ps i flag Hfuel; [lia|].
  simpl. destruct (ps !! i) as [problem|] eqn:Hi.
  - assert (i < length ps)%nat as Hlt by (by eapply lookup_lt_Some).
    destruct (prob_overrides problem) as [|first others] eqn:Hov.
    + specialize (IH ps (S i) flag).
      destruct (processOverrides_outer fuel ps (S i) flag)
        as [[ps' flag']| |]; [| |apply IH; lia].
      * destruct IH as (Horigin & Hcase & Hclear); [lia|].
        split; [done|]. split; [done|].
        intros Hflag Hbefore. apply Hclear; [done|].
        intros j q Hj Hq. destruct (decide (j = i)) as [->|Hne].
        -- by simplify_eq.
        -- apply (Hbefore j); [lia|done].
      * apply IH. lia.
    + pose proof (processOverrides_inner_spec (S (length ps)) ps problem
                    (fold_left (fun acc o => acc ++ "|" ++ o) others first)
                    0 (Some i) flag) as Hinner.
      destruct (processOverrides_inner _ ps problem _ 0 (Some i) flag)
        as [[[ps1 self1] flag1]| |]; simpl; [| |exfalso; apply Hinner; lia].
      * destruct Hinner as [Hsub Hcase1]; [lia|].
        set (ps2 := match self1 with
                    | Some j => alter (fun p => with_overrides p []) j ps1
                    | None => ps1
                    end).
        assert (length ps2 = length ps1) as Hlen2.
        { subst ps2. destruct self1; [apply length_alter|done]. }
        assert (Horigin2 : ∀ q, q ∈ ps2 → ∃ q0, q0 ∈ ps ∧ resolved q0 q).
        { intros q Hq. subst ps2. destruct self1 as [j|].
          - apply elem_of_alter_clear in Hq as (q0 & Hq0 & Hres).
            exists q0. split; [|done]. by eapply elem_of_sublist.
          - exists q. split; [|done]. by eapply elem_of_sublist. }
        specialize (IH ps2 (S i) flag1).
        destruct (processOverrides_outer fuel ps2 (S i) flag1)
          as [[ps' flag']| |].
        -- destruct IH as (Horigin & Hcase & Hclear).
           { destruct Hcase1 as [(-> & _ & _)|[_ ?]]; lia. }
           split.
           { intros q Hq. destruct (Horigin q Hq) as (q1 & Hq1 & Hres1).
             destruct (Horigin2 q1 Hq1) as (q0 & Hq0 & Hres0).
             exists q0. split; [done|]. by eapply resolved_trans. }
           split.
           { destruct Hcase1 as [(-> & _ & ->)|[-> Hless1]];
               destruct Hcase as [[-> Hsame]|[-> Hless]];
               try (left; split; [done|lia]); right; split; try done; lia. }
           intros Hflag Hbefore.
           assert (flag1 = false) as ->.
           { destruct Hcase as [[<- _]|[? _]]; congruence. }
           destruct Hcase1 as [(-> & -> & <-)|[? _]]; [|done].
           apply Hclear; [done|].
           intros j q Hj Hq. subst ps2. simpl in Hq.
           destruct (decide (j = i)) as [->|Hne].
           ++ rewrite list_lookup_alter_eq, Hi in Hq. by simplify_eq/=.
           ++ rewrite list_lookup_alter_ne in Hq by done.
              apply (Hbefore j); [lia|done].
        -- destruct IH as (q1 & f1 & o1 & subject & Hq1 & Hov1 & Hnone).
           { destruct Hcase1 as [(-> & _ & _)|[_ ?]]; lia. }
           destruct (Horigin2 q1 Hq1) as (q0 & Hq0 & Hres0).
           exists q0, f1, o1, subject. split; [done|]. split; [|done].
           by eapply resolved_overrides.
        -- apply IH. destruct Hcase1 as [(-> & _ & _)|[_ ?]]; lia.
      * destruct Hinner as (px & Hpx & Hnone); [lia|].
        exists problem, first, others, (ruleId px).
        split; [by eapply list_elem_of_lookup_2|]. done.
  - split; [intros q Hq; exists q; split; [done|by left]|].
    split; [by left|].
    intros _ Hbefore q Hq. apply list_elem_of_lookup in Hq as [j Hj].
    apply (Hbefore j); [|done].
    apply lookup_ge_None in Hi. apply lookup_lt_Some in Hj. lia.
Qed.

(** The outer loop keeps, possibly with its overrides emptied, every
    problem at whose start no overriding problem is anchored. *)
Lemma processOverrides_outer_keeps fuel ps i flag ps' flag' q :
  processOverrides_outer fuel ps i flag = Returns (ps', flag') →
  q ∈ ps →
  (∀ p, p ∈ ps → prob_overrides p ≠ [] →
     start (range q) ≠ start (anchor p)) →
  ∃ q', q' ∈ ps' ∧ resolved q q'.
Proof.
  revert ps i flag q.
  induction fuel as [|fuel IH]; intros ps i flag q H Hq Hfree; [done|].
  cbn [processOverrides_outer] in H.
  destruct (ps !! i) as [problem|] eqn:Hi;
    [|injection H as <- <-; by exists q].
  destruct (prob_overrides problem) as [|first others] eqn:Hov.
  { by eapply IH. }
  pose proof (processOverrides_inner_spec (S (length ps)) ps problem
                (fold_left (fun acc o => acc ++ "|" ++ o) others first)
                0 (Some i) flag) as Hinner.
  destruct (processOverrides_inner _ ps problem _ 0 (Some i) flag)
    as [[[ps1 self1] flag1]| |] eqn:Hrun; [|done|done].
  cbn [mbind Outcome_bind] in H.
  destruct Hinner as [Hsub _]; [lia|].
  assert (q ∈ ps1) as Hq1.
  { eapply processOverrides_inner_keeps; [done|done|].
    apply Hfree; [by eapply list_elem_of_lookup_2|]. by rewrite Hov. }
  set (ps2 := match self1 with
              | Some j => alter (fun p => with_overrides p []) j ps1
              | None => ps1
              end) in H.
  assert (∃ q2, q2 ∈ ps2 ∧ resolved q q2) as (q2 & Hq2 & Hres2).
  { subst ps2. destruct self1 as [j|]; [by apply elem_of_alter_kept|].
    by exists q. }
  destruct (IH ps2 (S i) flag1 q2 H Hq2) as (q' & Hq' & Hres').
  - intros p Hp Hnonempty.
    destruct (resolved_anchor _ _ Hres2) as [_ ->].
    assert (∃ p0, p0 ∈ ps ∧ resolved p0 p) as (p0 & Hp0 & Hres0).
    { subst ps2. destruct self1 as [j|].
      - apply elem_of_alter_clear in Hp as (p0 & Hp0 & Hres0).
        exists p0. split; [by eapply elem_of_sublist|done].
      - exists p. split; [by eapply elem_of_sublist|done]. }
    destruct (resolved_anchor _ _ Hres0) as [-> _].
    apply Hfree; [done|].
    destruct (prob_overrides p) as [|f o] eqn:Hp_ov; [done|].
    by rewrite (resolved_overrides _ _ _ _ Hres0 Hp_ov).
  - exists q'. split; [done|]. by eapply resolved_trans.
Qed.

#[local] Arguments processOverrides_outer : simpl never.

Lemma processOverrides_rec_spec fuel ps :
  (length ps < fuel)%nat →
  match processOverrides_rec fuel ps with
  | Returns out =>
      (∀ q, q ∈ out → ∃ q0, q0 ∈ ps ∧ resolved q0 q)
      ∧ (∀ q, q ∈ out → no_overrides q)
  | Throws =>
      ∃ q0 first others subject,
        q0 ∈ ps ∧ prob_overrides q0 = first :: others
        ∧ String_match subject
            (fold_left (fun acc o => acc ++ "|" ++ o) others first) = None
  | OutOfFuel => False
  end.
Proof.
  revert ps. induction fuel as [|fuel IH]; intros ps Hfuel; [lia|].
  simpl.
  pose proof (processOverrides_outer_spec (S (length ps)) ps 0 false) as Hout.
  destruct (processOverrides_outer _ ps 0 false) as [[ps1 flag1]| |]; simpl;
    [|apply Hout; lia|apply Hout; lia].
  destruct Hout as (Horigin1 & Hcase1 & Hclear1); [lia|].
  destruct flag1.
  - destruct Hcase1 as [[? _]|[_ Hless]]; [done|].
    specialize (IH ps1).
    destruct (processOverrides_rec fuel ps1) as [out| |].
    + destruct IH as [Horigin Hclear]; [lia|]. split; [|done].
      intros q Hq. destruct (Horigin q Hq) as (q1 & Hq1 & Hres1).
      destruct (Horigin1 q1 Hq1) as (q0 & Hq0 & Hres0).
      exists q0. split; [done|]. by eapply resolved_trans.
    + destruct IH as (q1 & f1 & o1 & subject & Hq1 & Hov1 & Hnone); [lia|].
      destruct (Horigin1 q1 Hq1) as (q0 & Hq0 & Hres0).
      exists q0, f1, o1, subject. split; [done|]. split; [|done].
      by eapply resolved_overrides.
    + apply IH. lia.
  - split; [done|]. apply Hclear1; [done|]. intros j q Hj. lia.
Qed.

Lemma processOverrides_rec_keeps fuel ps out q :
  processOverrides_rec fuel ps = Returns out →
  q ∈ ps →
  (∀ p, p ∈ ps → prob_overrides p ≠ [] →
     start (range q) ≠ start (anchor p)) →
  ∃ q', q' ∈ out ∧ resolved q q'.
Proof.
  revert ps q. induction fuel as [|fuel IH]; intros ps q H Hq Hfree; [done|].
  cbn [processOverrides_rec] in H.
  pose proof (processOverrides_outer_spec (S (length ps)) ps 0 false) as Hspec.
  destruct (processOverrides_outer _ ps 0 false) as [[ps1 flag1]| |] eqn:Hrun;
    [|done|done].
  cbn [mbind Outcome_bind] in H.
  destruct Hspec as (Horigin & _ & _); [lia|].
  destruct (processOverrides_outer_keeps _ _ _ _ _ _ _ Hrun Hq Hfree)
    as (q1 & Hq1 & Hres1).
  destruct flag1; [|injection H as <-; by exists q1].
  destruct (IH ps1 q1 H Hq1) as (q' & Hq' & Hres').
  - intros p Hp Hnonempty.
    destruct (resolved_anchor _ _ Hres1) as [_ ->].
    destruct (Horigin p Hp) as (p0 & Hp0 & Hres0).
    destruct (resolved_anchor _ _ Hres0) as [-> _].
    apply Hfree; [done|].
    destruct (prob_overrides p) as [|f o] eqn:Hp_ov; [done|].
    by rewrite (resolved_overrides _ _ _ _ Hres0 Hp_ov).
  - exists q'. split; [done|]. by eapply resolved_trans.
Qed.

(** X6. Findings at other positions are preserved: a problem at whose
    start no overriding problem is anchored is still there after
    [processOverrides], with at most its overrides emptied. *)
Lemma processOverrides_keeps_other_positions ps out q :
  processOverrides ps = Returns out →
  q ∈ ps →
  (∀ p, p ∈ ps → prob_overrides p ≠ [] →
     start (range q) ≠ start (anchor p)) →
  ∃ q', q' ∈ out ∧ resolved q q'.
Proof. apply processOverrides_rec_keeps. Qed.

(** [processOverrides] ends for every list of problems.  What it
    returns are problems of the list, none of which has overrides
    left; it raises only if the alternation of some problem's overrides
    is no regex. *)
Lemma processOverrides_spec ps :
  match processOverrides ps with
  | Returns out =>
      (∀ q, q ∈ out → ∃ q0, q0 ∈ ps ∧ resolved q0 q)
      ∧ (∀ q, q ∈ out → no_overrides q)
  | Throws =>
      ∃ q0 first others subject,
        q0 ∈ ps ∧ prob_overrides q0 = first :: others
        ∧ String_match subject
            (fold_left (fun acc o => acc ++ "|" ++ o) others first) = None
  | OutOfFuel => False
  end.
Proof. apply processOverrides_rec_spec. lia. Qed.

End ProcessOverridesFacts.

Section MakeFixesFacts.

Context {engine : RegexEngine}.

(** The loop of [MakeFixes] from index [count - 1] down to [0] returns
    the edits of the first [count] templates, last template first, and
    skips a template whose substitution fails; it raises when the regex
    of one of these templates cannot be constructed. *)
Lemma MakeFixes_from_spec count fs src r acc :
  (count ≤ length fs)%nat →
  match MakeFixes_from count fs src r acc with
  | Returns made =>
      made = (acc ++ omap (fix_edit src r) (reverse (take count fs)))%list
      ∧ Forall fix_builds (take count fs)
  | Throws => Exists (fun f => ¬ fix_builds f) (take count fs)
  | OutOfFuel => False
  end.
Proof.
  revert acc. induction count as [|n IH]; intros acc Hcount; simpl.
  - rewrite take_0. simpl. by rewrite app_nil_r.
  - destruct (fs !! n) as [f|] eqn:Hn;
      [|apply lookup_ge_None in Hn; lia].
    rewrite (take_S_r _ _ _ Hn), reverse_snoc. simpl.
    unfold fix_edit at 1 2.
    destruct (MakeRegex (pat_type (fix_pattern f)) (pat_pattern (fix_pattern f))
                (pat_modifiers (fix_pattern f)) false) as [re|] eqn:Hre; simpl.
    + assert (fix_builds f) as Hf by (unfold fix_builds; rewrite Hre; eauto).
      destruct (String_replace src re (fix_replacement f)) as [t|]; simpl.
      * specialize (IH (push acc {| edit_range := r;
                                    fixName := Some ("DevSkim: " ++ fix_name f);
                                    text := t |})).
        destruct (MakeFixes_from n fs src r _) as [made| |]; [| |apply IH; lia].
        -- destruct IH as [-> Hall]; [lia|]. split.
           ++ unfold push. by rewrite <- app_assoc.
           ++ apply Forall_app. split; [done|]. by constructor.
        -- apply Exists_app. left. apply IH. lia.
      * specialize (IH acc).
        destruct (MakeFixes_from n fs src r acc) as [made| |]; [| |apply IH; lia].
        -- destruct IH as [-> Hall]; [lia|]. split; [done|].
           apply Forall_app. split; [done|]. by constructor.
        -- apply Exists_app. left. apply IH. lia.
    + apply Exists_app. right. constructor.
      unfold fix_builds. rewrite Hre. by intros [? ?].
Qed.

Lemma MakeFixes_spec rule src r :
  match MakeFixes rule src r with
  | Returns made =>
      made = omap (fix_edit src r) (reverse (default [] (fixIts rule)))
      ∧ Forall fix_builds (default [] (fixIts rule))
  | Throws => Exists (fun f => ¬ fix_builds f) (default [] (fixIts rule))
  | OutOfFuel => False
  end.
Proof.
  unfold MakeFixes. destruct (fixIts rule) as [fs|]; simpl; [|by split].
  destruct fs as [|f fs]; [by split|].
  change (0 <? length (f :: fs))%nat with true. cbv iota.
  pose proof (MakeFixes_from_spec (length (f :: fs)) (f :: fs) src r []) as H.
  rewrite firstn_all in H.
  destruct (MakeFixes_from (length (f :: fs)) (f :: fs) src r []);
    apply H; lia.
Qed.

End MakeFixesFacts.

Section AnalyzeTextFacts.

Context {engine : RegexEngine} {collab : Collaborators}.

(** Every problem [analyzeText] returns was pushed by [runAnalysis] at
    a match of a pattern of an enabled rule, and passed through
    [processOverrides]. *)
Lemma analyzeText_origin fuel this doc langID uri out p :
  analyzeText fuel this doc langID uri = Returns out →
  p ∈ out →
  ∃ rule pat m ps q,
    found this doc langID uri rule pat m
    ∧ analyzeMatch fuel doc langID rule (MapRuleSeverity (severity rule))
        pat m = Returns ps
    ∧ q ∈ ps ∧ resolved q p.
Proof.
  unfold analyzeText. intros H Hp.
  destruct (analysisRules this) as [rules|] eqn:Hrules;
    [|injection H as <-; by apply elem_of_nil in Hp].
  destruct (ignoreFilesList (dswSettings this));
    [|injection H as <-; by apply elem_of_nil in Hp].
  destruct ((0 <? length rules)%nat && _);
    [|injection H as <-; by apply elem_of_nil in Hp].
  apply bind_Returns in H as (problems & Hrun & H).
  pose proof (processOverrides_spec problems) as Hspec.
  rewrite H in Hspec. destruct Hspec as [Horigin _].
  destruct (Horigin p Hp) as (q & Hq & Hres).
  destruct (runAnalysis_origin _ _ _ _ _ _ _ Hrun Hq)
    as (rule & pat & m & ps & Hfound & Hmatch & Hin).
  by exists rule, pat, m, ps, q.
Qed.

Lemma resolved_live q p :
  resolved q p → suppressedFindingRange p = suppressedFindingRange q.
Proof. by intros [->| ->]. Qed.

Lemma resolved_same q p :
  resolved q p →
  ruleId p = ruleId q ∧ range p = range q ∧ fixes p = fixes q
  ∧ prob_severity p = prob_severity q.
Proof. by intros [->| ->]. Qed.

(** C8, as amended.  Every live problem [analyzeText] returns (one
    that is no suppression marker) was pushed at a match that is in the
    scope of its pattern: when the scopes of the pattern are [code]
    alone, [IsFindingInComment] on the document up to the match says no,
    and when they are [comment] alone it says yes. *)
Theorem analyzeText_live_problems_in_scope fuel this doc langID uri out p :
  analyzeText fuel this doc langID uri = Returns out →
  p ∈ out →
  suppressedFindingRange p = None →
  ∃ rule pat m,
    found this doc langID uri rule pat m
    ∧ ruleId p = id rule
    ∧ range p = match_range doc m
    ∧ MatchIsInScope langID (match_prefix doc m) (match_newlineIndex doc m)
        (pat_scopes pat) = true
    ∧ (pat_scopes pat = ["code"] →
       SourceContext.IsFindingInComment langID (match_prefix doc m)
         (match_newlineIndex doc m) false = false)
    ∧ (pat_scopes pat = ["comment"] →
       SourceContext.IsFindingInComment langID (match_prefix doc m)
         (match_newlineIndex doc m) false = true).
Proof.
  intros H Hp Hlive.
  destruct (analyzeText_origin _ _ _ _ _ _ _ H Hp)
    as (rule & pat & m & ps & q & Hfound & Hmatch & Hq & Hres).
  rewrite (resolved_live _ _ Hres) in Hlive.
  destruct (resolved_same _ _ Hres) as (Hid & Hrange & _ & _).
  destruct (analyzeMatch_pushes _ _ _ _ _ _ _ _ Hmatch Hq)
    as [(_ & Hscope & made & _ & ->)|(col & _ & ->)]; [|discriminate].
  exists rule, pat, m. split; [done|]. split; [done|]. split; [done|].
  split; [done|].
  unfold MatchIsInScope in Hscope.
  split; intros Hscopes; rewrite Hscopes in Hscope; simpl in Hscope;
    destruct (SourceContext.IsFindingInComment _ _ _ _); done.
Qed.

(** C2, as amended.  The fixes of every live problem [analyzeText]
    returns are the edits of the rule's fix templates taken from the
    last template to the first, a template whose substitution fails
    being left out, followed by the actions of the suppression
    helper. *)
Theorem analyzeText_fixes_last_template_first fuel this doc langID uri out p :
  analyzeText fuel this doc langID uri = Returns out →
  p ∈ out →
  suppressedFindingRange p = None →
  ∃ rule pat m,
    found this doc langID uri rule pat m
    ∧ ruleId p = id rule
    ∧ range p = match_range doc m
    ∧ fixes p
      = (omap (fix_edit (substr doc (index m) (len (matched m)))
                 (match_range doc m))
           (reverse (default [] (fixIts rule)))
         ++ createActions (id rule) doc (index m)
              (GetLineNumber doc (index m)) langID
              (MapRuleSeverity (severity rule)))%list.
Proof.
  intros H Hp Hlive.
  destruct (analyzeText_origin _ _ _ _ _ _ _ H Hp)
    as (rule & pat & m & ps & q & Hfound & Hmatch & Hq & Hres).
  rewrite (resolved_live _ _ Hres) in Hlive.
  destruct (resolved_same _ _ Hres) as (Hid & Hrange & Hfixes & _).
  destruct (analyzeMatch_pushes _ _ _ _ _ _ _ _ Hmatch Hq)
    as [(_ & _ & made & Hmade & ->)|(col & _ & ->)]; [|discriminate].
  exists rule, pat, m. split; [done|]. split; [done|]. split; [done|].
  rewrite Hfixes. simpl.
  pose proof (MakeFixes_spec rule (substr doc (index m) (len (matched m)))
                (match_range doc m)) as Hspec.
  rewrite Hmade in Hspec. destruct Hspec as [-> _]. reflexivity.
Qed.

End AnalyzeTextFacts.

Section AnalyzeTextRuns.

Import Inputs Inputs2 Inputs3.

Lemma analyzeText_live_problems_in_scope_witness :
  analyzeText 10 strcpy_worker strcpy_document "c" "file.c"
    = Returns [strcpy_finding]
  ∧ strcpy_finding ∈ [strcpy_finding]
  ∧ suppressedFindingRange strcpy_finding = None
  ∧ ∃ rule pat m,
      found strcpy_worker strcpy_document "c" "file.c" rule pat m
      ∧ ruleId strcpy_finding = id rule
      ∧ range strcpy_finding = match_range strcpy_document m
      ∧ MatchIsInScope "c" (match_prefix strcpy_document m)
          (match_newlineIndex strcpy_document m) (pat_scopes pat) = true
      ∧ (pat_scopes pat = ["code"] →
         SourceContext.IsFindingInComment "c" (match_prefix strcpy_document m)
           (match_newlineIndex strcpy_document m) false = false)
      ∧ (pat_scopes pat = ["comment"] →
         SourceContext.IsFindingInComment "c" (match_prefix strcpy_document m)
           (match_newlineIndex strcpy_document m) false = true).
Proof.
  split; [vm_compute; reflexivity|].
  split; [apply list_elem_of_singleton; reflexivity|].
  split; [reflexivity|].
  apply (analyzeText_live_problems_in_scope 10 strcpy_worker strcpy_document
           "c" "file.c" [strcpy_finding] strcpy_finding).
  - vm_compute; reflexivity.
  - apply list_elem_of_singleton; reflexivity.
  - reflexivity.
Defined.

(** C8, the claim as stated fails: for the commented-out call
    [// strcpy(a,b); DevSkim: ignore DS001] the analysis returns the
    marker of the directive, pushed at the match of a pattern whose
    scopes are [code] alone, at an offset the comment oracle places
    inside a comment. *)
Lemma marker_pushed_inside_comment :
  analyzeText 10 strcpy_worker commented_document "c" "file.c"
    = Returns [commented_marker]
  ∧ found strcpy_worker commented_document "c" "file.c" strcpy_rule
      strcpy_pattern commented_match
  ∧ analyzeMatch 10 commented_document "c" strcpy_rule Critical
      strcpy_pattern commented_match = Returns [commented_marker]
  ∧ prob_severity commented_marker = WarningInfo
  ∧ pat_scopes strcpy_pattern = ["code"]
  ∧ SourceContext.IsFindingInComment "c"
      (match_prefix commented_document commented_match)
      (match_newlineIndex commented_document commented_match) false = true.
Proof.
  split; [vm_compute; reflexivity|].
  split.
  { split; [by left|]. split; [reflexivity|]. split; [by left|].
    by exists "strcpy", 0. }
  repeat split; vm_compute; reflexivity.
Qed.

Lemma analyzeText_fixes_last_template_first_witness :
  analyzeText 10 strcpy_worker strcpy_document "c" "file.c"
    = Returns [strcpy_finding]
  ∧ strcpy_finding ∈ [strcpy_finding]
  ∧ suppressedFindingRange strcpy_finding = None
  ∧ ∃ rule pat m,
      found strcpy_worker strcpy_document "c" "file.c" rule pat m
      ∧ ruleId strcpy_finding = id rule
      ∧ range strcpy_finding = match_range strcpy_document m
      ∧ fixes strcpy_finding
        = (omap (fix_edit (substr strcpy_document (index m) (len (matched m)))
                   (match_range strcpy_document m))
             (reverse (default [] (fixIts rule)))
           ++ createActions (id rule) strcpy_document (index m)
                (GetLineNumber strcpy_document (index m)) "c"
                (MapRuleSeverity (severity rule)))%list.
Proof.
  split; [vm_compute; reflexivity|].
  split; [apply list_elem_of_singleton; reflexivity|].
  split; [reflexivity|].
  apply (analyzeText_fixes_last_template_first 10 strcpy_worker
           strcpy_document "c" "file.c" [strcpy_finding] strcpy_finding).
  - vm_compute; reflexivity.
  - apply list_elem_of_singleton; reflexivity.
  - reflexivity.
Defined.

(** C2, the claim as stated fails: [strcpy_rule] lists the template
    for [strlcpy] first and the one for [strcpy_s] second, and the
    problem reported for [strcpy(a,b);] carries the edit for
    [strcpy_s] first. *)
Lemma fixes_not_in_author_order :
  analyzeText 10 strcpy_worker strcpy_document "c" "file.c"
    = Returns [strcpy_finding]
  ∧ suppressedFindingRange strcpy_finding = None
  ∧ fixIts strcpy_rule = Some [to_strlcpy; to_strcpy_s]
  ∧ omap (fix_edit "strcpy" (Range_create 0 0 0 6)) [to_strlcpy; to_strcpy_s]
    = [strcpy_edit "DevSkim: Change to strlcpy" "strlcpy";
       strcpy_edit "DevSkim: Change to strcpy_s" "strcpy_s"]
  ∧ fixes strcpy_finding
    = [strcpy_edit "DevSkim: Change to strcpy_s" "strcpy_s";
       strcpy_edit "DevSkim: Change to strlcpy" "strlcpy"]
  ∧ fixes strcpy_finding
    ≠ omap (fix_edit "strcpy" (Range_create 0 0 0 6)) [to_strlcpy; to_strcpy_s].
Proof.
  repeat split; try (vm_compute; reflexivity).
  vm_compute. discriminate.
Qed.

End AnalyzeTextRuns.

Section ConditionRegion.

Context {engine : RegexEngine}.

(** Any non-empty [search_in] selects the lines of the finding, whatever
    it spells. *)
Lemma condition_region_truthy condition doc findingRange s :
  search_in condition = Some s → truthy s = true →
  condition_region condition doc findingRange = finding_lines doc findingRange.
Proof. unfold condition_region. by intros -> ->. Qed.

Lemma falsy_is_empty s : truthy s = false → s = EmptyString.
Proof.
  unfold truthy. intros H. apply negb_false_iff in H.
  by apply String.eqb_eq in H.
Qed.

(** The only [search_in] that reaches the branches for [finding-only]
    and [finding-region] is the empty string, which is neither: the
    region is then the pair of line numbers the variables start with. *)
Lemma condition_region_falsy condition doc findingRange s :
  search_in condition = Some s → truthy s = false →
  condition_region condition doc findingRange
  = Returns (line (start findingRange), line (end_ findingRange)).
Proof.
  intros Hs Hfalsy. apply falsy_is_empty in Hfalsy as ->.
  unfold condition_region. by rewrite Hs.
Qed.

End ConditionRegion.

Section MatchRange.

Context {engine : RegexEngine}.

(** The range of a match ends as many lines below its start as the
    matched part of the document has line breaks. *)
Lemma match_range_lineEnd doc m :
  line (end_ (match_range doc m))
  = line (start (match_range doc m))
    + count_linebreaks (substr doc (index m) (len (matched m))).
Proof.
  unfold match_range, GetLineNumber. simpl.
  set (src := substr doc (index m) (len (matched m))).
  assert (substr src 0 (len src) = src) as ->; [|lia].
  unfold substr, len. simpl. rewrite Nat2Z.id.
  change (Z.to_nat 0) with 0%nat. clearbody src.
  induction src as [|c src IH]; [done|]. simpl. by rewrite IH.
Qed.

(** On one line, the range ends [match[0].length] columns after its
    start. *)
Lemma match_range_one_line doc m :
  count_linebreaks (substr doc (index m) (len (matched m))) = 0 →
  character (end_ (match_range doc m))
  = character (start (match_range doc m)) + len (matched m).
Proof.
  intros Hnone. pose proof (match_range_lineEnd doc m) as Hline.
  rewrite Hnone, Z.add_0_r in Hline.
  unfold match_range in *. simpl in *.
  apply Z.eqb_eq in Hline. rewrite Z.eqb_sym in Hline. by rewrite Hline.
Qed.

End MatchRange.

Section ConditionRuns.

Import Inputs Inputs4.

(** C3. For the condition [unsafe] with [search_in = "finding-only"] and
    the finding [strcpy] at columns 0 to 6 of
    [strcpy(buf, src); // unsafe], [MatchesConditions] looks from offset
    0 to offset 27, the end of the line, and is satisfied by the
    [unsafe] at offset 21, which lies outside the finding. *)
Theorem finding_only_scans_the_line :
  search_in unsafe_condition = Some "finding-only"
  ∧ condition_region unsafe_condition unsafe_document unsafe_finding_range
    = Returns (0, 27)
  ∧ scan_regex (cond_pattern unsafe_condition) = Some "unsafe"
  ∧ XRegExp_exec unsafe_document ("unsafe" : RegExp) 0
    = Some (mkMatch 21 "unsafe")
  ∧ character (end_ unsafe_finding_range) < 21
  ∧ MatchesConditions 10 (Some [unsafe_condition]) unsafe_document
      unsafe_finding_range "c" = Returns true.
Proof. repeat split; vm_compute; reflexivity. Qed.

(** C4. Scenario 6 of section 8: for the condition [close(] with
    [search_in = "finding-region(0,3)"] and the finding [open(] on line
    0, [MatchesConditions] looks from offset 0 to offset 8, the start of
    line 1, and not to offset 32, the start of line 4; the [close(] at
    offset 16 is past the region, the negated condition holds, and
    [analyzeText] reports [open(].  The branch that reads the two
    numbers is not reached; the sum it would form for the end line,
    [0 + "3" + 1], is the text [031]. *)
Theorem finding_region_scans_the_line :
  search_in close_condition = Some "finding-region(0,3)"
  ∧ regionRegex_exec "finding-region(0,3)" = Some ("0", "3")
  ∧ condition_region close_condition open_document open_finding_range
    = Returns (0, 8)
  ∧ GetDocumentPosition open_document
      (Num (line (end_ open_finding_range) + 3 + 1)) = Returns 32
  ∧ ToNumber (number_plus_string (line (end_ open_finding_range)) "3" ++ "1")
    = Num 31
  ∧ XRegExp_exec open_document ("close(" : RegExp) 0
    = Some (mkMatch 16 "close(")
  ∧ MatchesConditions 10 (Some [close_condition]) open_document
      open_finding_range "c" = Returns true
  ∧ analyzeText 10 open_worker open_document "c" "file.c"
    = Returns [MakeProblem open_rule Important open_finding_range None].
Proof. repeat split; vm_compute; reflexivity. Qed.

(** C6. For the match of a call broken over three lines, 19 characters
    long with its newlines at offsets 9 and 14, [runAnalysis] ends the
    range on line 2, two lines below its start, at column 9: the length
    minus the offset of the first newline minus one.  With the last
    newline the column is 4, the length of the last line. *)
Theorem multiline_columnEnd_from_first_newline :
  match_range memcpy_document memcpy_match = Range_create 0 0 2 9
  ∧ count_linebreaks (matched memcpy_match) = 2
  ∧ len (matched memcpy_match) = 19
  ∧ indexOf (matched memcpy_match) LF = 9
  ∧ lastIndexOf (matched memcpy_match) LF = 14
  ∧ len (matched memcpy_match) - lastIndexOf (matched memcpy_match) LF - 1 = 4
  ∧ analyzeText 10 memcpy_worker memcpy_document "c" "file.c"
    = Returns [MakeProblem memcpy_rule Moderate (Range_create 0 0 2 9) None].
Proof. repeat split; vm_compute; reflexivity. Qed.

End ConditionRuns.

Section ScanProgress.

Context {engine : RegexEngine} {collab : Collaborators}.

(** C7. When the pattern matches the empty string at the cursor, the
    scan loop of [runAnalysis] never runs to its end: the cursor moves
    to [match.index + 0], the next [XRegExp.exec] finds the same match,
    and no amount of fuel makes the loop return. *)
Theorem runAnalysis_scan_zero_width_spins
    (doc langID : string) (rule : Rule) (ruleSeverity : DevskimRuleSeverity)
    (pat : Pattern) (matchPattern : RegExp) (m : RegExpMatch) :
  len (matched m) = 0 →
  XRegExp_exec doc matchPattern (index m) = Some m →
  ∀ fuel bound problems out,
    runAnalysis_scan fuel bound doc langID rule ruleSeverity pat matchPattern
      problems (Some m) ≠ Returns out.
Proof.
  intros Hwidth Hagain fuel bound.
  induction fuel as [|fuel IH]; intros problems out; simpl; [done|].
  destruct (analyzeMatch bound doc langID rule ruleSeverity pat m)
    as [pushed| |]; simpl; [|done|done].
  rewrite Hwidth, Z.add_0_r, Hagain. apply IH.
Qed.

End ScanProgress.

Section ScanRuns.

Import Inputs Inputs4.

Lemma runAnalysis_scan_zero_width_spins_witness :
  len (matched (mkMatch 0 EmptyString)) = 0
  ∧ XRegExp_exec "a" (EmptyString : RegExp) (index (mkMatch 0 EmptyString))
    = Some (mkMatch 0 EmptyString)
  ∧ (∀ fuel bound problems out,
       runAnalysis_scan fuel bound "a" "c" empty_rule Critical
         (substring_pattern EmptyString ["all"]) (EmptyString : RegExp) problems
         (Some (mkMatch 0 EmptyString)) ≠ Returns out)
  ∧ ∀ fuel out, analyzeText fuel empty_worker "a" "c" "file.c" ≠ Returns out.
Proof.
  assert (∀ fuel bound problems out,
            runAnalysis_scan fuel bound "a" "c" empty_rule Critical
              (substring_pattern EmptyString ["all"]) (EmptyString : RegExp)
              problems (Some (mkMatch 0 EmptyString)) ≠ Returns out) as Hspin.
  { apply (@runAnalysis_scan_zero_width_spins Literal.engine Host.collab
             "a" "c" empty_rule Critical (substring_pattern EmptyString ["all"])
             EmptyString (mkMatch 0 EmptyString));
      reflexivity. }
  split; [reflexivity|]. split; [reflexivity|]. split; [exact Hspin|].
  intros fuel out Hrun.
  apply bind_Returns in Hrun as (problems & Hrun & _).
  apply bind_Returns in Hrun as (found_ & Hrun & _).
  apply bind_Returns in Hrun as (re & Hre & Hrun).
  vm_compute in Hre. injection Hre as <-.
  apply bind_Returns in Hrun as (scanned & Hrun & _).
  exact (Hspin fuel fuel [] scanned Hrun).
Defined.

End ScanRuns.

Section NoException.

Context {engine : RegexEngine} {collab : Collaborators}.

Lemma bind_not_Throws {A B : Type} (m : Outcome A) (k : A → Outcome B) :
  m ≠ Throws → (∀ a, m = Returns a → k a ≠ Throws) → (m ≫= k) ≠ Throws.
Proof. destruct m as [a| |]; simpl; intros Hm Hk; try done. by apply Hk. Qed.

Lemma GetDocumentPosition_loop_no_throw fuel doc lineNumber line_ m :
  GetDocumentPosition_loop fuel doc lineNumber line_ m ≠ Throws.
Proof.
  revert line_ m. induction fuel as [|fuel IH]; intros line_ m; simpl; [done|].
  destruct m as [mt|]; [|done].
  destruct (number_eq (line_ + 1) lineNumber); [done|apply IH].
Qed.

Lemma GetDocumentPosition_no_throw doc lineNumber :
  GetDocumentPosition doc lineNumber ≠ Throws.
Proof.
  unfold GetDocumentPosition. destruct (number_lt lineNumber 1); [done|].
  apply GetDocumentPosition_loop_no_throw.
Qed.

Lemma condition_region_no_throw condition doc findingRange :
  condition_region condition doc findingRange ≠ Throws.
Proof.
  unfold condition_region.
  repeat first
    [ done
    | apply GetDocumentPosition_no_throw
    | apply bind_not_Throws; [|intros ? _]
    | case_match ].
Qed.

Lemma MatchesConditions_scan_no_throw fuel doc langID scopes re endPos negate m :
  MatchesConditions_scan fuel doc langID scopes re endPos negate m ≠ Throws.
Proof.
  revert m. induction fuel as [|fuel IH]; intros m; simpl; [done|].
  destruct m as [mt|]; [|done].
  repeat case_match; try done; apply IH.
Qed.

Lemma MatchesConditions_each_no_throw fuel conds doc findingRange langID :
  Forall (fun c => is_Some (scan_regex (cond_pattern c))) conds →
  MatchesConditions_each fuel conds doc findingRange langID ≠ Throws.
Proof.
  induction 1 as [|c conds [re Hre] Hrest IH]; simpl; [done|].
  unfold scan_regex in Hre. rewrite Hre. simpl.
  apply bind_not_Throws; [apply condition_region_no_throw|].
  intros [startPos endPos] _.
  apply bind_not_Throws; [apply MatchesConditions_scan_no_throw|].
  intros exit _. destruct exit as [|foundPattern]; [done|].
  by case_match.
Qed.

Lemma MakeFixes_no_throw rule src r :
  Forall fix_builds (default [] (fixIts rule)) →
  MakeFixes rule src r ≠ Throws.
Proof.
  intros Hall Hthrows. pose proof (MakeFixes_spec rule src r) as Hspec.
  rewrite Hthrows in Hspec. apply Exists_exists in Hspec as (f & Hf & Hno).
  rewrite Forall_forall in Hall. by apply Hno, Hall.
Qed.

Lemma analyzeMatch_no_throw bound doc langID rule ruleSeverity pat m :
  rule_builds rule →
  analyzeMatch bound doc langID rule ruleSeverity pat m ≠ Throws.
Proof.
  intros (_ & Hconds & Hfixes & _). unfold analyzeMatch.
  apply bind_not_Throws.
  - case_match; [|done]. simpl. by apply MatchesConditions_each_no_throw.
  - intros live _. destruct live.
    + apply bind_not_Throws; [by apply MakeFixes_no_throw|done].
    + by repeat case_match.
Qed.

Lemma runAnalysis_scan_no_throw fuel bound doc langID rule ruleSeverity pat re
    problems m :
  rule_builds rule →
  runAnalysis_scan fuel bound doc langID rule ruleSeverity pat re problems m
  ≠ Throws.
Proof.
  intros Hrule. revert problems m.
  induction fuel as [|fuel IH]; intros problems m; simpl; [done|].
  destruct m as [mt|]; [|done].
  apply bind_not_Throws; [by apply analyzeMatch_no_throw|].
  intros pushed _. apply IH.
Qed.

Lemma runAnalysis_patterns_no_throw fuel doc langID rule ruleSeverity pats
    problems :
  rule_builds rule →
  Forall (fun pat => is_Some (scan_regex pat)) pats →
  runAnalysis_patterns fuel doc langID rule ruleSeverity pats problems ≠ Throws.
Proof.
  intros Hrule Hpats. revert problems.
  induction Hpats as [|pat pats [re Hre] Hrest IH]; intros problems; simpl;
    [done|].
  unfold scan_regex in Hre. rewrite Hre. simpl.
  apply bind_not_Throws; [by apply runAnalysis_scan_no_throw|].
  intros mid _. apply IH.
Qed.

Lemma runAnalysis_rules_no_throw fuel this doc langID uri rules problems :
  Forall rule_builds rules →
  runAnalysis_rules fuel this doc langID uri rules problems ≠ Throws.
Proof.
  intros Hrules. revert problems.
  induction Hrules as [|rule rules Hrule Hrest IH]; intros problems; simpl;
    [done|].
  apply bind_not_Throws.
  - case_match; [|done].
    apply runAnalysis_patterns_no_throw; [done|]. apply Hrule.
  - intros mid _. apply IH.
Qed.

(** The overrides of a pushed problem are those of its rule. *)
Lemma analyzeMatch_overrides bound doc langID rule pat m ps p first others :
  analyzeMatch bound doc langID rule (MapRuleSeverity (severity rule)) pat m
    = Returns ps →
  p ∈ ps →
  prob_overrides p = first :: others →
  overrides rule = Some (first :: others).
Proof.
  intros H Hp Hov.
  destruct (analyzeMatch_pushes _ _ _ _ _ _ _ _ H Hp)
    as [(_ & _ & made & _ & ->)|(col & _ & ->)];
    simpl in Hov; destruct (overrides rule) as [[|o os]|]; simpl in Hov;
    congruence.
Qed.

(** With every regex of the rule set constructible, no exception leaves
    [analyzeText]. *)
Lemma analyzeText_no_throw fuel this doc langID uri :
  Forall rule_builds (default [] (analysisRules this)) →
  analyzeText fuel this doc langID uri ≠ Throws.
Proof.
  intros Hrules. unfold analyzeText.
  destruct (analysisRules this) as [rules|] eqn:Hr; [|done].
  destruct (ignoreFilesList (dswSettings this)); [|done].
  case_match; [|done].
  apply bind_not_Throws.
  - unfold runAnalysis. rewrite Hr. by apply runAnalysis_rules_no_throw.
  - intros problems Hrun Hthrows.
    pose proof (processOverrides_spec problems) as Hspec.
    rewrite Hthrows in Hspec.
    destruct Hspec as (q0 & first & others & subject & Hq0 & Hov & Hnone).
    destruct (runAnalysis_origin _ _ _ _ _ _ _ Hrun Hq0)
      as (rule & pat & m & ps & (Hin & _) & Hmatch & Hps).
    pose proof (analyzeMatch_overrides _ _ _ _ _ _ _ _ _ _ Hmatch Hps Hov)
      as Hrule.
    rewrite Hr in Hin. rewrite Forall_forall in Hrules.
    destruct (Hrules rule Hin) as (_ & _ & _ & Hbuilds).
    destruct (Hbuilds first others subject Hrule) as [b Hb]. congruence.
Qed.

(** With the regexes of its templates constructible, [MakeFixes] returns
    the edits of the templates whose substitution succeeds. *)
Lemma MakeFixes_returns rule src r :
  Forall fix_builds (default [] (fixIts rule)) →
  MakeFixes rule src r
  = Returns (omap (fix_edit src r) (reverse (default [] (fixIts rule)))).
Proof.
  intros Hfixes. pose proof (MakeFixes_spec rule src r) as Hspec.
  destruct (MakeFixes rule src r) as [made| |] eqn:Hmade; [|exfalso|done].
  - by destruct Hspec as [-> _].
  - by eapply MakeFixes_no_throw.
Qed.

End NoException.



Section CodeActionRuns.

Import Inputs2.

Lemma recordCodeAction_frame_witness :
  ∃ (x : nat) (entry : AutoFix) (after : gmap string (gmap string AutoFix)),
    recordCodeAction ∅ "file.c" 1 (Range_create 0 0 0 6) (CodeString "DS001")
      (Some (strcpy_edit "DevSkim: Change to strlcpy" "strlcpy"))
      (Some "DS001") = Returns after
    ∧ after
      = <["file.c" :=
           <[computeKey (Range_create 0 0 0 6) (CodeString "DS001")
             ++ toString10 x := entry]> ∅]> ∅
    ∧ edit entry = strcpy_edit "DevSkim: Change to strlcpy" "strlcpy"
    ∧ af_ruleId entry = "DS001"
    ∧ (∅ : gmap string AutoFix)
        !! (computeKey (Range_create 0 0 0 6) (CodeString "DS001")
            ++ toString10 x) = None
    ∧ (∀ y, (y < x)%nat →
         is_Some ((∅ : gmap string AutoFix)
                    !! (computeKey (Range_create 0 0 0 6) (CodeString "DS001")
                        ++ toString10 y)))
    ∧ (∀ uri m k a,
         (∅ : gmap string (gmap string AutoFix)) !! uri = Some m →
         m !! k = Some a → ∃ m', after !! uri = Some m' ∧ m' !! k = Some a)
    ∧ (∀ uri m' k a, after !! uri = Some m' → m' !! k = Some a →
         (uri = "file.c"
          ∧ k = computeKey (Range_create 0 0 0 6) (CodeString "DS001")
                ++ toString10 x
          ∧ a = entry)
         ∨ (∃ m, (∅ : gmap string (gmap string AutoFix)) !! uri = Some m
                 ∧ m !! k = Some a)).
Proof.
  exact (recordCodeAction_frame ∅ "file.c" 1 (Range_create 0 0 0 6)
           (CodeString "DS001")
           (Some (strcpy_edit "DevSkim: Change to strlcpy" "strlcpy"))
           (Some "DS001")).
Defined.

End CodeActionRuns.

Section Termination.

Context {engine : RegexEngine} {collab : Collaborators}.

Lemma len_cons c s : len (String c s) = 1 + len s.
Proof. unfold len. simpl. lia. Qed.

Lemma len_nonneg s : 0 ≤ len s.
Proof. unfold len. lia. Qed.

Lemma linebreak_exec_at_bounds s off pos m :
  linebreak_exec_at s off pos = Some m →
  off ≤ index m ∧ 1 ≤ len (matched m)
  ∧ index m + len (matched m) ≤ off + len s.
Proof.
  revert off. induction s as [|c s IH]; intros off H; simpl in H; [done|].
  rewrite len_cons. pose proof (len_nonneg s).
  destruct (off <? pos).
  { apply IH in H. lia. }
  destruct (is_CR c).
  { destruct s as [|c' s'].
    - injection H as <-. simpl. vm_compute (len CR). lia.
    - rewrite len_cons in *. pose proof (len_nonneg s').
      destruct (is_LF c'); injection H as <-; simpl.
      + vm_compute (len (CR ++ LF)). lia.
      + vm_compute (len CR). lia. }
  destruct (is_LF c).
  { injection H as <-. simpl. vm_compute (len LF). lia. }
  apply IH in H. lia.
Qed.

(** The loop of [GetDocumentPosition] ends within one turn per
    character that is left. *)
Lemma GetDocumentPosition_loop_ends fuel doc lineNumber line_ m :
  (0 < fuel)%nat →
  (∀ mt, m = Some mt →
     1 ≤ len (matched mt) ∧ index mt + len (matched mt) ≤ len doc
     ∧ len doc - index mt < Z.of_nat fuel) →
  GetDocumentPosition_loop fuel doc lineNumber line_ m ≠ OutOfFuel.
Proof.
  revert line_ m. induction fuel as [|fuel IH]; intros line_ m Hpos Hm; [lia|].
  simpl. destruct m as [mt|]; [|done].
  destruct (Hm mt eq_refl) as (Hlen & Hend & Hfuel).
  destruct (number_eq (line_ + 1) lineNumber); [done|].
  apply IH; [lia|].
  intros mt' Hnext. unfold linebreak_exec in Hnext.
  destruct (linebreak_exec_at doc 0 (index mt + len (matched mt))) as [mt''|] eqn:Hat;
    [|done].
  injection Hnext as ->.
  pose proof (linebreak_exec_at_bounds _ _ _ _ Hat) as (Hoff & Hlen' & Hend').
  assert (index mt + len (matched mt) ≤ index mt') as Hafter.
  { clear -Hat. revert Hat. generalize 0 at 1.
    induction doc as [|c s IHs]; intros off Hat; simpl in Hat; [done|].
    destruct (off <? index mt + len (matched mt)) eqn:Hlt.
    - by eapply IHs.
    - apply Z.ltb_ge in Hlt.
      assert (off ≤ index mt') as Hle; [|lia].
      destruct (is_CR c).
      { destruct s as [|c' s']; [by injection Hat as <-|].
        destruct (is_LF c'); by injection Hat as <-. }
      destruct (is_LF c); [by injection Hat as <-|].
      apply linebreak_exec_at_bounds in Hat. lia. }
  lia.
Qed.

Lemma GetDocumentPosition_returns doc lineNumber :
  ∃ position, GetDocumentPosition doc lineNumber = Returns position.
Proof.
  assert (GetDocumentPosition doc lineNumber ≠ OutOfFuel) as Hfuel.
  { unfold GetDocumentPosition. destruct (number_lt lineNumber 1); [done|].
    apply GetDocumentPosition_loop_ends; [lia|].
    intros mt Hmt. unfold linebreak_exec in Hmt.
    apply linebreak_exec_at_bounds in Hmt. unfold len in *. lia. }
  pose proof (GetDocumentPosition_no_throw doc lineNumber) as Hthrow.
  destruct (GetDocumentPosition doc lineNumber) as [position| |]; [|done|done].
  by exists position.
Qed.

Lemma condition_region_returns condition doc findingRange :
  ∃ region, condition_region condition doc findingRange = Returns region.
Proof.
  unfold condition_region.
  destruct (GetDocumentPosition_returns doc (Num (line (start findingRange))))
    as [p1 H1].
  destruct (GetDocumentPosition_returns doc (Num (line (end_ findingRange) + 1)))
    as [p2 H2].
  destruct (GetDocumentPosition_returns doc (Num (line (end_ findingRange))))
    as [p3 H3].
  destruct (search_in condition) as [s|]; [|rewrite H1, H2; simpl; eauto].
  destruct (truthy s); [rewrite H1, H2; simpl; eauto|].
  destruct (String.eqb s "finding-only"); [rewrite H1, H3; simpl; eauto|].
  destruct (regionRegex_exec s) as [[g1 g2]|]; [|eauto].
  destruct (GetDocumentPosition_returns doc
              (ToNumber (number_plus_string (line (start findingRange)) g1)))
    as [p4 H4].
  destruct (GetDocumentPosition_returns doc
              (ToNumber (number_plus_string (line (end_ findingRange)) g2 ++ "1")))
    as [p5 H5].
  rewrite H4, H5. simpl. eauto.
Qed.

(** A scan with a regex that advances ends within one turn per character
    that is left after the match in hand. *)
Lemma MatchesConditions_scan_ends fuel doc langID scopes re endPos negate m :
  regex_advances doc re →
  (0 < fuel)%nat →
  (∀ mt, m = Some mt →
     0 < len (matched mt) ∧ index mt + len (matched mt) ≤ len doc
     ∧ len doc - index mt < Z.of_nat fuel) →
  MatchesConditions_scan fuel doc langID scopes re endPos negate m ≠ OutOfFuel.
Proof.
  intros Hadv. revert m.
  induction fuel as [|fuel IH]; intros m Hpos Hm; [lia|].
  simpl. destruct m as [mt|]; [|done].
  destruct (Hm mt eq_refl) as (Hlen & Hend & Hfuel).
  repeat case_match; try done.
  apply IH; [lia|].
  intros mt' Hnext. apply Hadv in Hnext as (? & ? & ? & ?). lia.
Qed.

Lemma first_match_fuel doc re pos mt :
  regex_advances doc re →
  XRegExp_exec doc re pos = Some mt →
  0 < len (matched mt) ∧ index mt + len (matched mt) ≤ len doc
  ∧ len doc - index mt < Z.of_nat (enough_fuel doc).
Proof.
  intros Hadv Hmt. apply Hadv in Hmt as (? & ? & ? & ?).
  unfold enough_fuel, len in *. lia.
Qed.

Lemma MatchesConditions_each_ends conds doc findingRange langID :
  (∀ c re, c ∈ conds → scan_regex (cond_pattern c) = Some re →
     regex_advances doc re) →
  MatchesConditions_each (enough_fuel doc) conds doc findingRange langID
  ≠ OutOfFuel.
Proof.
  induction conds as [|c conds IH]; intros Hadv; [done|].
  cbn [MatchesConditions_each].
  destruct (MakeRegex _ _ _ true) as [re|] eqn:Hre; [|done].
  assert (regex_advances doc re) as Hre_adv.
  { apply (Hadv c re); [by left|done]. }
  change (orThrow (Some re)) with (Returns re). cbn [mbind Outcome_bind].
  destruct (condition_region_returns c doc findingRange)
    as [[startPos endPos] ->].
  cbn [mbind Outcome_bind].
  pose proof (MatchesConditions_scan_ends (enough_fuel doc) doc langID
                (pat_scopes (cond_pattern c)) re endPos
                (default false (negateFinding c))
                (XRegExp_exec doc re startPos) Hre_adv) as Hscan.
  destruct (MatchesConditions_scan _ _ _ _ _ _ _ _) as [exit| |];
    cbn [mbind Outcome_bind];
    [|done|exfalso; apply Hscan; [unfold enough_fuel; lia| |done]].
  - destruct exit as [|foundPattern]; [done|].
    case_match; [done|]. apply IH. intros c' re' Hc'. apply Hadv. by right.
  - intros mt Hmt. by eapply first_match_fuel.
Qed.

Lemma MakeFixes_ends rule src r : MakeFixes rule src r ≠ OutOfFuel.
Proof.
  intros H. pose proof (MakeFixes_spec rule src r) as Hspec.
  by rewrite H in Hspec.
Qed.

Lemma analyzeMatch_ends doc langID rule ruleSeverity pat m :
  rule_advances doc rule →
  analyzeMatch (enough_fuel doc) doc langID rule ruleSeverity pat m ≠ OutOfFuel.
Proof.
  intros [_ Hconds]. unfold analyzeMatch.
  pose proof (MatchesConditions_each_ends (default [] (conditions rule)) doc
                (match_range doc m) langID Hconds) as Heach.
  destruct (negb _ && _); cbn [MatchesConditions mbind Outcome_bind].
  - destruct (MatchesConditions_each _ _ _ _ _) as [live| |]; [|done|done].
    destruct live.
    + pose proof (MakeFixes_ends rule (substr doc (index m) (len (matched m)))
                    (match_range doc m)) as Hfix.
      by destruct (MakeFixes _ _ _).
    + by repeat case_match.
  - by repeat case_match.
Qed.

Lemma runAnalysis_scan_ends fuel doc langID rule ruleSeverity pat re problems m :
  rule_advances doc rule →
  regex_advances doc re →
  (0 < fuel)%nat →
  (∀ mt, m = Some mt →
     0 < len (matched mt) ∧ index mt + len (matched mt) ≤ len doc
     ∧ len doc - index mt < Z.of_nat fuel) →
  runAnalysis_scan fuel (enough_fuel doc) doc langID rule ruleSeverity pat re
    problems m ≠ OutOfFuel.
Proof.
  intros Hrule Hadv. revert problems m.
  induction fuel as [|fuel IH]; intros problems m Hpos Hm; [lia|].
  simpl. destruct m as [mt|]; [|done].
  destruct (Hm mt eq_refl) as (Hlen & Hend & Hfuel).
  pose proof (analyzeMatch_ends doc langID rule ruleSeverity pat mt Hrule)
    as Hbody.
  destruct (analyzeMatch _ _ _ _ _ _ _) as [pushed| |]; [|done|done].
  cbn [mbind Outcome_bind]. apply IH; [lia|].
  intros mt' Hnext. apply Hadv in Hnext as (? & ? & ? & ?). lia.
Qed.

Lemma runAnalysis_patterns_ends doc langID rule ruleSeverity pats problems :
  rule_advances doc rule →
  (∀ pat, pat ∈ pats → pat ∈ patterns rule) →
  runAnalysis_patterns (enough_fuel doc) doc langID rule ruleSeverity pats
    problems ≠ OutOfFuel.
Proof.
  intros Hrule. revert problems.
  induction pats as [|pat pats IH]; intros problems Hsub; [done|].
  cbn [runAnalysis_patterns].
  destruct (MakeRegex _ _ _ true) as [re|] eqn:Hre; [|done].
  change (orThrow (Some re)) with (Returns re). cbn [mbind Outcome_bind].
  assert (regex_advances doc re) as Hadv.
  { destruct Hrule as [Hpats _]. apply (Hpats pat re); [|done].
    apply Hsub. by left. }
  pose proof (runAnalysis_scan_ends (enough_fuel doc) doc langID rule
                ruleSeverity pat re problems (XRegExp_exec doc re 0)
                Hrule Hadv) as Hscan.
  destruct (runAnalysis_scan _ _ _ _ _ _ _ _ _ _) as [mid| |];
    cbn [mbind Outcome_bind];
    [|done|exfalso; apply Hscan; [unfold enough_fuel; lia| |done]].
  - cbn [mbind Outcome_bind]. apply IH. intros pat' Hpat'. apply Hsub. by right.
  - intros mt Hmt. by eapply first_match_fuel.
Qed.

Lemma runAnalysis_rules_ends this doc langID uri rules problems :
  Forall (rule_advances doc) rules →
  runAnalysis_rules (enough_fuel doc) this doc langID uri rules problems
  ≠ OutOfFuel.
Proof.
  intros Hrules. revert problems.
  induction Hrules as [|rule rules Hrule Hrest IH]; intros problems; [done|].
  cbn [runAnalysis_rules].
  destruct (rule_enabled this langID uri rule).
  - pose proof (runAnalysis_patterns_ends doc langID rule
                  (MapRuleSeverity (severity rule)) (patterns rule) problems
                  Hrule (fun _ H => H)) as Hpats.
    destruct (runAnalysis_patterns _ _ _ _ _ _ _) as [mid| |]; [|done|done].
    cbn [mbind Outcome_bind]. apply IH.
  - cbn [mbind Outcome_bind]. apply IH.
Qed.

(** When every regex of the rule set can be constructed and none of the
    scan regexes matches the empty string, [analyzeText] returns. *)
Lemma analyzeText_returns this doc langID uri :
  Forall rule_builds (default [] (analysisRules this)) →
  Forall (rule_advances doc) (default [] (analysisRules this)) →
  ∃ out, analyzeText (enough_fuel doc) this doc langID uri = Returns out.
Proof.
  intros Hbuilds Hadv.
  assert (analyzeText (enough_fuel doc) this doc langID uri ≠ OutOfFuel) as Hfuel.
  { unfold analyzeText.
    destruct (analysisRules this) as [rules|] eqn:Hr; [|done].
    destruct (ignoreFilesList (dswSettings this)); [|done].
    case_match; [|done].
    pose proof (runAnalysis_rules_ends this doc langID uri rules [] Hadv)
      as Hrun.
    unfold runAnalysis. rewrite Hr. simpl.
    destruct (runAnalysis_rules _ _ _ _ _ _ _) as [problems| |]; [|done|done].
    cbn [mbind Outcome_bind]. intros Hout.
    pose proof (processOverrides_spec problems) as Hspec.
    by rewrite Hout in Hspec. }
  pose proof (analyzeText_no_throw (enough_fuel doc) this doc langID uri
                Hbuilds) as Hthrow.
  destruct (analyzeText _ _ _ _ _) as [out| |]; [|done|done].
  by exists out.
Qed.

(** C5, as amended.  When every regex the rule set asks for can be
    constructed (the scan regex of each rule pattern and condition
    pattern, the regex of each fix pattern and the alternation of each
    overrides list), no exception leaves [analyzeText], whatever the
    document; [analyzeText] returns when in addition no scan regex
    matches the empty string; and a fix template whose substitution
    raises is skipped, the edits of the other templates of the rule
    being returned. *)
Theorem analyzeText_no_exception_when_regexes_build
    (fuel : nat) (this : DevSkimWorker) (doc langID uri : string) :
  Forall rule_builds (default [] (analysisRules this)) →
  analyzeText fuel this doc langID uri ≠ Throws
  ∧ (Forall (rule_advances doc) (default [] (analysisRules this)) →
     ∃ out, analyzeText (enough_fuel doc) this doc langID uri = Returns out)
  ∧ ∀ rule src r,
      rule ∈ default [] (analysisRules this) →
      MakeFixes rule src r
      = Returns (omap (fix_edit src r) (reverse (default [] (fixIts rule)))).
Proof.
  intros Hrules. split; [by apply analyzeText_no_throw|].
  split; [by apply analyzeText_returns|].
  intros rule src r Hin. apply MakeFixes_returns.
  rewrite Forall_forall in Hrules. by destruct (Hrules rule Hin) as (_ & _ & ? & _).
Qed.

End Termination.

Section ExceptionRuns.

Import Inputs Inputs2 Inputs3 Inputs4.

Lemma prefix_len (a b : string) : String.prefix a b = true → len a ≤ len b.
Proof.
  revert b. induction a as [|x a IH]; intros b H.
  - apply len_nonneg.
  - destruct b as [|y b]; simpl in H; [done|].
    destruct (ascii_dec x y); [|done].
    rewrite !len_cons. apply IH in H. lia.
Qed.

Lemma find_at_unfold s lit off pos :
  Literal.find_at s lit off pos
  = if (pos <=? off) && String.prefix lit s then Some off
    else match s with
         | EmptyString => None
         | String _ s' => Literal.find_at s' lit (off + 1) pos
         end.
Proof. by destruct s. Qed.

Lemma find_at_bounds s lit off pos i :
  Literal.find_at s lit off pos = Some i →
  off ≤ i ∧ pos ≤ i ∧ i + len lit ≤ off + len s.
Proof.
  revert off. induction s as [|c s IH]; intros off H;
    rewrite find_at_unfold in H;
    destruct ((pos <=? off) && String.prefix lit _) eqn:Hhere.
  - injection H as <-. apply andb_prop in Hhere as [Hpos Hpre].
    apply Z.leb_le in Hpos. apply prefix_len in Hpre. lia.
  - done.
  - injection H as <-. apply andb_prop in Hhere as [Hpos Hpre].
    apply Z.leb_le in Hpos. apply prefix_len in Hpre. lia.
  - apply IH in H. rewrite len_cons. lia.
Qed.

(** In the operator-free fragment a regex whose text is not empty
    advances. *)
Lemma literal_advances (doc lit : string) :
  0 < len lit → regex_advances doc (lit : RegExp).
Proof.
  intros Hlit pos m Hm. simpl in Hm. unfold Literal.exec in Hm.
  destruct (Literal.find_at doc lit 0 pos) as [i|] eqn:Hfind; [|done].
  injection Hm as <-. simpl. apply find_at_bounds in Hfind. lia.
Qed.

Lemma analyzeText_no_exception_when_regexes_build_witness :
  Forall rule_builds (default [] (analysisRules strcpy_worker))
  ∧ Forall (rule_advances strcpy_document)
      (default [] (analysisRules strcpy_worker))
  ∧ analyzeText 10 strcpy_worker strcpy_document "c" "file.c" ≠ Throws
  ∧ (∃ out, analyzeText (enough_fuel strcpy_document) strcpy_worker
              strcpy_document "c" "file.c" = Returns out)
  ∧ ∀ rule src r,
      rule ∈ default [] (analysisRules strcpy_worker) →
      MakeFixes rule src r
      = Returns (omap (fix_edit src r) (reverse (default [] (fixIts rule)))).
Proof.
  assert (Forall rule_builds (default [] (analysisRules strcpy_worker))) as H.
  { constructor; [|constructor].
    split; [|split; [|split]].
    - constructor; [by eexists|constructor].
    - constructor.
    - constructor; [by eexists|]. constructor; [by eexists|constructor].
    - intros first others subject Hnone. discriminate Hnone. }
  assert (Forall (rule_advances strcpy_document)
            (default [] (analysisRules strcpy_worker))) as Hadv.
  { constructor; [|constructor]. split.
    - intros pat re Hpat Hre. apply list_elem_of_singleton in Hpat as ->.
      injection Hre as <-. by apply literal_advances.
    - intros c re Hc. by apply elem_of_nil in Hc. }
  destruct (analyzeText_no_exception_when_regexes_build 10 strcpy_worker
              strcpy_document "c" "file.c" H) as (Hquiet & Hreturns & Hfixes).
  split; [exact H|]. split; [exact Hadv|]. split; [exact Hquiet|].
  split; [exact (Hreturns Hadv)|exact Hfixes].
Defined.

(** C5, the claim as stated fails: with a rule whose pattern is the
    unbalanced regex [(], [XRegExp] raises in [MakeRegex], nothing in
    [runAnalysis] catches it, and the exception leaves [analyzeText];
    the rule that follows, which finds [strcpy] when it runs alone, is
    never reached. *)
Lemma malformed_pattern_leaves_analyzeText :
  scan_regex {| pat_pattern := "("; pat_type := "regex";
                pat_modifiers := None; pat_scopes := ["all"] |} = None
  ∧ analysisRules unbalanced_worker = Some [unbalanced_rule; strcpy_rule]
  ∧ analyzeText 10 unbalanced_worker strcpy_document "c" "file.c" = Throws
  ∧ analyzeText 10 strcpy_worker strcpy_document "c" "file.c"
    = Returns [strcpy_finding].
Proof. repeat split; vm_compute; reflexivity. Qed.

End ExceptionRuns.

(* ===================================================================== *)
(** * Further properties of the comment oracle *)
(* ===================================================================== *)

Section StringSearchFacts.

Lemma prefix_refl (s : string) : String.prefix s s = true.
Proof.
  induction s as [|c s IH]; [done|]. simpl. by destruct (ascii_dec c c).
Qed.

Lemma prefix_trans (a b c : string) :
  String.prefix a b = true → String.prefix b c = true →
  String.prefix a c = true.
Proof.
  revert b c. induction a as [|x a IH]; intros b c Hab Hbc; [by destruct c|].
  destruct b as [|y b]; [done|]. destruct c as [|z c]; [done|].
  simpl in *. destruct (ascii_dec x y) as [->|]; [|done].
  destruct (ascii_dec y z) as [->|]; [|done]. by eapply IH.
Qed.

Lemma prefix_trimEnd (s : string) : String.prefix (trimEnd s) s = true.
Proof.
  induction s as [|c s IH]; [done|]. simpl.
  destruct (trimEnd s) as [|d t] eqn:Ht.
  - destruct (is_space c); [done|]. simpl. by destruct (ascii_dec c c).
  - simpl. destruct (ascii_dec c c); [|done]. exact IH.
Qed.

Lemma indexOf_at_unfold (s sub : string) (off : Z) :
  indexOf_at s sub off
  = if String.prefix sub s then off
    else match s with
         | EmptyString => -1
         | String _ s' => indexOf_at s' sub (off + 1)
         end.
Proof. by destruct s. Qed.

(** [indexOf] answers [-1] or an offset of the text searched. *)
Lemma indexOf_at_range (s sub : string) (off : Z) :
  indexOf_at s sub off = -1
  ∨ (off ≤ indexOf_at s sub off ≤ off + len s).
Proof.
  revert off. induction s as [|c s IH]; intros off;
    rewrite indexOf_at_unfold; destruct (String.prefix sub _).
  - right. pose proof (len_nonneg EmptyString). lia.
  - by left.
  - right. pose proof (len_nonneg (String c s)). lia.
  - destruct (IH (off + 1)) as [->|H]; [by left|].
    right. rewrite len_cons. lia.
Qed.

(** At the offset it answers, the text searched continues with the text
    searched for. *)
Lemma indexOf_at_here (s sub : string) (off : Z) :
  0 ≤ off → indexOf_at s sub off = off → String.prefix sub s = true.
Proof.
  intros Hoff H. rewrite indexOf_at_unfold in H.
  destruct (String.prefix sub s); [done|].
  destruct s as [|c s]; [lia|].
  destruct (indexOf_at_range s sub (off + 1)) as [Hnone|Hin]; lia.
Qed.

(** An occurrence after any text is found. *)
Lemma indexOf_at_finds (pre post sub : string) (off : Z) :
  String.prefix sub post = true →
  off ≤ indexOf_at (pre ++ post) sub off ≤ off + len pre.
Proof.
  intros Hpost. revert off.
  induction pre as [|c pre IH]; intros off; rewrite indexOf_at_unfold.
  - change (EmptyString ++ post) with post. rewrite Hpost.
    pose proof (len_nonneg EmptyString). lia.
  - rewrite append_cons. destruct (String.prefix sub (String c _)).
    + pose proof (len_nonneg (String c pre)). lia.
    + specialize (IH (off + 1)). rewrite len_cons. lia.
Qed.

Lemma trimStart_split (s : string) : ∃ ws, s = ws ++ trimStart s.
Proof.
  induction s as [|c s [ws IH]]; [by exists EmptyString|]. simpl.
  destruct (is_space c).
  - exists (String c ws). by rewrite append_cons, <- IH.
  - by exists EmptyString.
Qed.

End StringSearchFacts.

Section CommentOracle.

Import SourceContext.

Lemma len_zero_empty (s : string) : len s < 1 → s = EmptyString.
Proof. destruct s; [done|]. rewrite len_cons. pose proof (len_nonneg s). lia. Qed.

(** The block delimiters of the table come in pairs. *)
Lemma block_delimiters_paired (langID : string) :
  (GetBlockCommentStart langID = "/*" ∧ GetBlockCommentEnd langID = "*/")
  ∨ (GetBlockCommentStart langID = "(*" ∧ GetBlockCommentEnd langID = "*)")
  ∨ (GetBlockCommentStart langID = "<!--" ∧ GetBlockCommentEnd langID = "-->")
  ∨ (GetBlockCommentStart langID = EmptyString
     ∧ GetBlockCommentEnd langID = EmptyString).
Proof.
  unfold GetBlockCommentStart, GetBlockCommentEnd.
  destruct (one_of langID c_family); [by left|].
  destruct (String.eqb langID "fsharp"); [by right; left|].
  destruct (one_of langID ["html"; "xml"]); [by right; right; left|].
  by right; right; right.
Qed.

(** X1. With [onlyBlock] set, [IsFindingInComment] is the comparison of
    the two helpers of the same file, whatever the language and the
    document: the finding is in a block comment exactly when
    [GetStartOfLastBlockComment] lies after [GetEndOfLastBlockComment].
    In particular it is never in one in a language without block
    delimiters, and never in an empty document. *)
Theorem IsFindingInComment_onlyBlock_is_last_start_after_last_end
    (langID documentContents : string) (newlineIndex : Z) :
  IsFindingInComment langID documentContents newlineIndex true
  = (GetEndOfLastBlockComment langID documentContents
       <? GetStartOfLastBlockComment langID documentContents).
Proof.
  unfold IsFindingInComment, GetEndOfLastBlockComment,
    GetStartOfLastBlockComment.
  destruct (len documentContents <? 1) eqn:Hempty.
  - apply Z.ltb_lt, len_zero_empty in Hempty as ->.
    destruct (block_delimiters_paired langID) as [[-> ->]|[[-> ->]|[[-> ->]|[-> ->]]]];
      reflexivity.
  - destruct (block_delimiters_paired langID) as [[-> ->]|[[-> ->]|[[-> ->]|[-> ->]]]];
      reflexivity.
Qed.

(** X2. A line that [IsLineCommented] reports as commented is a line
    that [IsFindingInComment] places in a comment: when the trimmed text
    of the line starts with the line-comment delimiter, the untrimmed
    text contains it. *)
Theorem IsLineCommented_is_in_comment
    (langID documentContents : string) (newlineIndex : Z) :
  IsLineCommented langID documentContents newlineIndex = true →
  IsFindingInComment langID documentContents newlineIndex false = true.
Proof.
  unfold IsLineCommented, IsFindingInComment.
  destruct (len documentContents <? 1); [done|].
  set (commentText := if -1 <? newlineIndex
                      then substr_from documentContents newlineIndex
                      else documentContents).
  destruct (0 <? len (GetLineComment langID)); [|done].
  destruct (indexOf (trim commentText) (GetLineComment langID) =? 0) eqn:Hat;
    [|done].
  intros _. apply Z.eqb_eq in Hat.
  apply indexOf_at_here in Hat; [|done].
  assert (String.prefix (GetLineComment langID) (trimStart commentText) = true)
    as Hstart.
  { eapply prefix_trans; [exact Hat|]. apply prefix_trimEnd. }
  destruct (trimStart_split commentText) as [ws Hsplit].
  pose proof (indexOf_at_finds ws (trimStart commentText)
                (GetLineComment langID) 0 Hstart) as Hfound.
  rewrite <- Hsplit in Hfound. fold (indexOf commentText (GetLineComment langID)) in Hfound.
  simpl. destruct (-1 <? indexOf commentText (GetLineComment langID)) eqn:Hlt;
    [done|].
  apply Z.ltb_ge in Hlt. lia.
Qed.

(** X3. For a language the table has no delimiters for, nothing is in a
    comment: [IsFindingInComment], [IsLineCommented] and
    [IsLineBlockCommented] all answer no, a pattern scoped to [code] is
    always in scope and a pattern scoped to [comment] never is. *)
Theorem unknown_language_has_no_comments
    (langID documentContents : string) (newlineIndex : Z) (onlyBlock : bool) :
  GetLineComment langID = EmptyString →
  GetBlockCommentStart langID = EmptyString →
  IsFindingInComment langID documentContents newlineIndex onlyBlock = false
  ∧ IsLineCommented langID documentContents newlineIndex = false
  ∧ IsLineBlockCommented langID documentContents = false
  ∧ MatchIsInScope langID documentContents newlineIndex ["code"] = true
  ∧ MatchIsInScope langID documentContents newlineIndex ["comment"] = false.
Proof.
  intros Hline Hblock.
  assert (∀ b, IsFindingInComment langID documentContents newlineIndex b
               = false) as Hnever.
  { intros b. unfold IsFindingInComment. rewrite Hline, Hblock.
    destruct (len documentContents <? 1); [done|].
    by rewrite andb_false_r. }
  split; [apply Hnever|].
  split.
  { unfold IsLineCommented. rewrite Hline. by destruct (len documentContents <? 1). }
  split.
  { unfold IsLineBlockCommented. rewrite Hblock.
    by destruct (len documentContents <? 1). }
  unfold MatchIsInScope. rewrite Hnever. by split.
Qed.

Lemma unknown_language_has_no_comments_witness :
  GetLineComment "plaintext" = EmptyString
  ∧ GetBlockCommentStart "plaintext" = EmptyString
  ∧ IsFindingInComment "plaintext" "// x /* y" (-1) false = false
  ∧ IsLineCommented "plaintext" "// x /* y" (-1) = false
  ∧ IsLineBlockCommented "plaintext" "// x /* y" = false
  ∧ MatchIsInScope "plaintext" "// x /* y" (-1) ["code"] = true
  ∧ MatchIsInScope "plaintext" "// x /* y" (-1) ["comment"] = false.
Proof.
  split; [reflexivity|]. split; [reflexivity|].
  apply (unknown_language_has_no_comments "plaintext" "// x /* y" (-1) false);
    reflexivity.
Defined.

Lemma IsLineCommented_is_in_comment_witness :
  IsLineCommented "c" ("x = 1;" ++ LF ++ "   // strcpy") 6 = true
  ∧ IsFindingInComment "c" ("x = 1;" ++ LF ++ "   // strcpy") 6 false = true.
Proof.
  split; [reflexivity|].
  apply (IsLineCommented_is_in_comment "c"
           ("x = 1;" ++ LF ++ "   // strcpy") 6).
  reflexivity.
Defined.

End CommentOracle.

(* ===================================================================== *)
(** * Further properties of override resolution *)
(* ===================================================================== *)

Section OverrideOrder.

Context {engine : RegexEngine}.

Lemma emptied_idem p : emptied (emptied p) = emptied p.
Proof. reflexivity. Qed.

Lemma emptied_no_overrides p : no_overrides p → emptied p = p.
Proof. destruct p. unfold no_overrides, emptied, with_overrides. simpl. by intros ->. Qed.

Lemma fmap_emptied_alter (ps : list DevSkimProblem) j :
  emptied <$> alter (fun p => with_overrides p []) j ps = emptied <$> ps.
Proof.
  apply list_eq. intros k. rewrite !list_lookup_fmap.
  destruct (decide (j = k)) as [->|Hne].
  - rewrite list_lookup_alter_eq. by destruct (ps !! k).
  - by rewrite list_lookup_alter_ne.
Qed.

(** The outer loop removes problems and empties overrides; it never
    reorders. *)
Lemma processOverrides_outer_order fuel ps i flag ps' flag' :
  processOverrides_outer fuel ps i flag = Returns (ps', flag') →
  (emptied <$> ps') `sublist_of` (emptied <$> ps).
Proof.
  revert ps i flag.
  induction fuel as [|fuel IH]; intros ps i flag H; [done|].
  cbn [processOverrides_outer] in H.
  destruct (ps !! i) as [problem|]; [|by injection H as <- <-].
  destruct (prob_overrides problem) as [|first others].
  { by eapply IH. }
  pose proof (processOverrides_inner_spec (S (length ps)) ps problem
                (fold_left (fun acc o => acc ++ "|" ++ o) others first)
                0 (Some i) flag) as Hinner.
  destruct (processOverrides_inner _ ps problem _ 0 (Some i) flag)
    as [[[ps1 self1] flag1]| |]; [|done|done].
  cbn [mbind Outcome_bind] in H.
  destruct Hinner as [Hsub _]; [lia|].
  apply IH in H. etrans; [exact H|].
  destruct self1 as [j|].
  - rewrite fmap_emptied_alter. by apply fmap_sublist.
  - by apply fmap_sublist.
Qed.

Lemma processOverrides_rec_order fuel ps out :
  processOverrides_rec fuel ps = Returns out →
  (emptied <$> out) `sublist_of` (emptied <$> ps).
Proof.
  revert ps. induction fuel as [|fuel IH]; intros ps H; [done|].
  cbn [processOverrides_rec] in H.
  destruct (processOverrides_outer _ ps 0 false) as [[ps1 flag1]| |] eqn:Hrun;
    [|done|done].
  cbn [mbind Outcome_bind] in H.
  apply processOverrides_outer_order in Hrun.
  destruct flag1; [|by injection H as <-].
  apply IH in H. by etrans.
Qed.

(** X4. [processOverrides] ends for every list of problems.  When it
    returns, what it returns is the list it was given with every
    overrides list emptied and some problems removed: no problem is
    added, none is changed otherwise, and those that stay keep their
    order. *)
Theorem processOverrides_removes_in_place (ps : list DevSkimProblem) :
  match processOverrides ps with
  | Returns out =>
      out `sublist_of` (emptied <$> ps) ∧ Forall no_overrides out
  | Throws => True
  | OutOfFuel => False
  end.
Proof.
  pose proof (processOverrides_spec ps) as Hspec.
  destruct (processOverrides ps) as [out| |] eqn:Hrun; [|done|done].
  destruct Hspec as [_ Hclear].
  assert (Forall no_overrides out) as Hall by (by apply Forall_forall).
  split; [|done].
  apply processOverrides_rec_order in Hrun.
  replace (emptied <$> out) with out in Hrun; [done|].
  clear -Hall. induction Hall as [|p out Hp _ IH]; [done|].
  rewrite fmap_cons, <- IH. by rewrite emptied_no_overrides.
Qed.

(** Without overrides anywhere, the outer loop changes nothing. *)
Lemma processOverrides_outer_nothing fuel ps i :
  Forall no_overrides ps → (length ps - i < fuel)%nat →
  processOverrides_outer fuel ps i false = Returns (ps, false).
Proof.
  intros Hall. revert i.
  induction fuel as [|fuel IH]; intros i Hfuel; [lia|].
  cbn [processOverrides_outer].
  destruct (ps !! i) as [problem|] eqn:Hi; [|done].
  rewrite Forall_forall in Hall.
  rewrite (Hall problem) by (by eapply list_elem_of_lookup_2).
  apply IH. apply lookup_lt_Some in Hi. lia.
Qed.

(** X5. [processOverrides] is idempotent: run on a list it has
    returned, it returns that list again. *)
Theorem processOverrides_idempotent (ps out : list DevSkimProblem) :
  processOverrides ps = Returns out →
  processOverrides out = Returns out.
Proof.
  intros Hrun. pose proof (processOverrides_spec ps) as Hspec.
  rewrite Hrun in Hspec. destruct Hspec as [_ Hclear].
  unfold processOverrides. cbn [processOverrides_rec].
  rewrite processOverrides_outer_nothing; [done| |lia].
  by apply Forall_forall.
Qed.

End OverrideOrder.

Section OverrideRuns.

Import Inputs.

Lemma processOverrides_idempotent_witness :
  processOverrides
    [md5_problem java_md5; md5_problem generic_md5; md5_problem weak_hash]
  = Returns [with_overrides (md5_problem java_md5) []; md5_problem weak_hash]
  ∧ processOverrides
      [with_overrides (md5_problem java_md5) []; md5_problem weak_hash]
    = Returns [with_overrides (md5_problem java_md5) []; md5_problem weak_hash].
Proof.
  split; [vm_compute; reflexivity|].
  apply (processOverrides_idempotent
           [md5_problem java_md5; md5_problem generic_md5; md5_problem weak_hash]).
  vm_compute; reflexivity.
Defined.

End OverrideRuns.

Section OverrideRuns2.

Import Inputs Inputs5.

Lemma processOverrides_keeps_other_positions_witness :
  processOverrides [md5_problem java_md5; generic_elsewhere]
  = Returns [with_overrides (md5_problem java_md5) []; generic_elsewhere]
  ∧ generic_elsewhere ∈ [md5_problem java_md5; generic_elsewhere]
  ∧ ∃ q', q' ∈ [with_overrides (md5_problem java_md5) []; generic_elsewhere]
          ∧ resolved generic_elsewhere q'.
Proof.
  split; [vm_compute; reflexivity|].
  split; [apply list_elem_of_In; simpl; tauto|].
  apply (processOverrides_keeps_other_positions
           [md5_problem java_md5; generic_elsewhere]).
  - vm_compute; reflexivity.
  - apply list_elem_of_In; simpl; tauto.
  - intros p Hp Hov Hsame.
    apply elem_of_cons in Hp as [->|Hp]; [discriminate Hsame|].
    apply list_elem_of_singleton in Hp as ->. by apply Hov.
Defined.

End OverrideRuns2.

(* ===================================================================== *)
(** * Further properties of the analysis *)
(* ===================================================================== *)

Section ReportedProblems.

Context {engine : RegexEngine} {collab : Collaborators}.

Lemma MapRuleSeverity_not_WarningInfo (s : string) :
  MapRuleSeverity s ≠ WarningInfo.
Proof. unfold MapRuleSeverity. by repeat case_match. Qed.

Lemma existsb_eqb_false (x : string) (l : list string) :
  existsb (String.eqb x) l = false → x ∉ l.
Proof.
  intros H Hin. apply list_elem_of_In in Hin.
  assert (existsb (String.eqb x) l = true) as Htrue; [|congruence].
  apply existsb_exists. exists x. split; [done|]. apply String.eqb_refl.
Qed.

(** X7. Every problem [analyzeText] returns belongs to a rule of the
    rule set that ran: its id is not on the list of ignored rules, the
    rule applies to the language or the file, and its severity is
    enabled by the settings; and the document is not on the list of
    ignored files. *)
Theorem analyzeText_reports_enabled_rules_only fuel this doc langID uri out p :
  analyzeText fuel this doc langID uri = Returns out →
  p ∈ out →
  (∃ rule,
     rule ∈ default [] (analysisRules this)
     ∧ ruleId p = id rule
     ∧ (id rule ∉ ignoreRulesList (dswSettings this))
     ∧ AppliesToLangOrFile langID (appliesTo rule) uri = true
     ∧ RuleSeverityEnabled this (MapRuleSeverity (severity rule)) = true)
  ∧ ∃ ignoreList,
      ignoreFilesList (dswSettings this) = Some ignoreList
      ∧ ignoreFile uri ignoreList = false.
Proof.
  intros H Hp. split.
  - destruct (analyzeText_origin _ _ _ _ _ _ _ H Hp)
      as (rule & pat & m & ps & q & (Hin & Hon & _) & Hmatch & Hq & Hres).
    destruct (resolved_same _ _ Hres) as (Hid & _).
    exists rule. split; [done|].
    unfold rule_enabled in Hon.
    apply andb_prop in Hon as [Hon Hsev]. apply andb_prop in Hon as [Hign Happ].
    apply negb_true_iff, existsb_eqb_false in Hign.
    split; [|done].
    rewrite Hid.
    by destruct (analyzeMatch_pushes _ _ _ _ _ _ _ _ Hmatch Hq)
      as [(_ & _ & made & _ & ->)|(col & _ & ->)].
  - unfold analyzeText in H.
    destruct (analysisRules this) as [rules|];
      [|injection H as <-; by apply elem_of_nil in Hp].
    destruct (ignoreFilesList (dswSettings this)) as [l|];
      [|injection H as <-; by apply elem_of_nil in Hp].
    destruct ((0 <? length rules)%nat && negb (ignoreFile uri l)) eqn:Hgo;
      [|injection H as <-; by apply elem_of_nil in Hp].
    exists l. split; [done|].
    apply andb_prop in Hgo as [_ Hgo]. by apply negb_true_iff in Hgo.
Qed.

(** X8. In what [analyzeText] returns the severity tells the markers
    from the findings: a problem has the severity [WarningInfo] exactly
    when it carries a [suppressedFindingRange]. *)
Theorem analyzeText_WarningInfo_iff_marker fuel this doc langID uri out p :
  analyzeText fuel this doc langID uri = Returns out →
  p ∈ out →
  (prob_severity p = WarningInfo ↔ is_Some (suppressedFindingRange p)).
Proof.
  intros H Hp.
  destruct (analyzeText_origin _ _ _ _ _ _ _ H Hp)
    as (rule & pat & m & ps & q & _ & Hmatch & Hq & Hres).
  rewrite (resolved_live _ _ Hres).
  destruct (resolved_same _ _ Hres) as (_ & _ & _ & ->).
  destruct (analyzeMatch_pushes _ _ _ _ _ _ _ _ Hmatch Hq)
    as [(_ & _ & made & _ & ->)|(col & _ & ->)]; simpl.
  - split; [|by intros [? ?]].
    intros Hsev. by apply MapRuleSeverity_not_WarningInfo in Hsev.
  - split; [eauto|done].
Qed.

(** X9. A marker [analyzeText] returns underlines the rule id of the
    directive: it has no fixes, it records the range the suppressed
    match would have had, it lies on the line the match starts on, to
    the right of the start of the match, and it is as wide as the rule
    id is long. *)
Theorem analyzeText_marker_shape fuel this doc langID uri out p r :
  analyzeText fuel this doc langID uri = Returns out →
  p ∈ out →
  suppressedFindingRange p = Some r →
  ∃ rule pat m,
    found this doc langID uri rule pat m
    ∧ ruleId p = id rule
    ∧ r = match_range doc m
    ∧ fixes p = []
    ∧ line (start (range p)) = line (start r)
    ∧ line (end_ (range p)) = line (start r)
    ∧ character (start r) < character (start (range p))
    ∧ character (end_ (range p))
      = character (start (range p)) + len (ruleId p).
Proof.
  intros H Hp Hr.
  destruct (analyzeText_origin _ _ _ _ _ _ _ H Hp)
    as (rule & pat & m & ps & q & Hfound & Hmatch & Hq & Hres).
  rewrite (resolved_live _ _ Hres) in Hr.
  destruct (resolved_same _ _ Hres) as (-> & -> & -> & _).
  destruct (analyzeMatch_pushes _ _ _ _ _ _ _ _ Hmatch Hq)
    as [(_ & _ & made & _ & ->)|(col & Hcol & ->)]; [discriminate Hr|].
  injection Hr as <-.
  exists rule, pat, m. split; [done|].
  unfold marker_problem, match_range, match_newlineIndex. simpl.
  repeat split; lia.
Qed.

(** X10. Only a pattern that names a scope is reported: the pattern
    behind a live problem has [all], [code] or [comment] among its
    scopes, so a pattern with an empty scope list never yields a
    finding. *)
Theorem analyzeText_live_problem_has_scope fuel this doc langID uri out p :
  analyzeText fuel this doc langID uri = Returns out →
  p ∈ out →
  suppressedFindingRange p = None →
  ∃ rule pat m scope,
    found this doc langID uri rule pat m
    ∧ ruleId p = id rule
    ∧ range p = match_range doc m
    ∧ scope ∈ pat_scopes pat
    ∧ (scope = "all" ∨ scope = "code" ∨ scope = "comment").
Proof.
  intros H Hp Hlive.
  destruct (analyzeText_origin _ _ _ _ _ _ _ H Hp)
    as (rule & pat & m & ps & q & Hfound & Hmatch & Hq & Hres).
  rewrite (resolved_live _ _ Hres) in Hlive.
  destruct (resolved_same _ _ Hres) as (-> & -> & _).
  destruct (analyzeMatch_pushes _ _ _ _ _ _ _ _ Hmatch Hq)
    as [(_ & Hscope & made & _ & ->)|(col & _ & ->)]; [|discriminate].
  unfold MatchIsInScope in Hscope.
  destruct (existsb (String.eqb "all") (pat_scopes pat)) eqn:Hall.
  - apply existsb_exists in Hall as (scope & Hin & Heq).
    apply String.eqb_eq in Heq as <-.
    exists rule, pat, m, "all".
    split; [done|]. split; [done|]. split; [done|].
    split; [by apply list_elem_of_In|by left].
  - apply existsb_exists in Hscope as (scope & Hin & Hor).
    exists rule, pat, m, scope.
    split; [done|]. split; [done|]. split; [done|].
    split; [by apply list_elem_of_In|]. right.
    apply orb_prop in Hor as [Hc|Hc]; apply andb_prop in Hc as [Hc _];
      apply String.eqb_eq in Hc; auto.
Qed.

End ReportedProblems.

Section ReportedProblemsRuns.

Import Inputs Inputs2 Inputs3.

Lemma analyzeText_reports_enabled_rules_only_witness :
  analyzeText 10 strcpy_worker strcpy_document "c" "file.c"
    = Returns [strcpy_finding]
  ∧ strcpy_finding ∈ [strcpy_finding]
  ∧ (∃ rule,
       rule ∈ default [] (analysisRules strcpy_worker)
       ∧ ruleId strcpy_finding = id rule
       ∧ (id rule ∉ ignoreRulesList (dswSettings strcpy_worker))
       ∧ AppliesToLangOrFile "c" (appliesTo rule) "file.c" = true
       ∧ RuleSeverityEnabled strcpy_worker (MapRuleSeverity (severity rule))
         = true)
  ∧ ∃ ignoreList,
      ignoreFilesList (dswSettings strcpy_worker) = Some ignoreList
      ∧ ignoreFile "file.c" ignoreList = false.
Proof.
  split; [vm_compute; reflexivity|].
  split; [apply list_elem_of_singleton; reflexivity|].
  apply (analyzeText_reports_enabled_rules_only 10 strcpy_worker
           strcpy_document "c" "file.c" [strcpy_finding] strcpy_finding).
  - vm_compute; reflexivity.
  - apply list_elem_of_singleton; reflexivity.
Defined.

Lemma analyzeText_WarningInfo_iff_marker_witness :
  analyzeText 10 strcpy_worker commented_document "c" "file.c"
    = Returns [commented_marker]
  ∧ commented_marker ∈ [commented_marker]
  ∧ (prob_severity commented_marker = WarningInfo
     ↔ is_Some (suppressedFindingRange commented_marker)).
Proof.
  split; [vm_compute; reflexivity|].
  split; [apply list_elem_of_singleton; reflexivity|].
  apply (analyzeText_WarningInfo_iff_marker 10 strcpy_worker
           commented_document "c" "file.c" [commented_marker] commented_marker).
  - vm_compute; reflexivity.
  - apply list_elem_of_singleton; reflexivity.
Defined.

Lemma analyzeText_marker_shape_witness :
  analyzeText 10 strcpy_worker commented_document "c" "file.c"
    = Returns [commented_marker]
  ∧ commented_marker ∈ [commented_marker]
  ∧ suppressedFindingRange commented_marker = Some (Range_create 0 3 0 9)
  ∧ ∃ rule pat m,
      found strcpy_worker commented_document "c" "file.c" rule pat m
      ∧ ruleId commented_marker = id rule
      ∧ Range_create 0 3 0 9 = match_range commented_document m
      ∧ fixes commented_marker = []
      ∧ line (start (range commented_marker)) = line (start (Range_create 0 3 0 9))
      ∧ line (end_ (range commented_marker)) = line (start (Range_create 0 3 0 9))
      ∧ character (start (Range_create 0 3 0 9))
        < character (start (range commented_marker))
      ∧ character (end_ (range commented_marker))
        = character (start (range commented_marker))
          + len (ruleId commented_marker).
Proof.
  split; [vm_compute; reflexivity|].
  split; [apply list_elem_of_singleton; reflexivity|].
  split; [vm_compute; reflexivity|].
  apply (analyzeText_marker_shape 10 strcpy_worker commented_document "c"
           "file.c" [commented_marker] commented_marker (Range_create 0 3 0 9)).
  - vm_compute; reflexivity.
  - apply list_elem_of_singleton; reflexivity.
  - vm_compute; reflexivity.
Defined.

Lemma analyzeText_live_problem_has_scope_witness :
  analyzeText 10 strcpy_worker strcpy_document "c" "file.c"
    = Returns [strcpy_finding]
  ∧ strcpy_finding ∈ [strcpy_finding]
  ∧ suppressedFindingRange strcpy_finding = None
  ∧ ∃ rule pat m scope,
      found strcpy_worker strcpy_document "c" "file.c" rule pat m
      ∧ ruleId strcpy_finding = id rule
      ∧ range strcpy_finding = match_range strcpy_document m
      ∧ scope ∈ pat_scopes pat
      ∧ (scope = "all" ∨ scope = "code" ∨ scope = "comment").
Proof.
  split; [vm_compute; reflexivity|].
  split; [apply list_elem_of_singleton; reflexivity|].
  split; [reflexivity|].
  apply (analyzeText_live_problem_has_scope 10 strcpy_worker strcpy_document
           "c" "file.c" [strcpy_finding] strcpy_finding).
  - vm_compute; reflexivity.
  - apply list_elem_of_singleton; reflexivity.
  - reflexivity.
Defined.

End ReportedProblemsRuns.

Section RuleGating.

Context {engine : RegexEngine} {collab : Collaborators}.

(** X11. Which rules run, read off the severity text: [critical],
    [important] and [moderate], in any letter case, always run;
    [manual-review] runs when manual-review rules are enabled; every
    other text, [best-practice] or not, counts as best practice and runs
    when best-practice rules are enabled. *)
Theorem RuleSeverityEnabled_of_severity_text
    (this : DevSkimWorker) (severity : string) :
  RuleSeverityEnabled this (MapRuleSeverity severity)
  = if same_ignoring_case severity "critical"
       || same_ignoring_case severity "important"
       || same_ignoring_case severity "moderate"
    then true
    else if same_ignoring_case severity "manual-review"
    then enableManualReviewRules (dswSettings this)
    else enableBestPracticeRules (dswSettings this).
Proof.
  unfold RuleSeverityEnabled, MapRuleSeverity.
  rewrite !eqb_toLowerCase by reflexivity.
  destruct (same_ignoring_case severity "critical"); [done|].
  destruct (same_ignoring_case severity "important"); [done|].
  destruct (same_ignoring_case severity "moderate"); [done|].
  destruct (same_ignoring_case severity "best-practice") eqn:Hbest; simpl.
  - destruct (same_ignoring_case severity "manual-review") eqn:Hboth;
      [|by rewrite orb_false_r].
    (* no text is both *)
    exfalso. clear -Hbest Hboth.
    destruct severity as [|c s]; [done|]. simpl in Hbest, Hboth.
    apply andb_true_iff in Hbest as [Hb _], Hboth as [Hm _].
    apply Ascii.eqb_eq in Hb, Hm. by rewrite Hb in Hm.
  - destruct (same_ignoring_case severity "manual-review"); simpl; [done|].
    by rewrite orb_false_r.
Qed.

Lemma eqb_toLowerCase_both (a b : string) :
  String.eqb (toLowerCase a) (toLowerCase b) = same_ignoring_case a b.
Proof.
  revert b. induction a as [|x a IH]; intros [|y b]; simpl; try done.
  by rewrite IH.
Qed.

(** X12. For a list of language ids (entries without a dot) the
    document URI plays no part: the rule applies exactly when the list
    is empty or holds the language id of the document in some letter
    case. *)
Theorem AppliesToLangOrFile_by_language
    (languageID documentURI : string) (appliesTo : list string) :
  (∀ applies, applies ∈ appliesTo → indexOf applies "." = -1) →
  (AppliesToLangOrFile languageID (Some appliesTo) documentURI = true
   ↔ appliesTo = []
     ∨ ∃ applies, applies ∈ appliesTo
                  ∧ same_ignoring_case languageID applies = true).
Proof.
  intros Hnodot. unfold AppliesToLangOrFile.
  destruct appliesTo as [|a l]; [by split; [left|]|].
  change (0 <? length (a :: l))%nat with true. cbv iota.
  rewrite existsb_exists. split.
  - intros (applies & Hin & Hor). right. apply list_elem_of_In in Hin.
    exists applies. split; [done|].
    rewrite (Hnodot applies Hin) in Hor. simpl in Hor.
    rewrite orb_false_r in Hor. by rewrite <- eqb_toLowerCase_both.
  - intros [?|(applies & Hin & Hsame)]; [done|].
    exists applies. split; [by apply list_elem_of_In|].
    by rewrite eqb_toLowerCase_both, Hsame.
Qed.

Lemma AppliesToLangOrFile_by_language_witness :
  (∀ applies, applies ∈ ["cpp"; "C"] → indexOf applies "." = -1)
  ∧ (AppliesToLangOrFile "c" (Some ["cpp"; "C"]) "file:///src/main.c" = true
     ↔ ["cpp"; "C"] = []
       ∨ ∃ applies, applies ∈ ["cpp"; "C"]
                    ∧ same_ignoring_case "c" applies = true).
Proof.
  assert (∀ applies, applies ∈ ["cpp"; "C"] → indexOf applies "." = -1) as H.
  { intros applies Hin. apply elem_of_cons in Hin as [->|Hin]; [reflexivity|].
    apply list_elem_of_singleton in Hin as ->. reflexivity. }
  split; [exact H|].
  exact (AppliesToLangOrFile_by_language "c" "file:///src/main.c"
           ["cpp"; "C"] H).
Defined.

(** X13. The conditions of a rule are a conjunction evaluated from left
    to right: checking [l1 ++ l2] is checking [l1] and then, only if it
    holds, [l2]; once a condition fails none of the later ones is
    looked at or even compiled. *)
Theorem MatchesConditions_each_app
    (fuel : nat) (l1 l2 : list Condition) (doc : string) (findingRange : Range)
    (langID : string) :
  MatchesConditions_each fuel (l1 ++ l2) doc findingRange langID
  = (ok ← MatchesConditions_each fuel l1 doc findingRange langID;
     if (ok : bool) then MatchesConditions_each fuel l2 doc findingRange langID
     else Returns false).
Proof.
  induction l1 as [|c l1 IH]; [done|].
  rewrite <- app_comm_cons. cbn [MatchesConditions_each].
  destruct (MakeRegex _ _ _ true) as [re|]; [|done].
  change (orThrow (Some re)) with (Returns re). cbn [mbind Outcome_bind].
  destruct (condition_region c doc findingRange) as [[startPos endPos]| |];
    [|done|done].
  cbn [mbind Outcome_bind].
  destruct (MatchesConditions_scan _ _ _ _ _ _ _ _) as [exit| |]; [|done|done].
  cbn [mbind Outcome_bind].
  destruct exit as [|foundPattern]; [done|].
  by destruct (negb _ && negb foundPattern).
Qed.

End RuleGating.

Section RuleOrder.

Context {engine : RegexEngine} {collab : Collaborators}.

Lemma runAnalysis_scan_acc fuel bound doc langID rule sev pat re problems m :
  runAnalysis_scan fuel bound doc langID rule sev pat re problems m
  = (new ← runAnalysis_scan fuel bound doc langID rule sev pat re [] m;
     Returns (problems ++ new)%list).
Proof.
  revert problems m. induction fuel as [|fuel IH]; intros problems m; [done|].
  cbn [runAnalysis_scan]. destruct m as [mt|];
    [|cbn [mbind Outcome_bind]; by rewrite app_nil_r].
  destruct (analyzeMatch bound doc langID rule sev pat mt) as [pushed| |];
    [|done|done].
  cbn [mbind Outcome_bind]. unfold concat.
  rewrite (IH (problems ++ pushed)%list), (IH ([] ++ pushed)%list).
  destruct (runAnalysis_scan fuel _ _ _ _ _ _ _ [] _) as [new| |];
    [|done|done].
  cbn [mbind Outcome_bind]. by rewrite app_assoc.
Qed.

Lemma runAnalysis_patterns_acc fuel doc langID rule sev pats problems :
  runAnalysis_patterns fuel doc langID rule sev pats problems
  = (new ← runAnalysis_patterns fuel doc langID rule sev pats [];
     Returns (problems ++ new)%list).
Proof.
  revert problems. induction pats as [|pat pats IH]; intros problems.
  { cbn. by rewrite app_nil_r. }
  cbn [runAnalysis_patterns].
  destruct (MakeRegex _ _ _ true) as [re|]; [|done].
  change (orThrow (Some re)) with (Returns re). cbn [mbind Outcome_bind].
  rewrite (runAnalysis_scan_acc _ _ _ _ _ _ _ _ problems).
  destruct (runAnalysis_scan _ _ _ _ _ _ _ _ [] _) as [scanned| |];
    [|done|done].
  cbn [mbind Outcome_bind].
  rewrite (IH (problems ++ scanned)%list), (IH scanned).
  destruct (runAnalysis_patterns _ _ _ _ _ _ []) as [new| |]; [|done|done].
  cbn [mbind Outcome_bind]. by rewrite app_assoc.
Qed.

Lemma runAnalysis_rules_acc fuel this doc langID uri rules problems :
  runAnalysis_rules fuel this doc langID uri rules problems
  = (new ← runAnalysis_rules fuel this doc langID uri rules [];
     Returns (problems ++ new)%list).
Proof.
  revert problems. induction rules as [|rule rules IH]; intros problems.
  { cbn. by rewrite app_nil_r. }
  cbn [runAnalysis_rules].
  destruct (rule_enabled this langID uri rule).
  - rewrite (runAnalysis_patterns_acc _ _ _ _ _ _ problems).
    destruct (runAnalysis_patterns _ _ _ _ _ _ []) as [found_| |];
      [|done|done].
    cbn [mbind Outcome_bind].
    rewrite (IH (problems ++ found_)%list), (IH found_).
    destruct (runAnalysis_rules _ _ _ _ _ _ []) as [new| |]; [|done|done].
    cbn [mbind Outcome_bind]. by rewrite app_assoc.
  - cbn [mbind Outcome_bind]. rewrite (IH problems), (IH []).
    destruct (runAnalysis_rules _ _ _ _ _ _ []) as [new| |]; [|done|done].
    done.
Qed.

Lemma runAnalysis_rules_app fuel this doc langID uri rs1 rs2 problems :
  runAnalysis_rules fuel this doc langID uri (rs1 ++ rs2) problems
  = (mid ← runAnalysis_rules fuel this doc langID uri rs1 problems;
     runAnalysis_rules fuel this doc langID uri rs2 mid).
Proof.
  revert problems. induction rs1 as [|rule rs1 IH]; intros problems; [done|].
  rewrite <- app_comm_cons. cbn [runAnalysis_rules].
  destruct (if rule_enabled this langID uri rule then _ else _) as [mid| |];
    [|done|done].
  cbn [mbind Outcome_bind]. apply IH.
Qed.

Lemma runAnalysis_rules_settings fuel this rules0 doc langID uri rules problems :
  runAnalysis_rules fuel (with_rules this rules0) doc langID uri rules problems
  = runAnalysis_rules fuel this doc langID uri rules problems.
Proof.
  revert problems. induction rules as [|rule rules IH]; intros problems; [done|].
  cbn [runAnalysis_rules].
  change (rule_enabled (with_rules this rules0) langID uri rule)
    with (rule_enabled this langID uri rule).
  destruct (if rule_enabled this langID uri rule then _ else _) as [mid| |];
    [|done|done].
  cbn [mbind Outcome_bind]. apply IH.
Qed.

(** X14. Problems come out in rule order: analysing a document with the
    rules [rs1 ++ rs2] gives the problems found with [rs1] followed by
    the problems found with [rs2], and fails or spins when one of the
    two parts does. *)
Theorem runAnalysis_of_appended_rules
    (fuel : nat) (this : DevSkimWorker) (doc langID uri : string)
    (rs1 rs2 : list Rule) :
  runAnalysis fuel (with_rules this (rs1 ++ rs2)) doc langID uri
  = (first ← runAnalysis fuel (with_rules this rs1) doc langID uri;
     second ← runAnalysis fuel (with_rules this rs2) doc langID uri;
     Returns (first ++ second)%list).
Proof.
  unfold runAnalysis.
  change (default [] (analysisRules (with_rules this (rs1 ++ rs2))))
    with (rs1 ++ rs2)%list.
  change (default [] (analysisRules (with_rules this rs1))) with rs1.
  change (default [] (analysisRules (with_rules this rs2))) with rs2.
  rewrite !runAnalysis_rules_settings, runAnalysis_rules_app.
  destruct (runAnalysis_rules fuel this doc langID uri rs1 []) as [first| |];
    [|done|done].
  cbn [mbind Outcome_bind]. apply runAnalysis_rules_acc.
Qed.

End RuleOrder.

Section LinesAndOffsets.

Lemma is_LF_not_CR c : is_LF c = true → is_CR c = false.
Proof. intros H. apply Ascii.eqb_eq in H. by subst c. Qed.

Lemma linebreaks_after_nonneg b s : 0 ≤ linebreaks_after b s.
Proof.
  revert b. induction s as [|c s IH]; intros b; simpl; [done|].
  pose proof (IH true). pose proof (IH false).
  destruct (is_CR c); [lia|]. destruct (is_LF c); [|done].
  destruct b; lia.
Qed.

Lemma linebreaks_after_start b s :
  starts_with_LF s = false → linebreaks_after b s = linebreaks_after false s.
Proof.
  destruct s as [|c s]; simpl; [done|]. intros ->. done.
Qed.

(** The greedy count of [/(\r\n|\n|\r)/g] is the count of the line
    feeds that do not follow a carriage return, plus the carriage
    returns. *)
Lemma count_linebreaks_after s :
  count_linebreaks s = linebreaks_after false s.
Proof.
  assert (∀ n s, (String.length s ≤ n)%nat →
                 count_linebreaks s = linebreaks_after false s) as H;
    [|by apply (H (String.length s))].
  clear s. induction n as [|n IH]; intros [|c s] Hn; simpl in *;
    try done; try lia.
  destruct (is_CR c).
  - destruct s as [|c' s']; [done|].
    destruct (is_LF c') eqn:Hlf.
    + cbn [linebreaks_after]. rewrite (is_LF_not_CR _ Hlf), Hlf.
      rewrite (IH s') by (simpl in Hn; lia). lia.
    + rewrite (IH (String c' s')) by lia.
      rewrite (linebreaks_after_start true); [done|]. exact Hlf.
  - rewrite (IH s) by lia. by destruct (is_LF c).
Qed.

Lemma count_linebreaks_nonneg s : 0 ≤ count_linebreaks s.
Proof. rewrite count_linebreaks_after. apply linebreaks_after_nonneg. Qed.

Lemma linebreaks_after_app b x y :
  linebreaks_after b (x ++ y)
  = linebreaks_after b x + linebreaks_after (ends_with_CR b x) y.
Proof.
  revert b. induction x as [|c x IH]; intros b; [reflexivity|].
  rewrite append_cons. cbn [linebreaks_after ends_with_CR].
  rewrite !IH. destruct (is_CR c); [lia|]. destruct (is_LF c); lia.
Qed.

Lemma ends_with_CR_app b x y :
  ends_with_CR b (x ++ y) = ends_with_CR (ends_with_CR b x) y.
Proof.
  revert b. induction x as [|c x IH]; intros b; [reflexivity|].
  rewrite append_cons. cbn [ends_with_CR]. apply IH.
Qed.

Lemma no_linebreak_after b s :
  no_linebreak s = true →
  linebreaks_after b s = 0
  ∧ ends_with_CR b s = match s with EmptyString => b | _ => false end.
Proof.
  revert b. induction s as [|c s IH]; intros b H; simpl in *; [done|].
  apply andb_true_iff in H as [H Hs]. apply andb_true_iff in H as [Hcr Hlf].
  apply negb_true_iff in Hcr, Hlf. rewrite Hcr, Hlf.
  destruct (IH false Hs) as [-> Hend]. split; [done|].
  rewrite Hend. by destruct s.
Qed.

(** The count splits at any point that is not between a carriage
    return and the line feed after it. *)
Lemma count_linebreaks_app x y :
  ends_with_CR false x && starts_with_LF y = false →
  count_linebreaks (x ++ y) = count_linebreaks x + count_linebreaks y.
Proof.
  intros Hcut. rewrite !count_linebreaks_after, linebreaks_after_app.
  f_equal. destruct (ends_with_CR false x); [|done].
  apply linebreaks_after_start. exact Hcut.
Qed.

Lemma len_app x y : len (x ++ y) = len x + len y.
Proof.
  induction x as [|c x IH]; [reflexivity|].
  rewrite append_cons, !len_cons, IH. lia.
Qed.

Lemma substring_prefix x y :
  String.substring 0 (String.length x) (x ++ y) = x.
Proof.
  induction x as [|c x IH]; [by destruct y|].
  rewrite append_cons. simpl. by rewrite IH.
Qed.

Lemma substr_prefix x y : substr (x ++ y) 0 (len x) = x.
Proof.
  unfold substr, len. simpl. rewrite Nat2Z.id.
  change (Z.to_nat 0) with 0%nat. apply substring_prefix.
Qed.

Lemma substr_all s : substr s 0 (len s) = s.
Proof.
  rewrite <- (append_empty_r s) at 1. apply substr_prefix.
Qed.

(** A search from a position inside the document skips what is before
    it. *)
Lemma linebreak_exec_at_skip pre suf off :
  linebreak_exec_at (pre ++ suf) off (off + len pre)
  = linebreak_exec_at suf (off + len pre) (off + len pre).
Proof.
  revert off. induction pre as [|c pre IH]; intros off.
  { change (len EmptyString) with 0. rewrite Z.add_0_r. reflexivity. }
  rewrite append_cons, len_cons. cbn [linebreak_exec_at].
  pose proof (len_nonneg pre).
  assert ((off <? off + (1 + len pre)) = true) as -> by (apply Z.ltb_lt; lia).
  replace (off + (1 + len pre)) with (off + 1 + len pre) by lia.
  apply IH.
Qed.

(** What the search finds: the first line break at or after the
    position, a carriage return taken together with the line feed that
    follows it. *)
Lemma linebreak_exec_at_first suf off pos :
  pos ≤ off →
  match linebreak_exec_at suf off pos with
  | None => no_linebreak suf = true
  | Some m =>
      ∃ mid rest,
        suf = mid ++ matched m ++ rest
        ∧ index m = off + len mid
        ∧ no_linebreak mid = true
        ∧ (matched m = CR ++ LF
           ∨ (matched m = CR ∧ starts_with_LF rest = false)
           ∨ matched m = LF)
  end.
Proof.
  revert off. induction suf as [|c s IH]; intros off Hpos; [done|].
  cbn [linebreak_exec_at].
  assert ((off <? pos) = false) as -> by (apply Z.ltb_ge; lia).
  destruct (is_CR c) eqn:Hcr.
  { apply Ascii.eqb_eq in Hcr. subst c.
    destruct s as [|c' s'].
    - exists EmptyString, EmptyString. simpl.
      split; [reflexivity|]. split; [change (len EmptyString) with 0; lia|].
      split; [done|]. right. left. done.
    - destruct (is_LF c') eqn:Hlf.
      + apply Ascii.eqb_eq in Hlf. subst c'.
        exists EmptyString, s'. simpl.
        split; [reflexivity|]. split; [change (len EmptyString) with 0; lia|].
        split; [done|]. by left.
      + exists EmptyString, (String c' s'). simpl.
        split; [reflexivity|]. split; [change (len EmptyString) with 0; lia|].
        split; [done|]. right. left. done. }
  destruct (is_LF c) eqn:Hlf.
  { apply Ascii.eqb_eq in Hlf. subst c.
    exists EmptyString, s. simpl.
    split; [reflexivity|]. split; [change (len EmptyString) with 0; lia|].
    split; [done|]. by right; right. }
  specialize (IH (off + 1) ltac:(lia)).
  destruct (linebreak_exec_at s (off + 1) pos) as [m|].
  - destruct IH as (mid & rest & -> & Hidx & Hmid & Hkind).
    exists (String c mid), rest. rewrite append_cons, len_cons.
    split; [done|]. split; [lia|]. split; [|done].
    simpl. by rewrite Hcr, Hlf, Hmid.
  - simpl. by rewrite Hcr, Hlf, IH.
Qed.

Lemma no_linebreak_app x y :
  no_linebreak (x ++ y) = no_linebreak x && no_linebreak y.
Proof.
  induction x as [|c x IH]; [reflexivity|].
  rewrite append_cons. simpl. rewrite IH. by rewrite andb_assoc.
Qed.

(** Two ways of cutting one text share the shorter first part. *)
Lemma append_eq_split (x y u v : string) :
  x ++ y = u ++ v → len x ≤ len u → ∃ t, u = x ++ t ∧ y = t ++ v.
Proof.
  revert u. induction x as [|c x IH]; intros u Heq Hlen.
  { exists u. done. }
  destruct u as [|d u].
  { rewrite len_cons in Hlen. pose proof (len_nonneg x).
    change (len EmptyString) with 0 in Hlen. lia. }
  rewrite !append_cons in Heq. injection Heq as -> Heq.
  rewrite !len_cons in Hlen.
  destruct (IH u Heq ltac:(lia)) as (t & -> & ->). by exists t.
Qed.

(** A cut that is after [pre], before the end of the first line break
    after it, and not inside that line break, has the line breaks of
    [pre]. *)
Lemma count_linebreaks_before_next pre mid lb rest a b :
  no_linebreak mid = true →
  (lb = CR ++ LF ∨ lb = CR ∨ lb = LF) →
  pre ++ mid ++ lb ++ rest = a ++ b →
  len pre ≤ len a < len pre + len mid + len lb →
  ends_with_CR false a && starts_with_LF b = false →
  count_linebreaks a = count_linebreaks pre.
Proof.
  intros Hmid Hkind Heq Hlen Hcut.
  destruct (append_eq_split pre (mid ++ lb ++ rest) a b Heq ltac:(lia))
    as (a' & -> & Hrest).
  rewrite len_app in Hlen.
  rewrite !count_linebreaks_after, linebreaks_after_app.
  destruct (decide (len a' ≤ len mid)) as [Hin|Hout].
  - symmetry in Hrest.
    destruct (append_eq_split a' b mid (lb ++ rest) Hrest Hin) as (t & -> & _).
    rewrite no_linebreak_app in Hmid. apply andb_true_iff in Hmid as [Ha' _].
    destruct (no_linebreak_after (ends_with_CR false pre) a' Ha') as [-> _].
    lia.
  - exfalso.
    destruct (append_eq_split mid (lb ++ rest) a' b Hrest ltac:(lia))
      as (t & -> & Hlb).
    rewrite len_app in Hlen, Hout.
    destruct t as [|c t]; [change (len EmptyString) with 0 in Hout; lia|].
    rewrite len_cons in Hlen. pose proof (len_nonneg t).
    destruct Hkind as [->|[->| ->]];
      [change (len (CR ++ LF)) with 2 in Hlen
      |change (len CR) with 1 in Hlen; lia
      |change (len LF) with 1 in Hlen; lia].
    assert (t = EmptyString) as -> by (apply len_zero_empty; lia).
    vm_compute in Hlb. injection Hlb as <- <-.
    rewrite !ends_with_CR_app in Hcut. done.
Qed.

(** The loop of [GetDocumentPosition], started after [pre] with
    [line - 1] line breaks behind it and the line [n] still ahead: it
    returns the first offset with [n] line breaks before it, or the end
    of the document when there are fewer. *)
Lemma GetDocumentPosition_loop_line fuel pre suf line_ n :
  (String.length suf < fuel)%nat →
  ends_with_CR false pre && starts_with_LF suf = false →
  count_linebreaks pre = line_ - 1 →
  line_ ≤ n →
  ∃ p, GetDocumentPosition_loop fuel (pre ++ suf) (Num (n + 1)) line_
         (linebreak_exec (pre ++ suf) (len pre)) = Returns p
       ∧ len pre ≤ p ≤ len (pre ++ suf)
       ∧ count_linebreaks (substr (pre ++ suf) 0 p)
         = Z.min n (count_linebreaks (pre ++ suf))
       ∧ (count_linebreaks (pre ++ suf) < n → p = len (pre ++ suf))
       ∧ (∀ a b, pre ++ suf = a ++ b → len pre ≤ len a < p →
            ends_with_CR false a && starts_with_LF b = false →
            count_linebreaks a < n).
Proof.
  revert pre suf line_.
  induction fuel as [|fuel IH]; intros pre suf line_ Hfuel Hcut Hcount Hline;
    [lia|].
  cbn [GetDocumentPosition_loop]. unfold linebreak_exec.
  pose proof (linebreak_exec_at_skip pre suf 0) as Hskip.
  rewrite Z.add_0_l in Hskip. rewrite Hskip. clear Hskip.
  pose proof (linebreak_exec_at_first suf (len pre) (len pre) ltac:(lia))
    as Hfirst.
  pose proof (len_nonneg pre). pose proof (len_nonneg suf).
  destruct (linebreak_exec_at suf (len pre) (len pre)) as [m|].
  - destruct Hfirst as (mid & rest & -> & Hidx & Hmid & Hkind).
    destruct (no_linebreak_after (ends_with_CR false pre) mid Hmid)
      as [Hmid0 Hmidend].
    set (pre' := (pre ++ mid) ++ matched m).
    assert (pre ++ mid ++ matched m ++ rest = pre' ++ rest) as Hdoc.
    { unfold pre'. by rewrite !append_assoc. }
    assert (len pre' = index m + len (matched m)) as Hlen.
    { unfold pre'. rewrite !len_app. lia. }
    assert (1 ≤ len (matched m)) as Hm.
    { destruct Hkind as [->|[[-> _]| ->]]; by vm_compute. }
    assert (ends_with_CR false (pre ++ mid) && starts_with_LF (matched m)
            = false) as Hcut'.
    { rewrite ends_with_CR_app, Hmidend. destruct mid as [|c mid']; [|done].
      destruct (ends_with_CR false pre); [|done].
      destruct Hkind as [Hk|[[Hk _]|Hk]]; rewrite Hk in *; done. }
    assert (count_linebreaks pre' = line_) as Hcount'.
    { unfold pre'. rewrite count_linebreaks_app by exact Hcut'.
      rewrite (count_linebreaks_after (pre ++ mid)), linebreaks_after_app.
      rewrite Hmid0, <- count_linebreaks_after, Hcount.
      destruct Hkind as [->|[[-> _]| ->]]; vm_compute (count_linebreaks _); lia. }
    assert (ends_with_CR false pre' && starts_with_LF rest = false) as Hcut''.
    { unfold pre'. rewrite ends_with_CR_app.
      by destruct Hkind as [->|[[-> ->]| ->]]. }
    assert (∀ a b, pre ++ mid ++ matched m ++ rest = a ++ b →
              len pre ≤ len a < len pre' →
              ends_with_CR false a && starts_with_LF b = false →
              count_linebreaks a = line_ - 1) as Hbetween.
    { intros a b Hab Ha Hgood. rewrite <- Hcount.
      apply (count_linebreaks_before_next pre mid (matched m) rest a b);
        [done| |done|lia|done].
      destruct Hkind as [->|[[-> _]| ->]]; auto. }
    rewrite Hdoc in *. rewrite <- Hlen. pose proof (len_nonneg mid).
    pose proof (len_nonneg rest).
    destruct (number_eq (line_ + 1) (Num (n + 1))) eqn:Heq.
    + simpl in Heq. apply Z.eqb_eq in Heq.
      exists (len pre'). split; [done|]. rewrite len_app.
      split; [lia|]. rewrite substr_prefix.
      rewrite count_linebreaks_app, Hcount' by exact Hcut''.
      pose proof (count_linebreaks_nonneg rest).
      split; [lia|]. split; [lia|].
      intros a b Hab Ha Hgood. rewrite (Hbetween a b Hab Ha Hgood). lia.
    + simpl in Heq. apply Z.eqb_neq in Heq.
      destruct (IH pre' rest (line_ + 1))
        as (p & Hp & Hbound & Hround & Hpast & Hleast).
      { assert (len (mid ++ matched m ++ rest)
                = len mid + len (matched m) + len rest) as Hall
          by (rewrite !len_app; lia).
        unfold len in *. lia. }
      { exact Hcut''. }
      { lia. }
      { lia. }
      exists p. split; [exact Hp|]. split; [lia|].
      split; [exact Hround|]. split; [exact Hpast|].
      intros a b Hab Ha Hgood.
      destruct (decide (len a < len pre')) as [Hbefore|Hafter].
      * rewrite (Hbetween a b Hab ltac:(lia) Hgood). lia.
      * apply (Hleast a b Hab ltac:(lia) Hgood).
  - exists (len (pre ++ suf)). split; [done|]. rewrite len_app.
    split; [lia|]. rewrite <- len_app, substr_all.
    destruct (no_linebreak_after (ends_with_CR false pre) suf Hfirst)
      as [Hsuf0 _].
    rewrite count_linebreaks_after, linebreaks_after_app, Hsuf0.
    rewrite <- count_linebreaks_after.
    split; [lia|]. split; [done|].
    intros a b Hab Ha Hgood. rewrite len_app in Ha.
    destruct (append_eq_split pre suf a b Hab ltac:(lia)) as (a' & -> & ->).
    rewrite no_linebreak_app in Hfirst.
    apply andb_true_iff in Hfirst as [Ha' _].
    destruct (no_linebreak_after (ends_with_CR false pre) a' Ha') as [Hzero _].
    rewrite count_linebreaks_after, linebreaks_after_app, Hzero.
    rewrite <- count_linebreaks_after. lia.
Qed.

(** What [GetDocumentPosition] returns for a line number from [1] on:
    the first offset that has that many line breaks before it, the end
    of the document when there are fewer. *)
Lemma GetDocumentPosition_line doc n :
  1 ≤ n →
  ∃ p, GetDocumentPosition doc (Num n) = Returns p
       ∧ 0 ≤ p ≤ len doc
       ∧ count_linebreaks (substr doc 0 p) = Z.min n (count_linebreaks doc)
       ∧ (count_linebreaks doc < n → p = len doc)
       ∧ (∀ a b, doc = a ++ b → len a < p →
            ends_with_CR false a && starts_with_LF b = false →
            count_linebreaks a < n).
Proof.
  intros Hn. unfold GetDocumentPosition. cbn [number_lt number_incr].
  assert ((n <? 1) = false) as -> by (apply Z.ltb_ge; lia).
  destruct (GetDocumentPosition_loop_line
              (S (String.length doc)) EmptyString doc 1 n)
    as (p & Hp & Hbound & Hround & Hpast & Hleast); [lia|done|done|lia|].
  change (EmptyString ++ doc) with doc in *.
  change (len EmptyString) with 0 in *.
  exists p. split; [exact Hp|]. split; [lia|]. split; [exact Hround|].
  split; [exact Hpast|].
  intros a b Hab Ha Hgood. apply (Hleast a b Hab); [|done].
  pose proof (len_nonneg a). lia.
Qed.

(** X15. [GetDocumentPosition] and [GetLineNumber] agree: for every
    document and every line number, [GetDocumentPosition] returns an
    offset inside the document, and [GetLineNumber] at that offset is
    the line number asked for, cut to the lines the document has (and
    line [0] for a negative number). *)
Theorem GetLineNumber_of_GetDocumentPosition
    (documentContents : string) (lineNumber : Z) :
  ∃ position,
    GetDocumentPosition documentContents (Num lineNumber) = Returns position
    ∧ 0 ≤ position ≤ len documentContents
    ∧ GetLineNumber documentContents position
      = Z.max 0 (Z.min lineNumber (count_linebreaks documentContents)).
Proof.
  pose proof (len_nonneg documentContents).
  pose proof (count_linebreaks_nonneg documentContents).
  destruct (decide (lineNumber < 1)) as [Hlt|Hge].
  - unfold GetDocumentPosition, GetLineNumber. cbn [number_lt].
    assert ((lineNumber <? 1) = true) as -> by (apply Z.ltb_lt; lia).
    exists 0. split; [done|]. split; [lia|].
    assert (substr documentContents 0 0 = EmptyString) as ->.
    { unfold substr. simpl. by destruct documentContents. }
    simpl. lia.
  - destruct (GetDocumentPosition_line documentContents lineNumber ltac:(lia))
      as (p & Hp & Hbound & Hround & _).
    exists p. split; [exact Hp|]. split; [exact Hbound|].
    unfold GetLineNumber. rewrite Hround. lia.
Qed.


End LinesAndOffsets.

Section CodeActionSequence.

Context {collab : Collaborators}.

(** What a call with a fix and a rule id stores, and where. *)
Lemma recordCodeAction_stores
    (codeActions : gmap string (gmap string AutoFix)) uri version range code
    fix_ ruleID :
  truthy ruleID = true →
  let edits := default ∅ (codeActions !! uri) in
  let key := computeKey range code in
  ∃ x : nat,
    recordCodeAction codeActions uri version range code (Some fix_)
      (Some ruleID)
    = Returns (<[uri := <[key ++ toString10 x :=
                            {| label := fix_label fix_ ruleID;
                               documentVersion := version;
                               af_ruleId := ruleID; edit := fix_ |}]> edits]>
                 codeActions)
    ∧ edits !! (key ++ toString10 x) = None
    ∧ ∀ y, (y < x)%nat → is_Some (edits !! (key ++ toString10 y)).
Proof.
  intros Hid edits key. unfold recordCodeAction. rewrite Hid.
  fold (fix_label fix_ ruleID).
  destruct (codeActions !! uri) as [m|] eqn:Huri; subst edits;
    cbn [default].
  - destruct (recordCodeAction_ordinal_finds (S (size m)) m key 0%nat)
      as (x & Hx & _ & Hfree & Hused); [lia|].
    exists x. fold key. rewrite Hx. split; [done|]. split; [done|].
    intros y Hy. apply Hused. lia.
  - destruct (recordCodeAction_ordinal_finds
                (S (size (∅ : gmap string AutoFix))) ∅ key 0%nat)
      as (x & Hx & _ & Hfree & Hused); [lia|].
    exists x. fold key. rewrite Hx. split; [|split; [done|]].
    + cbn [mbind Outcome_bind]. by rewrite insert_insert_eq.
    + intros y Hy. apply Hused. lia.
Qed.

(** X16. Two fixes recorded one after the other for the same diagnostic
    of the same document do not overwrite each other: both calls
    return, the second fix gets a larger ordinal than the first, and
    both are then found under the document at their own keys, with the
    version and rule id they were recorded with. *)
Theorem recordCodeAction_twice
    (codeActions : gmap string (gmap string AutoFix))
    (documentURI : string) (version1 version2 : Z) (range : Range)
    (diagnosticCode : DiagnosticCode) (fix1 fix2 : DevSkimAutoFixEdit)
    (ruleID1 ruleID2 : string) :
  truthy ruleID1 = true →
  truthy ruleID2 = true →
  let key := computeKey range diagnosticCode in
  ∃ once twice edits (x1 x2 : nat),
    recordCodeAction codeActions documentURI version1 range diagnosticCode
      (Some fix1) (Some ruleID1) = Returns once
    ∧ recordCodeAction once documentURI version2 range diagnosticCode
        (Some fix2) (Some ruleID2) = Returns twice
    ∧ (x1 < x2)%nat
    ∧ twice !! documentURI = Some edits
    ∧ edits !! (key ++ toString10 x1)
      = Some {| label := fix_label fix1 ruleID1; documentVersion := version1;
                af_ruleId := ruleID1; edit := fix1 |}
    ∧ edits !! (key ++ toString10 x2)
      = Some {| label := fix_label fix2 ruleID2; documentVersion := version2;
                af_ruleId := ruleID2; edit := fix2 |}.
Proof.
  intros Hid1 Hid2 key.
  destruct (recordCodeAction_stores codeActions documentURI version1 range
              diagnosticCode fix1 ruleID1 Hid1) as (x1 & Hone & Hfree1 & Hused1).
  fold key in Hone, Hfree1, Hused1.
  set (edits0 := default ∅ (codeActions !! documentURI)) in *.
  set (entry1 := {| label := fix_label fix1 ruleID1;
                    documentVersion := version1;
                    af_ruleId := ruleID1; edit := fix1 |}) in *.
  set (once := <[documentURI := <[key ++ toString10 x1 := entry1]> edits0]>
                 codeActions) in *.
  destruct (recordCodeAction_stores once documentURI version2 range
              diagnosticCode fix2 ruleID2 Hid2) as (x2 & Htwo & Hfree2 & Hused2).
  fold key in Htwo, Hfree2, Hused2.
  assert (once !! documentURI = Some (<[key ++ toString10 x1 := entry1]> edits0))
    as Honce by apply lookup_insert_eq.
  rewrite Honce in Htwo, Hfree2, Hused2. simpl in Htwo, Hfree2, Hused2.
  assert (x1 ≠ x2) as Hne.
  { intros <-. by rewrite lookup_insert_eq in Hfree2. }
  assert (x1 < x2)%nat as Hlt.
  { destruct (decide (x2 < x1)%nat) as [Hbefore|]; [|lia].
    destruct (Hused1 x2 Hbefore) as [a Ha].
    rewrite lookup_insert_ne in Hfree2; [congruence|].
    intros Heq. apply ordinal_key_inj in Heq. lia. }
  eexists once, _, _, x1, x2.
  split; [exact Hone|]. split; [exact Htwo|]. split; [exact Hlt|].
  split; [apply lookup_insert_eq|]. split.
  - rewrite lookup_insert_ne; [apply lookup_insert_eq|].
    intros Heq. apply ordinal_key_inj in Heq. lia.
  - apply lookup_insert_eq.
Qed.

End CodeActionSequence.

Section CodeActionSequenceRuns.

Import Inputs2.

Lemma recordCodeAction_twice_witness :
  truthy "DS001" = true
  ∧ truthy "DS001" = true
  ∧ ∃ once twice edits (x1 x2 : nat),
      recordCodeAction ∅ "file.c" 1 (Range_create 0 0 0 6) (CodeString "DS001")
        (Some (strcpy_edit "DevSkim: Change to strlcpy" "strlcpy"))
        (Some "DS001") = Returns once
      ∧ recordCodeAction once "file.c" 1 (Range_create 0 0 0 6)
          (CodeString "DS001")
          (Some (strcpy_edit "DevSkim: Change to strcpy_s" "strcpy_s"))
          (Some "DS001") = Returns twice
      ∧ (x1 < x2)%nat
      ∧ twice !! "file.c" = Some edits
      ∧ edits !! (computeKey (Range_create 0 0 0 6) (CodeString "DS001")
                  ++ toString10 x1)
        = Some {| label := fix_label
                             (strcpy_edit "DevSkim: Change to strlcpy" "strlcpy")
                             "DS001";
                  documentVersion := 1; af_ruleId := "DS001";
                  edit := strcpy_edit "DevSkim: Change to strlcpy" "strlcpy" |}
      ∧ edits !! (computeKey (Range_create 0 0 0 6) (CodeString "DS001")
                  ++ toString10 x2)
        = Some {| label := fix_label
                             (strcpy_edit "DevSkim: Change to strcpy_s" "strcpy_s")
                             "DS001";
                  documentVersion := 1; af_ruleId := "DS001";
                  edit := strcpy_edit "DevSkim: Change to strcpy_s" "strcpy_s" |}.
Proof.
  split; [reflexivity|]. split; [reflexivity|].
  exact (recordCodeAction_twice ∅ "file.c" 1 1 (Range_create 0 0 0 6)
           (CodeString "DS001")
           (strcpy_edit "DevSkim: Change to strlcpy" "strlcpy")
           (strcpy_edit "DevSkim: Change to strcpy_s" "strcpy_s")
           "DS001" "DS001" eq_refl eq_refl).
Defined.

End CodeActionSequenceRuns.

Section MatchRangeShape.

Lemma lastIndexOf_at_range s sub off :
  0 ≤ off → sub ≠ EmptyString →
  lastIndexOf_at s sub off = -1
  ∨ off ≤ lastIndexOf_at s sub off < off + len s.
Proof.
  intros Hoff Hsub. revert off Hoff.
  induction s as [|c s IH]; intros off Hoff.
  { left. simpl. by destruct sub. }
  cbn [lastIndexOf_at]. rewrite len_cons. pose proof (len_nonneg s).
  destruct (IH (off + 1) ltac:(lia)) as [Hnone|Hlater].
  - rewrite Hnone. change (0 <=? -1) with false. cbv iota.
    destruct (String.prefix sub (String c s)); [right; lia|by left].
  - assert ((0 <=? lastIndexOf_at s sub (off + 1)) = true) as ->
      by (apply Z.leb_le; lia).
    right. lia.
Qed.

Lemma length_substring_le n s :
  (String.length (String.substring 0 n s) ≤ n)%nat.
Proof.
  revert s. induction n as [|n IH]; intros [|c s]; simpl; try lia.
  specialize (IH s). lia.
Qed.

(** X17. The range [runAnalysis] gives a match found at a non-negative
    index starts at a line and a column that are not negative, the
    column being at most the index of the match; the range does not end
    on an earlier line than it starts, and when it ends on the same
    line, not at an earlier column. *)
Theorem match_range_not_reversed (documentContents : string) (m : RegExpMatch) :
  0 ≤ index m →
  let r := match_range documentContents m in
  0 ≤ line (start r) ≤ line (end_ r)
  ∧ 0 ≤ character (start r) ≤ index m
  ∧ (line (start r) = line (end_ r) →
     character (start r) ≤ character (end_ r)).
Proof.
  intros Hidx r.
  pose proof (match_range_lineEnd documentContents m) as Hend. fold r in Hend.
  pose proof (count_linebreaks_nonneg
                (substr documentContents (index m) (len (matched m)))) as Hin.
  assert (0 ≤ line (start r)) as Hline
    by apply count_linebreaks_nonneg.
  assert (0 ≤ character (start r) ≤ index m) as Hcol.
  { subst r. unfold match_range, newlineIndex_of. cbn [start character Range_create].
    destruct (GetLineNumber documentContents (index m) =? 0); [lia|].
    unfold lastIndexOf.
    destruct (lastIndexOf_at_range (substr documentContents 0 (index m)) LF 0)
      as [->|Hlast]; [lia|done|lia|].
    assert (len (substr documentContents 0 (index m)) ≤ index m) as Hlen.
    { unfold substr, len. simpl. change (Z.to_nat 0) with 0%nat.
      pose proof (length_substring_le (Z.to_nat (index m)) documentContents).
      lia. }
    lia. }
  split; [lia|]. split; [exact Hcol|].
  intros Hsame. subst r. unfold match_range in *.
  cbn [start end_ line character Range_create] in *.
  apply Z.eqb_eq in Hsame. rewrite Hsame.
  pose proof (len_nonneg (matched m)). lia.
Qed.

Lemma match_range_not_reversed_witness :
  0 ≤ index (mkMatch 3 "cd")
  ∧ let r := match_range ("ab" ++ LF ++ "cd") (mkMatch 3 "cd") in
    0 ≤ line (start r) ≤ line (end_ r)
    ∧ 0 ≤ character (start r) ≤ index (mkMatch 3 "cd")
    ∧ (line (start r) = line (end_ r) →
       character (start r) ≤ character (end_ r)).
Proof.
  assert (0 ≤ index (mkMatch 3 "cd")) as H by (simpl; lia).
  split; [exact H|].
  exact (match_range_not_reversed ("ab" ++ LF ++ "cd") (mkMatch 3 "cd") H).
Defined.

End MatchRangeShape.

Section BlockCommentedLines.

Import SourceContext.

Lemma prefix_split (sub s : string) :
  String.prefix sub s = true → ∃ t, s = sub ++ t.
Proof.
  revert s. induction sub as [|x sub IH]; intros s H; [by exists s|].
  destruct s as [|y s]; simpl in H; [done|].
  destruct (ascii_dec x y) as [->|]; [|done].
  destruct (IH s H) as [t ->]. by exists t.
Qed.

Lemma append_inj_len (a b x y : string) :
  a ++ x = b ++ y → len a = len b → a = b ∧ x = y.
Proof.
  revert b. induction a as [|c a IH]; intros [|d b] Heq Hlen.
  - done.
  - rewrite len_cons in Hlen. pose proof (len_nonneg b).
    change (len EmptyString) with 0 in Hlen. lia.
  - rewrite len_cons in Hlen. pose proof (len_nonneg a).
    change (len EmptyString) with 0 in Hlen. lia.
  - rewrite !append_cons in Heq. injection Heq as -> Heq.
    rewrite !len_cons in Hlen.
    destruct (IH b Heq ltac:(lia)) as [-> ->]. done.
Qed.

Lemma lastIndexOf_at_lower s sub off :
  0 ≤ off →
  lastIndexOf_at s sub off = -1 ∨ off ≤ lastIndexOf_at s sub off.
Proof.
  revert off. induction s as [|c s IH]; intros off Hoff.
  { cbn [lastIndexOf_at].
    destruct (String.prefix sub EmptyString); [right; lia|by left]. }
  cbn [lastIndexOf_at].
  destruct (IH (off + 1) ltac:(lia)) as [Hnone|Hlater].
  - rewrite Hnone. change (0 <=? -1) with false. cbv iota.
    destruct (String.prefix sub (String c s)); [right; lia|by left].
  - assert ((0 <=? lastIndexOf_at s sub (off + 1)) = true) as ->
      by (apply Z.leb_le; lia).
    right. lia.
Qed.

(** A result that is not negative is the offset of an occurrence. *)
Lemma lastIndexOf_at_occurs s sub off :
  0 ≤ off → 0 ≤ lastIndexOf_at s sub off →
  ∃ a b, s = a ++ b ∧ lastIndexOf_at s sub off = off + len a
         ∧ String.prefix sub b = true.
Proof.
  revert off. induction s as [|c s IH]; intros off Hoff Hfound.
  { cbn [lastIndexOf_at] in *.
    destruct (String.prefix sub EmptyString) eqn:Hp; [|lia].
    exists EmptyString, EmptyString.
    change (len EmptyString) with 0. split; [done|]. split; [lia|done]. }
  cbn [lastIndexOf_at] in *.
  destruct (0 <=? lastIndexOf_at s sub (off + 1)) eqn:Hlater.
  - apply Z.leb_le in Hlater.
    destruct (IH (off + 1) ltac:(lia) Hlater) as (a & b & -> & Hr & Hp).
    exists (String c a), b. rewrite append_cons, len_cons.
    split; [done|]. split; [lia|done].
  - destruct (String.prefix sub (String c s)) eqn:Hp; [|lia].
    exists EmptyString, (String c s).
    change (len EmptyString) with 0. split; [done|]. split; [lia|done].
Qed.

(** No occurrence lies after the result. *)
Lemma lastIndexOf_at_last a b sub off :
  0 ≤ off → String.prefix sub b = true →
  off + len a ≤ lastIndexOf_at (a ++ b) sub off.
Proof.
  revert off. induction a as [|c a IH]; intros off Hoff Hp.
  - change (EmptyString ++ b) with b. change (len EmptyString) with 0.
    destruct b as [|c b].
    + cbn [lastIndexOf_at]. rewrite Hp. lia.
    + cbn [lastIndexOf_at].
      destruct (lastIndexOf_at_lower b sub (off + 1) ltac:(lia))
        as [Hnone|Hlater].
      * rewrite Hnone. change (0 <=? -1) with false. cbv iota.
        rewrite Hp. lia.
      * assert ((0 <=? lastIndexOf_at b sub (off + 1)) = true) as ->
          by (apply Z.leb_le; lia).
        lia.
  - rewrite append_cons, len_cons. cbn [lastIndexOf_at].
    specialize (IH (off + 1) ltac:(lia) Hp). pose proof (len_nonneg a).
    assert ((0 <=? lastIndexOf_at (a ++ b) sub (off + 1)) = true) as ->
      by (apply Z.leb_le; lia).
    lia.
Qed.

(** The last occurrence in a text that ends with the searched text is
    that end. *)
Lemma lastIndexOf_suffix (before sub : string) :
  lastIndexOf (before ++ sub) sub = len before.
Proof.
  unfold lastIndexOf.
  pose proof (lastIndexOf_at_last before sub sub 0 ltac:(lia) (prefix_refl sub))
    as Hlow.
  pose proof (len_nonneg before).
  destruct (lastIndexOf_at_occurs (before ++ sub) sub 0 ltac:(lia) ltac:(lia))
    as (a & b & Hsplit & Hr & Hp).
  apply prefix_len in Hp.
  apply (f_equal len) in Hsplit. rewrite !len_app in Hsplit. lia.
Qed.

(** A different text that is not shorter has its last occurrence
    earlier. *)
Lemma lastIndexOf_other_before (before st en : string) :
  len en ≤ len st → st ≠ en →
  lastIndexOf (before ++ en) st < len before.
Proof.
  intros Hlen Hne. unfold lastIndexOf.
  pose proof (len_nonneg before).
  destruct (lastIndexOf_at_lower (before ++ en) st 0 ltac:(lia))
    as [->|Hfound]; [lia|].
  destruct (lastIndexOf_at_occurs (before ++ en) st 0 ltac:(lia) Hfound)
    as (a & b & Hsplit & Hr & Hp).
  apply prefix_split in Hp as [t ->].
  rewrite Hr, Z.add_0_l.
  destruct (decide (len a < len before)) as [|Hge]; [done|]. exfalso.
  pose proof (f_equal len Hsplit) as Hl. rewrite !len_app in Hl.
  pose proof (len_nonneg t).
  symmetry in Hsplit.
  apply append_inj_len in Hsplit as [_ Hst]; [|lia].
  assert (t = EmptyString) as -> by (apply len_zero_empty; lia).
  rewrite append_empty_r in Hst. done.
Qed.

(** X18. [IsLineBlockCommented] answers whether the text, white space
    at its ends apart, ends with the closing delimiter of a block
    comment of the language: it holds exactly when the text is not
    empty, the language has block comments and the trimmed text ends
    with the closing delimiter.  Whether a comment was opened plays no
    part. *)
Theorem IsLineBlockCommented_iff_ends_with_closing
    (langID documentContents : string) :
  IsLineBlockCommented langID documentContents = true
  ↔ documentContents ≠ EmptyString
    ∧ GetBlockCommentEnd langID ≠ EmptyString
    ∧ ∃ before, trim documentContents = before ++ GetBlockCommentEnd langID.
Proof.
  unfold IsLineBlockCommented.
  set (t := trim documentContents).
  assert (∀ st en : string,
            0 < len st → len en ≤ len st → st ≠ en → 0 < len en →
            ((lastIndexOf t st <? lastIndexOf t en)
             && (lastIndexOf t en =? len t - len en) = true
             ↔ ∃ before, t = before ++ en)) as Hcore.
  { intros st en Hst Hlen Hne Hen. split.
    - intros H. apply andb_true_iff in H as [Hlt Hat].
      apply Z.ltb_lt in Hlt. apply Z.eqb_eq in Hat.
      unfold lastIndexOf in *.
      destruct (lastIndexOf_at_lower t st 0 ltac:(lia)) as [Hs|Hs];
        (destruct (lastIndexOf_at_occurs t en 0 ltac:(lia) ltac:(lia))
           as (a & b & Hsplit & Hr & Hp));
        apply prefix_split in Hp as [rest ->];
        pose proof (f_equal len Hsplit) as Hl; rewrite !len_app in Hl;
        pose proof (len_nonneg rest);
        (assert (rest = EmptyString) as -> by (apply len_zero_empty; lia));
        rewrite append_empty_r in Hsplit; by exists a.
    - intros [before Ht]. rewrite Ht, lastIndexOf_suffix, len_app.
      apply andb_true_iff. split.
      + apply Z.ltb_lt. by apply lastIndexOf_other_before.
      + apply Z.eqb_eq. lia. }
  destruct (len documentContents <? 1) eqn:Hempty.
  { apply Z.ltb_lt, len_zero_empty in Hempty. split; [done|].
    by intros [? _]. }
  assert (documentContents ≠ EmptyString) as Hdoc.
  { intros ->. done. }
  destruct (block_delimiters_paired langID)
    as [[-> ->]|[[-> ->]|[[-> ->]|[-> ->]]]].
  - change (0 <? len "/*") with true. change (0 <? len "*/") with true.
    cbn [andb]. rewrite Hcore; [|by vm_compute..]. by intuition.
  - change (0 <? len "(*") with true. change (0 <? len "*)") with true.
    cbn [andb]. rewrite Hcore; [|by vm_compute..]. by intuition.
  - change (0 <? len "<!--") with true. change (0 <? len "-->") with true.
    cbn [andb]. rewrite Hcore; [|by vm_compute..]. by intuition.
  - split; [done|]. by intros (_ & ? & _).
Qed.

End BlockCommentedLines.

Section ConditionRegion.

Context {engine : RegexEngine} {collab : Collaborators}.

Lemma linebreaks_after_CR_le s :
  linebreaks_after true s ≤ linebreaks_after false s.
Proof.
  destruct s as [|c s]; simpl; [done|].
  destruct (is_CR c); [done|]. destruct (is_LF c); lia.
Qed.

Lemma count_linebreaks_app_le x y :
  count_linebreaks x ≤ count_linebreaks (x ++ y)
  ∧ count_linebreaks (x ++ y) ≤ count_linebreaks x + count_linebreaks y.
Proof.
  rewrite !count_linebreaks_after, linebreaks_after_app.
  pose proof (linebreaks_after_nonneg (ends_with_CR false x) y).
  pose proof (linebreaks_after_CR_le y).
  destruct (ends_with_CR false x); lia.
Qed.

Lemma substring_0_add (i k : nat) (s : string) :
  String.substring 0 (i + k) s
  = String.substring 0 i s ++ String.substring i k s.
Proof.
  revert s. induction i as [|i IH]; intros s.
  { simpl. by destruct s. }
  destruct s as [|c s]; [by destruct k|].
  simpl. by rewrite IH.
Qed.

Lemma substring_split (i n : nat) (s : string) :
  (String.length s ≤ n)%nat →
  s = String.substring 0 i s ++ String.substring i n s.
Proof.
  revert s n. induction i as [|i IH]; intros s n Hn.
  { assert (String.substring 0 n s = s) as ->.
    { revert n Hn. induction s as [|c s IHs]; intros [|n] Hn; simpl in *;
        try done; try lia.
      by rewrite IHs by lia. }
    by destruct s. }
  destruct s as [|c s]; [done|].
  simpl. rewrite append_cons. f_equal. apply IH. simpl in Hn. lia.
Qed.

Lemma length_substring_0 (n : nat) (s : string) :
  (n ≤ String.length s)%nat → String.length (String.substring 0 n s) = n.
Proof.
  revert s. induction n as [|n IH]; intros [|c s] Hn; simpl in *;
    try done; try lia.
  rewrite IH; lia.
Qed.

Lemma substr_0_add doc i k :
  0 ≤ i → 0 ≤ k → substr doc 0 (i + k) = substr doc 0 i ++ substr doc i k.
Proof.
  intros Hi Hk. unfold substr.
  assert ((i <? 0) = false) as -> by (apply Z.ltb_ge; lia).
  simpl. change (Z.to_nat 0) with 0%nat.
  rewrite Z2Nat.inj_add by lia. apply substring_0_add.
Qed.

Lemma substr_split doc i :
  0 ≤ i → doc = substr doc 0 i ++ substr_from doc i.
Proof.
  intros Hi. unfold substr, substr_from.
  assert ((i <? 0) = false) as -> by (apply Z.ltb_ge; lia).
  simpl. change (Z.to_nat 0) with 0%nat. by apply substring_split.
Qed.

Lemma len_substr_0 doc i : 0 ≤ i ≤ len doc → len (substr doc 0 i) = i.
Proof.
  intros Hi. unfold substr, len in *. simpl. change (Z.to_nat 0) with 0%nat.
  rewrite length_substring_0; lia.
Qed.

(** X19. The region a condition is looked for in covers the finding:
    for a condition with no [search_in], or any [search_in] that is not
    the empty string, and the range of a match that lies in the
    document and does not start between a carriage return and its line
    feed, the region starts at or before the match and ends at or after
    its end, inside the document. *)
Theorem condition_region_covers_finding
    (condition : Condition) (documentContents : string) (m : RegExpMatch) :
  match search_in condition with
  | Some s => truthy s = true
  | None => True
  end →
  0 ≤ index m →
  index m + len (matched m) ≤ len documentContents →
  inside_CRLF documentContents (index m) = false →
  ∃ startPos endPos,
    condition_region condition documentContents
      (match_range documentContents m) = Returns (startPos, endPos)
    ∧ 0 ≤ startPos ≤ index m
    ∧ index m + len (matched m) ≤ endPos ≤ len documentContents.
Proof.
  intros Hsearch Hidx Hend Hcut.
  set (doc := documentContents) in *.
  pose proof (len_nonneg (matched m)) as Hm.
  set (r := match_range doc m).
  assert (line (start r) = count_linebreaks (substr doc 0 (index m)))
    as Hstart by reflexivity.
  pose proof (match_range_lineEnd doc m) as Hlast. fold r in Hlast.
  pose proof (count_linebreaks_nonneg (substr doc 0 (index m))) as Hnn1.
  pose proof (count_linebreaks_nonneg
                (substr doc (index m) (len (matched m)))) as Hnn2.
  assert (∃ startPos endPos,
            GetDocumentPosition doc (Num (line (start r))) = Returns startPos
            ∧ GetDocumentPosition doc (Num (line (end_ r) + 1))
              = Returns endPos
            ∧ 0 ≤ startPos ≤ index m
            ∧ index m + len (matched m) ≤ endPos ≤ len doc) as Hboth.
  { (* the start *)
    assert (∃ startPos,
              GetDocumentPosition doc (Num (line (start r))) = Returns startPos
              ∧ 0 ≤ startPos ≤ index m) as (startPos & Hs & Hsb).
    { destruct (decide (line (start r) < 1)) as [Hfirst|Hlater].
      - exists 0. unfold GetDocumentPosition. cbn [number_lt].
        assert ((line (start r) <? 1) = true) as -> by (apply Z.ltb_lt; lia).
        split; [done|lia].
      - destruct (GetDocumentPosition_line doc (line (start r)) ltac:(lia))
          as (p & Hp & Hbound & _ & _ & Hleast).
        exists p. split; [exact Hp|]. split; [lia|].
        destruct (decide (p ≤ index m)) as [|Hafter]; [done|]. exfalso.
        specialize (Hleast (substr doc 0 (index m))
                      (substr_from doc (index m))
                      (substr_split doc (index m) Hidx)).
        rewrite len_substr_0 in Hleast by lia.
        specialize (Hleast ltac:(lia) Hcut). lia. }
    (* the end *)
    destruct (GetDocumentPosition_line doc (line (end_ r) + 1) ltac:(lia))
      as (e & He & Hbound & Hround & Hpast & _).
    exists startPos, e. split; [exact Hs|]. split; [exact He|].
    split; [exact Hsb|]. split; [|lia].
    destruct (decide (count_linebreaks doc < line (end_ r) + 1))
      as [Hfew|Hmany]; [rewrite (Hpast Hfew); lia|].
    rewrite Z.min_l in Hround by lia.
    destruct (decide (index m + len (matched m) ≤ e)) as [|Hshort]; [done|].
    exfalso.
    pose proof (substr_0_add doc e (index m + len (matched m) - e)
                  ltac:(lia) ltac:(lia)) as Hq.
    replace (e + (index m + len (matched m) - e))
      with (index m + len (matched m)) in Hq by lia.
    pose proof (substr_0_add doc (index m) (len (matched m)) Hidx Hm) as Hq'.
    destruct (count_linebreaks_app_le (substr doc 0 e)
                (substr doc e (index m + len (matched m) - e))) as [Hle _].
    destruct (count_linebreaks_app_le (substr doc 0 (index m))
                (substr doc (index m) (len (matched m)))) as [_ Hle'].
    rewrite <- Hq in Hle. rewrite <- Hq' in Hle'. lia. }
  destruct Hboth as (startPos & endPos & Hs & He & Hsb & Heb).
  exists startPos, endPos. split; [|done].
  unfold condition_region. fold r.
  destruct (search_in condition) as [s|].
  - rewrite Hsearch, Hs, He. done.
  - rewrite Hs, He. done.
Qed.

End ConditionRegion.

Section ConditionRegionRuns.

Import Inputs6.

Lemma condition_region_covers_finding_witness :
  match search_in plain_condition with
  | Some s => truthy s = true
  | None => True
  end
  ∧ 0 ≤ index cd_match
  ∧ index cd_match + len (matched cd_match) ≤ len three_lines
  ∧ inside_CRLF three_lines (index cd_match) = false
  ∧ ∃ startPos endPos,
      condition_region plain_condition three_lines
        (match_range three_lines cd_match) = Returns (startPos, endPos)
      ∧ 0 ≤ startPos ≤ index cd_match
      ∧ index cd_match + len (matched cd_match) ≤ endPos ≤ len three_lines.
Proof.
  assert (0 ≤ index cd_match) as Hidx by (vm_compute; discriminate).
  assert (index cd_match + len (matched cd_match) ≤ len three_lines) as Hend
    by (vm_compute; discriminate).
  assert (inside_CRLF three_lines (index cd_match) = false) as Hcut
    by reflexivity.
  split; [exact I|]. split; [exact Hidx|]. split; [exact Hend|].
  split; [exact Hcut|].
  exact (condition_region_covers_finding plain_condition three_lines cd_match
           I Hidx Hend Hcut).
Defined.

End ConditionRegionRuns.

Section NoOverrides.

Context {engine : RegexEngine} {collab : Collaborators}.

(** X20. When no rule of the rule set overrides another, the second
    pass changes nothing: for a document that is analysed,
    [analyzeText] returns what [runAnalysis] finds, in the same order,
    and fails or spins when [runAnalysis] does. *)
Theorem analyzeText_is_runAnalysis_without_overrides
    (fuel : nat) (this : DevSkimWorker) (documentContents langID uri : string)
    (rules : list Rule) (ignoreList : list string) :
  analysisRules this = Some rules →
  rules ≠ [] →
  ignoreFilesList (dswSettings this) = Some ignoreList →
  ignoreFile uri ignoreList = false →
  (∀ rule, rule ∈ rules → default [] (overrides rule) = []) →
  analyzeText fuel this documentContents langID uri
  = runAnalysis fuel this documentContents langID uri.
Proof.
  intros Hrules Hsome Hlist Hignore Hnone.
  unfold analyzeText. rewrite Hrules, Hlist, Hignore.
  destruct rules as [|rule0 rules']; [done|].
  change (0 <? length (rule0 :: rules'))%nat with true. cbn [andb negb].
  destruct (runAnalysis fuel this documentContents langID uri)
    as [problems| |] eqn:Hrun; [|done|done].
  cbn [mbind Outcome_bind].
  unfold processOverrides. cbn [processOverrides_rec].
  rewrite processOverrides_outer_nothing; [done| |lia].
  apply Forall_forall. intros p Hp.
  destruct (runAnalysis_origin _ _ _ _ _ _ _ Hrun Hp)
    as (rule & pat & m & ps & Hfound & Hmatch & Hin).
  unfold no_overrides.
  destruct (prob_overrides p) as [|first others] eqn:Hov; [done|].
  pose proof (analyzeMatch_overrides _ _ _ _ _ _ _ _ _ _ Hmatch Hin Hov)
    as Hrule.
  destruct Hfound as (Hmember & _). rewrite Hrules in Hmember.
  specialize (Hnone rule Hmember). by rewrite Hrule in Hnone.
Qed.

End NoOverrides.

Section NoOverridesRuns.

Import Inputs Inputs2.

Lemma analyzeText_is_runAnalysis_without_overrides_witness :
  analysisRules strcpy_worker = Some [strcpy_rule]
  ∧ [strcpy_rule] ≠ []
  ∧ ignoreFilesList (dswSettings strcpy_worker) = Some []
  ∧ ignoreFile "file.c" [] = false
  ∧ (∀ rule, rule ∈ [strcpy_rule] → default [] (overrides rule) = [])
  ∧ analyzeText 10 strcpy_worker strcpy_document "c" "file.c"
    = runAnalysis 10 strcpy_worker strcpy_document "c" "file.c".
Proof.
  assert (∀ rule, rule ∈ [strcpy_rule] → default [] (overrides rule) = [])
    as Hnone.
  { intros rule Hin. apply list_elem_of_singleton in Hin as ->. reflexivity. }
  split; [reflexivity|]. split; [discriminate|]. split; [reflexivity|].
  split; [reflexivity|]. split; [exact Hnone|].
  exact (analyzeText_is_runAnalysis_without_overrides 10 strcpy_worker
           strcpy_document "c" "file.c" [strcpy_rule] []
           eq_refl ltac:(discriminate) eq_refl eq_refl Hnone).
Defined.

End NoOverridesRuns.

Section NegatedConditions.

Context {engine : RegexEngine} {collab : Collaborators}.

(** The scan of a negated condition leaves the loop where the scan of
    the plain one does, with the opposite outcome. *)
Lemma MatchesConditions_scan_negate fuel doc langID scopes re endPos m :
  MatchesConditions_scan fuel doc langID scopes re endPos true m
  = (exit ← MatchesConditions_scan fuel doc langID scopes re endPos false m;
     Returns match exit with
             | LeaveLoop true => ReturnFalse
             | _ => LeaveLoop false
             end).
Proof.
  revert m. induction fuel as [|fuel IH]; intros m; [done|].
  cbn [MatchesConditions_scan]. destruct m as [mt|]; [|done].
  destruct (endPos <? index mt); [done|].
  destruct (MatchIsInScope _ _ _ _); [done|]. apply IH.
Qed.

(** X21. [negateFinding] turns the verdict of a condition around: a
    single condition with [negateFinding] set holds exactly when the
    same condition without it does not, and the other way round; both
    fail or spin together. *)
Theorem MatchesConditions_negated
    (fuel : nat) (condition : Condition) (documentContents : string)
    (findingRange : Range) (langID : string) :
  MatchesConditions fuel (Some [negated condition]) documentContents
    findingRange langID
  = (holds ← MatchesConditions fuel (Some [condition]) documentContents
               findingRange langID;
     Returns (negb holds)).
Proof.
  unfold MatchesConditions. cbn [MatchesConditions_each].
  change (cond_pattern (negated condition)) with (cond_pattern condition).
  change (condition_region (negated condition))
    with (condition_region condition).
  change (default false (negateFinding (negated condition)))
    with (negb (default false (negateFinding condition))).
  destruct (MakeRegex _ _ _ true) as [re|]; [|done].
  change (orThrow (Some re)) with (Returns re). cbn [mbind Outcome_bind].
  destruct (condition_region condition documentContents findingRange)
    as [[startPos endPos]| |]; [|done|done].
  cbn [mbind Outcome_bind].
  destruct (default false (negateFinding condition)); cbn [negb];
    rewrite MatchesConditions_scan_negate;
    (destruct (MatchesConditions_scan _ _ _ _ _ _ false _) as [exit| |];
       [|done|done]);
    cbn [mbind Outcome_bind]; by destruct exit as [|[|]].
Qed.

End NegatedConditions.

Section LineNumbers.

(** X22. [GetLineNumber] grows with the position: for two positions of
    a document, the earlier one has the smaller line number, line
    numbers are not negative and none exceeds the number of line breaks
    of the document. *)
Theorem GetLineNumber_monotone (documentContents : string) (p q : Z) :
  0 ≤ p ≤ q →
  0 ≤ GetLineNumber documentContents p
  ∧ GetLineNumber documentContents p ≤ GetLineNumber documentContents q
  ∧ GetLineNumber documentContents q ≤ count_linebreaks documentContents.
Proof.
  intros Hpq. unfold GetLineNumber.
  split; [apply count_linebreaks_nonneg|]. split.
  - pose proof (substr_0_add documentContents p (q - p) ltac:(lia) ltac:(lia))
      as Hq.
    replace (p + (q - p)) with q in Hq by lia. rewrite Hq.
    apply count_linebreaks_app_le.
  - pose proof (substr_split documentContents q ltac:(lia)) as Hdoc.
    rewrite Hdoc at 2. apply count_linebreaks_app_le.
Qed.

Lemma GetLineNumber_monotone_witness :
  0 ≤ 1 ≤ 4
  ∧ 0 ≤ GetLineNumber ("ab" ++ LF ++ "cd") 1
  ∧ GetLineNumber ("ab" ++ LF ++ "cd") 1 ≤ GetLineNumber ("ab" ++ LF ++ "cd") 4
  ∧ GetLineNumber ("ab" ++ LF ++ "cd") 4 ≤ count_linebreaks ("ab" ++ LF ++ "cd").
Proof.
  assert (0 ≤ 1 ≤ 4) as H by lia.
  split; [exact H|].
  exact (GetLineNumber_monotone ("ab" ++ LF ++ "cd") 1 4 H).
Defined.

End LineNumbers.

Section OverrideRemoval.

Context {engine : RegexEngine}.

Lemma delete_middle {A : Type} (kept : list A) (r : A) (rest : list A) :
  delete (length kept) (kept ++ r :: rest)%list = (kept ++ rest)%list.
Proof. induction kept as [|a kept IH]; [done|]. simpl. by rewrite IH. Qed.

Lemma no_two_adjacent_tail {A : Type} (f : A → bool) a l :
  no_two_adjacent f (a :: l) = true → no_two_adjacent f l = true.
Proof. simpl. intros H. by apply andb_prop in H as [_ H]. Qed.

(** With no two neighbours to remove, the inner loop removes exactly
    the problems its test holds for. *)
Lemma processOverrides_inner_filter fuel kept rest problem regexString self flag :
  (length rest < fuel)%nat →
  (∀ q, q ∈ rest → is_Some (String_match (ruleId q) regexString)) →
  no_two_adjacent (overridden_by problem regexString) rest = true →
  ∃ self' flag',
    processOverrides_inner fuel (kept ++ rest)%list problem regexString
      (length kept) self flag
    = Returns ((kept ++ List.filter
                          (fun q => negb (overridden_by problem regexString q))
                          rest)%list, self', flag').
Proof.
  revert kept rest self flag.
  induction fuel as [|fuel IH]; intros kept rest self flag Hfuel Hmatch Hadj;
    [lia|].
  cbn [processOverrides_inner].
  destruct rest as [|r rest].
  { assert ((kept ++ [])%list !! length kept = None) as ->
      by (apply lookup_ge_None_2; rewrite length_app; simpl; lia).
    by eexists _, _. }
  rewrite list_lookup_middle by done.
  destruct (Hmatch r ltac:(by left)) as [matches Hr].
  rewrite Hr. change (orThrow (Some matches)) with (Returns matches).
  cbn [mbind Outcome_bind].
  assert (matches
          && (line (start (range r)) =? line (start (anchor problem)))
          && (character (start (range r))
              =? character (start (anchor problem)))
          = overridden_by problem regexString r) as ->.
  { unfold overridden_by. rewrite Hr. by destruct matches. }
  assert (∀ q, q ∈ rest → is_Some (String_match (ruleId q) regexString))
    as Hmatch' by (intros q Hq; apply Hmatch; by right).
  pose proof (no_two_adjacent_tail _ _ _ Hadj) as Hadj'.
  cbn [List.filter].
  destruct (overridden_by problem regexString r) eqn:Hvictim; cbn [negb].
  - rewrite delete_middle.
    destruct rest as [|r' rest'].
    + destruct fuel as [|fuel]; [simpl in Hfuel; lia|].
      cbn [processOverrides_inner].
      assert ((kept ++ [])%list !! S (length kept) = None) as ->
        by (apply lookup_ge_None_2; rewrite length_app; simpl; lia).
      by eexists _, _.
    + assert (overridden_by problem regexString r' = false) as Hnext.
      { simpl in Hadj. rewrite Hvictim in Hadj.
        by destruct (overridden_by problem regexString r'). }
      cbn [List.filter]. rewrite Hnext. cbn [negb].
      destruct (IH (kept ++ [r'])%list rest' (after_splice (length kept) self)
                  true) as (self' & flag' & Hrun).
      { simpl in Hfuel. lia. }
      { intros q Hq. apply Hmatch'. by right. }
      { by eapply no_two_adjacent_tail. }
      rewrite length_app, Nat.add_1_r, <- !app_assoc in Hrun. simpl in Hrun.
      by exists self', flag'.
  - destruct (IH (kept ++ [r])%list rest self flag) as (self' & flag' & Hrun).
    { simpl in Hfuel. lia. }
    { exact Hmatch'. }
    { exact Hadj'. }
    rewrite length_app, Nat.add_1_r, <- !app_assoc in Hrun. simpl in Hrun.
    by exists self', flag'.
Qed.

(** The inner loop keeps track of where the problem it works for sits:
    if it was the only place with overrides left, it still is. *)
Lemma processOverrides_inner_self fuel l problem regexString x self flag
    l' self' flag' :
  processOverrides_inner fuel l problem regexString x self flag
    = Returns (l', self', flag') →
  (∀ k q, l !! k = Some q → Some k ≠ self → no_overrides q) →
  ∀ k q, l' !! k = Some q → Some k ≠ self' → no_overrides q.
Proof.
  revert l x self flag.
  induction fuel as [|fuel IH]; intros l x self flag Hrun Hinv; [done|].
  cbn [processOverrides_inner] in Hrun.
  destruct (l !! x) as [px|] eqn:Hx; [|by injection Hrun as <- <- <-].
  destruct (String_match (ruleId px) regexString) as [matches|]; [|done].
  change (orThrow (Some matches)) with (Returns matches) in Hrun.
  cbn [mbind Outcome_bind] in Hrun.
  destruct (matches && _ && _); [|by eapply IH].
  eapply IH; [exact Hrun|].
  intros k q Hk Hne.
  destruct (decide (k < x)%nat) as [Hlt|Hge].
  - rewrite list_lookup_delete_lt in Hk by done.
    apply (Hinv k q Hk). intros <-. apply Hne. unfold after_splice.
    assert ((x <? k)%nat = false) as -> by (apply Nat.ltb_ge; lia).
    assert ((x =? k)%nat = false) as -> by (apply Nat.eqb_neq; lia).
    done.
  - rewrite list_lookup_delete_ge in Hk by lia.
    apply (Hinv (S k) q Hk). intros <-. apply Hne. unfold after_splice.
    assert ((x <? S k)%nat = true) as -> by (apply Nat.ltb_lt; lia).
    f_equal. lia.
Qed.

(** Without overrides anywhere, the outer loop changes nothing,
    whatever was removed before. *)
Lemma processOverrides_outer_clear fuel ps i flag :
  Forall no_overrides ps → (length ps - i < fuel)%nat →
  processOverrides_outer fuel ps i flag = Returns (ps, flag).
Proof.
  intros Hall. revert i.
  induction fuel as [|fuel IH]; intros i Hfuel; [lia|].
  cbn [processOverrides_outer].
  destruct (ps !! i) as [problem|] eqn:Hi; [|done].
  rewrite Forall_forall in Hall.
  rewrite (Hall problem) by (by eapply list_elem_of_lookup_2).
  apply IH. apply lookup_lt_Some in Hi. lia.
Qed.

(** The outer loop passes over problems without overrides. *)
Lemma processOverrides_outer_reach d fuel ps i0 flag :
  (∀ k q, (i0 ≤ k < i0 + d)%nat → ps !! k = Some q → no_overrides q) →
  (i0 + d ≤ length ps)%nat →
  processOverrides_outer (d + fuel) ps i0 flag
  = processOverrides_outer fuel ps (i0 + d) flag.
Proof.
  revert i0. induction d as [|d IH]; intros i0 Hnone Hlen.
  { by rewrite Nat.add_0_r. }
  change (S d + fuel)%nat with (S (d + fuel)). cbn [processOverrides_outer].
  destruct (ps !! i0) as [q|] eqn:Hq;
    [|apply lookup_ge_None in Hq; lia].
  rewrite (Hnone i0 q ltac:(lia) Hq).
  rewrite IH; [f_equal; lia| |lia].
  intros k q' Hk. apply Hnone. lia.
Qed.

Lemma no_overrides_fmap_emptied (l : list DevSkimProblem) :
  Forall no_overrides l → emptied <$> l = l.
Proof.
  induction 1 as [|p l Hp _ IH]; [done|].
  rewrite fmap_cons, IH. by rewrite emptied_no_overrides.
Qed.

(** X23. What [processOverrides] is for: when one problem of the list
    has overrides, every rule id can be matched against their
    alternation, and no two problems to remove are neighbours in the
    list, [processOverrides] returns the list without the problems
    whose rule id matches the alternation and that start where the
    overriding problem is anchored, the overrides emptied. *)
Theorem processOverrides_removes_overridden
    (ps : list DevSkimProblem) (i : nat) (p : DevSkimProblem)
    (first : string) (others : list string) :
  ps !! i = Some p →
  prob_overrides p = first :: others →
  (∀ k q, ps !! k = Some q → k ≠ i → no_overrides q) →
  (∀ q, q ∈ ps →
     is_Some (String_match (ruleId q) (alternation first others))) →
  no_two_adjacent (overridden_by p (alternation first others)) ps = true →
  processOverrides ps
  = Returns (emptied <$>
               List.filter
                 (fun q => negb (overridden_by p (alternation first others) q))
                 ps).
Proof.
  intros Hi Hov Hothers Hmatch Hadj.
  set (regexString := alternation first others) in *.
  set (kept := List.filter
                 (fun q => negb (overridden_by p regexString q)) ps).
  assert (i < length ps)%nat as Hlt by (by eapply lookup_lt_Some).
  assert (length kept ≤ length ps)%nat as Hkept.
  { unfold kept. clear. induction ps as [|q ps IH]; simpl; [done|].
    destruct (negb _); simpl; lia. }
  (* the pass that removes *)
  assert (∃ flag1,
            processOverrides_outer (S (length ps)) ps 0 false
            = Returns (emptied <$> kept, flag1)
            ∧ Forall no_overrides (emptied <$> kept)) as (flag1 & Hpass & Hclear).
  { replace (S (length ps)) with (i + S (length ps - i))%nat by lia.
    rewrite processOverrides_outer_reach;
      [|intros k q Hk Hq; apply (Hothers k q Hq); lia|lia].
    cbn [processOverrides_outer]. simpl (0 + i)%nat. rewrite Hi, Hov.
    destruct (processOverrides_inner_filter (S (length ps)) [] ps p
                regexString (Some i) false ltac:(lia) Hmatch Hadj)
      as (self' & flag' & Hinner).
    fold (alternation first others). fold regexString.
    change ([] ++ ps)%list with ps in Hinner.
    change (length (@nil DevSkimProblem)) with 0%nat in Hinner.
    change ([] ++ kept)%list with kept in Hinner.
    rewrite Hinner. cbn [mbind Outcome_bind].
    pose proof (processOverrides_inner_self _ _ _ _ _ _ _ _ _ _ Hinner)
      as Hself.
    specialize (Hself ltac:(intros k q Hk Hne; apply (Hothers k q Hk);
                            congruence)).
    set (after := match self' with
                  | Some j => alter (fun q => with_overrides q []) j kept
                  | None => kept
                  end).
    assert (Forall no_overrides after) as Hafter.
    { apply Forall_lookup. intros k q Hk. subst after.
      destruct self' as [j|]; [|by apply (Hself k q Hk)].
      destruct (decide (j = k)) as [->|Hne].
      - rewrite list_lookup_alter_eq in Hk.
        destruct (kept !! k); [|done]. by injection Hk as <-.
      - rewrite list_lookup_alter_ne in Hk by done.
        apply (Hself k q Hk). congruence. }
    assert (after = emptied <$> kept) as Hsame.
    { rewrite <- (no_overrides_fmap_emptied after Hafter). subst after.
      destruct self' as [j|]; [|done]. apply fmap_emptied_alter. }
    exists flag'. rewrite <- Hsame. split; [|exact Hafter].
    apply processOverrides_outer_clear; [exact Hafter|].
    assert (length after = length kept) as Hlen.
    { rewrite Hsame. apply length_fmap. }
    lia. }
  unfold processOverrides. cbn [processOverrides_rec].
  rewrite Hpass. cbn [mbind Outcome_bind].
  destruct flag1; [|done].
  destruct (length ps) as [|n] eqn:Hn; [lia|].
  cbn [processOverrides_rec].
  rewrite processOverrides_outer_nothing; [done|exact Hclear|lia].
Qed.

End OverrideRemoval.

Section OverrideRemovalRuns.

Import Inputs.

Lemma processOverrides_removes_overridden_witness :
  [md5_problem generic_md5; md5_problem java_md5; md5_problem weak_hash] !! 1%nat
    = Some (md5_problem java_md5)
  ∧ prob_overrides (md5_problem java_md5) = "DS-generic-md5" :: ["DS-weak-hash"]
  ∧ processOverrides
      [md5_problem generic_md5; md5_problem java_md5; md5_problem weak_hash]
    = Returns [with_overrides (md5_problem java_md5) []].
Proof.
  split; [reflexivity|]. split; [reflexivity|].
  refine (processOverrides_removes_overridden
            [md5_problem generic_md5; md5_problem java_md5; md5_problem weak_hash]
            1 (md5_problem java_md5) "DS-generic-md5" ["DS-weak-hash"]
            eq_refl eq_refl _ _ eq_refl).
  - intros [|[|[|k]]] q Hq Hk; try done; injection Hq as <-; reflexivity.
  - intros q Hq.
    apply elem_of_cons in Hq as [->|Hq]; [by eexists|].
    apply elem_of_cons in Hq as [->|Hq]; [by eexists|].
    apply list_elem_of_singleton in Hq as ->. by eexists.
Defined.

End OverrideRemovalRuns.

Section FixConstruction.

Context {engine : RegexEngine} {collab : Collaborators}.

Lemma length_omap_le {A B : Type} (f : A → option B) (l : list A) :
  (length (omap f l) ≤ length l)%nat.
Proof.
  induction l as [|a l IH]; [done|]. cbn. destruct (f a); cbn; lia.
Qed.

(** X24. The [try] of [MakeFixes] does not cover the construction of
    the regex: [MakeFixes] raises exactly when the regex of one of the
    fix templates of the rule cannot be built, whatever the replaced
    text and the other templates are; otherwise it returns, with at
    most one edit for each template, every edit at the given range and
    named after a template. *)
Theorem MakeFixes_raises_iff_template_regex_fails
    (rule : Rule) (replacementSource : string) (range : Range) :
  (MakeFixes rule replacementSource range = Throws
   ↔ ∃ fixIt, fixIt ∈ default [] (fixIts rule)
              ∧ MakeRegex (pat_type (fix_pattern fixIt))
                  (pat_pattern (fix_pattern fixIt))
                  (pat_modifiers (fix_pattern fixIt)) false = None)
  ∧ (∀ made, MakeFixes rule replacementSource range = Returns made →
       (length made ≤ length (default [] (fixIts rule)))%nat
       ∧ ∀ fix_, fix_ ∈ made →
           edit_range fix_ = range
           ∧ ∃ fixIt, fixIt ∈ default [] (fixIts rule)
                      ∧ fixName fix_ = Some ("DevSkim: " ++ fix_name fixIt))
  ∧ MakeFixes rule replacementSource range ≠ OutOfFuel.
Proof.
  pose proof (MakeFixes_spec rule replacementSource range) as Hspec.
  destruct (MakeFixes rule replacementSource range) as [made| |] eqn:Hrun.
  - destruct Hspec as [-> Hbuild]. split; [|split; [|done]].
    + split; [done|]. intros (fixIt & Hin & Hnone). exfalso.
      rewrite Forall_forall in Hbuild. specialize (Hbuild fixIt Hin).
      unfold fix_builds in Hbuild. rewrite Hnone in Hbuild.
      by destruct Hbuild.
    + intros made' [= <-]. split.
      * etrans; [apply length_omap_le|]. by rewrite length_reverse.
      * intros fix_ Hfix. apply list_elem_of_omap in Hfix
          as (fixIt & Hin & Hedit).
        rewrite elem_of_reverse in Hin. unfold fix_edit in Hedit.
        destruct (MakeRegex _ _ _ false) as [re|]; [|done]. simpl in Hedit.
        destruct (String_replace _ _ _) as [t|]; [|done]. simpl in Hedit.
        injection Hedit as <-. split; [done|]. by exists fixIt.
  - split; [|split; [done|done]]. split; [|done]. intros _.
    apply Exists_exists in Hspec as (fixIt & Hin & Hfail).
    exists fixIt. split; [done|].
    unfold fix_builds in Hfail.
    destruct (MakeRegex _ _ _ false); [|done]. exfalso. apply Hfail. eauto.
  - done.
Qed.

End FixConstruction.
